(** * An explicit-free-list allocator (mm.c): shallow embedding and verification

    The allocator of [mm.c] manages a byte arena obtained from a host
    module ([mem_sbrk], [mem_heap_lo], [mem_heap_hi]).  Blocks carry an
    8-byte header and footer holding [size | allocated]; free blocks are
    threaded on a doubly-linked list through the first 16 payload bytes.

    The embedding keeps the program's own data: memory is a map from byte
    addresses to bytes, [size_t] values and pointers are integers taken
    modulo 2^64, and the three module globals are fields of the state.
    Memory is total: an access outside the arena is an ordinary access, as
    it is for the C code, which never compares an address with the arena
    bounds outside of [mm_checkheap]. *)

From Stdlib Require Import ZArith List Lia Bool Permutation.
Import ListNotations.
Local Open Scope Z_scope.

(** ** Machine integers *)

Definition TWO64 : Z := 2 ^ 64.

(** Reduction of an integer to an unsigned 64-bit value ([size_t], pointers). *)
Definition wrap (z : Z) : Z := z mod TWO64.

(** The value of [(long) z] for an unsigned 64-bit [z]. *)
Definition to_long (z : Z) : Z := if z <? 2 ^ 63 then z else z - TWO64.

Abbreviation NULL := 0 (only parsing).

(** [W_SIZE = sizeof(size_t)], [D_SIZE = 2 * sizeof(size_t)]. *)
Abbreviation W_SIZE := 8 (only parsing).
Abbreviation D_SIZE := 16 (only parsing).

(** ** Byte memory *)

Definition memory := Z -> Z.

Definition load8 (m : memory) (a : Z) : Z := m a mod 256.

Definition store8 (m : memory) (a v : Z) : memory :=
  fun x => if x =? a then v mod 256 else m x.

(** Little-endian 64-bit accesses. *)
Definition load64 (m : memory) (a : Z) : Z :=
  load8 m a
  + load8 m (a + 1) * 2 ^ 8
  + load8 m (a + 2) * 2 ^ 16
  + load8 m (a + 3) * 2 ^ 24
  + load8 m (a + 4) * 2 ^ 32
  + load8 m (a + 5) * 2 ^ 40
  + load8 m (a + 6) * 2 ^ 48
  + load8 m (a + 7) * 2 ^ 56.

Definition store64 (m : memory) (a v : Z) : memory :=
  fun x => if (a <=? x) && (x <? a + 8)
           then (v / 2 ^ (8 * (x - a))) mod 256
           else m x.

(** [memset(p, c, n)] and [memcpy(dst, src, n)] on non-overlapping ranges. *)
Definition memset (m : memory) (p c n : Z) : memory :=
  fun x => if (p <=? x) && (x <? p + n) then c mod 256 else m x.

Definition memcpy (m : memory) (dst src n : Z) : memory :=
  fun x => if (dst <=? x) && (x <? dst + n) then m (src + (x - dst)) else m x.

(** ** Allocator and arena state *)

Record state : Type := mkState {
  mem : memory;
  mm_heap_first : Z;
  mm_heap_last : Z;
  mm_free_head : Z;
  arena_lo : Z;    (* first byte of the arena *)
  arena_brk : Z;   (* first byte past the arena *)
  arena_max : Z    (* the arena cannot grow past this address *)
}.

Definition set_mem (m : memory) (s : state) : state :=
  mkState m (mm_heap_first s) (mm_heap_last s) (mm_free_head s)
          (arena_lo s) (arena_brk s) (arena_max s).
Definition set_heap_first (v : Z) (s : state) : state :=
  mkState (mem s) v (mm_heap_last s) (mm_free_head s)
          (arena_lo s) (arena_brk s) (arena_max s).
Definition set_heap_last (v : Z) (s : state) : state :=
  mkState (mem s) (mm_heap_first s) v (mm_free_head s)
          (arena_lo s) (arena_brk s) (arena_max s).
Definition set_free_head (v : Z) (s : state) : state :=
  mkState (mem s) (mm_heap_first s) (mm_heap_last s) v
          (arena_lo s) (arena_brk s) (arena_max s).
Definition set_brk (v : Z) (s : state) : state :=
  mkState (mem s) (mm_heap_first s) (mm_heap_last s) (mm_free_head s)
          (arena_lo s) v (arena_max s).

(** ** Results: a call returns, or trips the [assert] of [block_remove],
    or the model's loop bound is exhausted. *)

Inductive result (A : Type) : Type :=
| Ok (a : A) (s : state)
| AssertFail
| OutOfFuel.
Arguments Ok {A} a s.
Arguments AssertFail {A}.
Arguments OutOfFuel {A}.

Definition M (A : Type) : Type := state -> result A.

Definition ret {A} (a : A) : M A := fun s => Ok a s.
Definition bind {A B} (c : M A) (k : A -> M B) : M B :=
  fun s => match c s with
           | Ok a s' => k a s'
           | AssertFail => AssertFail
           | OutOfFuel => OutOfFuel
           end.
Definition gets {A} (f : state -> A) : M A := fun s => Ok (f s) s.
Definition modify (f : state -> state) : M unit := fun s => Ok tt (f s).
Definition assert (b : bool) : M unit :=
  fun s => if b then Ok tt s else AssertFail.

Notation "x <- c ;; k" := (bind c (fun x => k))
  (at level 61, c at next level, right associativity).
Notation "c ;; k" := (bind c (fun _ => k))
  (at level 61, right associativity).

(** ** The arena provider *)

(** Modelled from the spec: the host module [memlib] is not part of the
    sources.  [arena_extend(n)] enlarges the arena by exactly [n] bytes and
    returns the previous top of the arena, or null on failure; [arena_lo]
    and [arena_hi] are the inclusive bounds of the mapped region. *)
Definition mem_sbrk (incr : Z) : M Z :=
  fun s => if (0 <=? incr) && (arena_brk s + incr <=? arena_max s)
           then Ok (arena_brk s) (set_brk (arena_brk s + incr) s)
           else Ok NULL s.
Definition mem_heap_lo (s : state) : Z := arena_lo s.
Definition mem_heap_hi (s : state) : Z := arena_brk s - 1.

(** ** Block encoding (mm.c, lines 66-141) *)

Definition incr_pointer (bytes p : Z) : Z := wrap (p + bytes).
Definition decr_pointer (bytes p : Z) : Z := wrap (p - bytes).
Definition pointer_dif (p1 p2 : Z) : Z := wrap (p1 - p2).

Definition round_up (size n : Z) : Z := wrap (wrap (size + n - 1) / n * n).

(** [val & ~0xF]: the mask is the 64-bit complement of 15. *)
Definition get_size_from_val (val : Z) : Z := Z.land val (wrap (Z.lnot 15)).
Definition get_size (block : Z) (s : state) : Z :=
  get_size_from_val (load64 (mem s) block).

Definition set_header (block size : Z) (is_alloc : bool) (s : state) : state :=
  set_mem (store64 (mem s) block (Z.lor size (Z.b2z is_alloc))) s.

Definition set_footer (block : Z) (s : state) : state :=
  let size := get_size block s in
  let footer := incr_pointer (wrap (size - W_SIZE)) block in
  set_mem (store64 (mem s) footer (load64 (mem s) block)) s.

Definition get_footer_from_header (header : Z) (s : state) : Z :=
  let header_val := load64 (mem s) header in
  incr_pointer (wrap (get_size_from_val header_val - W_SIZE)) header.

Definition is_allocated_from_val (val : Z) : bool := negb (Z.land val 1 =? 0).
Definition is_allocated (block : Z) (s : state) : bool :=
  is_allocated_from_val (load64 (mem s) block).

(** [block->payload] is 8 bytes past the header; [next] is its first word
    and [prev] its second. *)
Definition payload (block : Z) : Z := wrap (block + 8).
Definition next_field (block : Z) : Z := payload block.
Definition prev_field (block : Z) : Z := wrap (payload block + 8).

Definition set_next (block next : Z) (s : state) : state :=
  set_mem (store64 (mem s) (next_field block) next) s.
Definition set_prev (block prev : Z) (s : state) : state :=
  set_mem (store64 (mem s) (prev_field block) prev) s.
Definition get_next (block : Z) (s : state) : Z :=
  load64 (mem s) (next_field block).
Definition get_prev (block : Z) (s : state) : Z :=
  load64 (mem s) (prev_field block).

Definition init_heap_first (s : state) : state :=
  let s1 := set_heap_first (mem_heap_lo s) s in
  set_heap_first (incr_pointer W_SIZE (mm_heap_first s1)) s1.

Definition init_heap_last (s : state) : state :=
  let last_heap_index := mem_heap_hi s in
  set_heap_last (decr_pointer (D_SIZE - 1) last_heap_index) s.

(** ** Free list (mm.c, lines 142-171) *)

(** Appends [block] to the front of the list of freed blocks. *)
Definition block_append (block : Z) (s : state) : state :=
  let s1 := set_next block (mm_free_head s) s in
  let s2 := if negb (mm_free_head s1 =? NULL)
            then set_prev (mm_free_head s1) block s1 else s1 in
  let s3 := set_prev block NULL s2 in
  set_free_head block s3.

(** Removes [block] from the list of freed blocks. *)
Definition block_remove (block : Z) : M unit :=
  head_next <- gets (fun s => get_next (mm_free_head s) s) ;;
  if head_next =? NULL then
    head <- gets mm_free_head ;;
    assert (block =? head) ;;
    modify (set_free_head NULL)
  else
    next <- gets (get_next block) ;;
    prev <- gets (get_prev block) ;;
    head <- gets mm_free_head ;;
    if block =? head then
      modify (set_prev next NULL) ;;
      modify (set_free_head next)
    else
      modify (set_next prev next) ;;
      if negb (next =? NULL) then modify (set_prev next prev) else ret tt.

(** ** Arena lifecycle (mm.c, lines 172-190) *)

Definition mm_init : M Z :=
  modify (set_free_head NULL) ;;
  r <- mem_sbrk (to_long (wrap (2 * D_SIZE + W_SIZE))) ;;
  if r =? NULL then ret (-1)
  else
    modify init_heap_first ;;
    modify init_heap_last ;;
    ret 0.

(** Expands the heap and returns a new block of the given size; the result
    of [mem_sbrk] is not inspected. *)
Definition create_space (size : Z) : M Z :=
  _ <- mem_sbrk (to_long size) ;;
  block <- gets mm_heap_last ;;
  modify (fun s => set_heap_last (incr_pointer size (mm_heap_last s)) s) ;;
  modify (set_header block size true) ;;
  modify (set_footer block) ;;
  ret block.

(** ** Placement (mm.c, lines 191-235) *)

Definition split (block size : Z) : M Z :=
  block_remove block ;;
  old_size <- gets (get_size block) ;;
  modify (set_header block size true) ;;
  modify (set_footer block) ;;
  let split_free := incr_pointer size block in
  modify (set_header split_free (wrap (old_size - size)) false) ;;
  modify (set_footer split_free) ;;
  modify (block_append split_free) ;;
  ret block.

(** The [while] loop of [find_fit]; [fuel] bounds the number of iterations. *)
Fixpoint find_fit_loop (fuel : nat) (curr size : Z) : M Z :=
  if curr =? NULL then ret NULL
  else
    match fuel with
    | O => fun _ => OutOfFuel
    | S fuel' =>
        curr_size <- gets (get_size curr) ;;
        if wrap (2 * D_SIZE + size) <=? curr_size then split curr size
        else if size <=? curr_size then
          block_remove curr ;;
          sz <- gets (get_size curr) ;;
          modify (set_header curr sz true) ;;
          modify (set_footer curr) ;;
          ret curr
        else
          next <- gets (get_next curr) ;;
          find_fit_loop fuel' next size
    end.

Definition find_fit (fuel : nat) (size : Z) : M Z :=
  curr <- gets mm_free_head ;;
  find_fit_loop fuel curr size.

Definition adj_size (size : Z) : Z := wrap (D_SIZE + round_up size D_SIZE).

Definition malloc (fuel : nat) (size : Z) : M Z :=
  hf <- gets mm_heap_first ;;
  (if hf =? NULL then (_ <- mm_init ;; ret tt) else ret tt) ;;
  if size =? 0 then ret NULL
  else
    block <- find_fit fuel (adj_size size) ;;
    block <- (if block =? NULL then create_space (adj_size size)
              else ret block) ;;
    ret (incr_pointer W_SIZE block).

(** ** Coalescing and free (mm.c, lines 237-277) *)

Definition coalesce_left (block : Z) : M Z :=
  let left_footer_pt := decr_pointer W_SIZE block in
  hf <- gets mm_heap_first ;;
  if negb (left_footer_pt =? incr_pointer W_SIZE hf) then
    left_footer <- gets (fun s => load64 (mem s) left_footer_pt) ;;
    let jump_dist := get_size_from_val left_footer in
    let left_block := decr_pointer jump_dist block in
    left_alloc <- gets (is_allocated left_block) ;;
    if negb left_alloc then
      block_remove block ;;
      block_remove left_block ;;
      new_size <- gets (fun s => wrap (get_size block s + get_size left_block s)) ;;
      modify (set_header left_block new_size false) ;;
      modify (set_footer left_block) ;;
      modify (block_append left_block) ;;
      ret left_block
    else ret block
  else ret block.

Definition coalesce (block : Z) : M unit :=
  block <- coalesce_left block ;;
  block_size <- gets (get_size block) ;;
  let right_block := incr_pointer block_size block in
  hl <- gets mm_heap_last ;;
  if negb (right_block =? hl) then
    right_alloc <- gets (is_allocated right_block) ;;
    if negb right_alloc then _ <- coalesce_left right_block ;; ret tt
    else ret tt
  else ret tt.

Definition free (ptr : Z) : M unit :=
  hf <- gets mm_heap_first ;;
  (if hf =? NULL then (_ <- mm_init ;; ret tt) else ret tt) ;;
  if ptr =? NULL then ret tt
  else
    let to_free := decr_pointer W_SIZE ptr in
    sz <- gets (get_size to_free) ;;
    modify (set_header to_free sz false) ;;
    modify (set_footer to_free) ;;
    modify (block_append to_free) ;;
    coalesce to_free.

(** ** realloc and calloc (mm.c, lines 278-310) *)

Definition realloc (fuel : nat) (old_ptr size : Z) : M Z :=
  if size =? 0 then
    free old_ptr ;; ret NULL
  else if old_ptr =? NULL then malloc fuel size
  else
    new_ptr <- malloc fuel size ;;
    if new_ptr =? NULL then ret NULL
    else
      let block := decr_pointer W_SIZE old_ptr in
      old_size <- gets (fun s => wrap (get_size block s - D_SIZE)) ;;
      let old_size := if size <? old_size then size else old_size in
      modify (fun s => set_mem (memcpy (mem s) new_ptr old_ptr old_size) s) ;;
      free old_ptr ;;
      ret new_ptr.

Definition calloc (fuel : nat) (nmemb size : Z) : M Z :=
  let bytes := wrap (nmemb * size) in
  new_ptr <- malloc fuel bytes ;;
  (if negb (new_ptr =? NULL)
   then modify (fun s => set_mem (memset (mem s) new_ptr 0 bytes) s)
   else ret tt) ;;
  ret new_ptr.

(** ** The self-check (mm.c, lines 311-380) *)

(** One constructor per diagnostic line printed by [mm_checkheap]. *)
Inductive diag : Type :=
| PrologueNull | PrologueMoved | EpilogueNull | EpilogueMoved
| FailureToCoalesce | BlockNotAligned | BlockOutsideHeap | FooterMismatch
| BelowMinSize | AddressNotAligned
| PrevMismatch | FreeBlockOutsideHeap
| ListStoresMore | ListMissesFree.

Definition when (b : bool) (d : diag) : list diag := if b then [d] else [].

(** The [int64_t] counter. *)
Definition sint64 (z : Z) : Z := to_long (wrap z).

(** First loop: the implicit traversal of the blocks.  Returns the
    diagnostics printed and the final value of [num_free_check]. *)
Fixpoint check_blocks (fuel : nat) (s : state) (curr prev num : Z)
  : option (list diag * Z) :=
  if curr =? mm_heap_last s then Some ([], num)
  else
    match fuel with
    | O => None
    | S fuel' =>
        let counted := negb (prev =? NULL) && negb (is_allocated curr s) in
        let num' := if counted then sint64 (num + 1) else num in
        let d_coal := when (counted && negb (is_allocated prev s))
                           FailureToCoalesce in
        let size := get_size curr s in
        let d_size := when (negb (size mod D_SIZE =? 0)) BlockNotAligned in
        let d_out := when ((curr <? mem_heap_lo s) || (mem_heap_hi s <? curr))
                          BlockOutsideHeap in
        let footer := get_footer_from_header curr s in
        let d_foot := when (negb (load64 (mem s) curr =? load64 (mem s) footer))
                           FooterMismatch in
        let d_min := when (size <? 2 * D_SIZE) BelowMinSize in
        let d_addr := when (negb (pointer_dif curr (mm_heap_first s) mod D_SIZE =? 0))
                           AddressNotAligned in
        match check_blocks fuel' s (incr_pointer size curr) curr num' with
        | Some (ds, n) =>
            Some (d_coal ++ d_size ++ d_out ++ d_foot ++ d_min ++ d_addr ++ ds, n)
        | None => None
        end
    end.

(** Second loop: the walk along the free list. *)
Fixpoint check_list (fuel : nat) (s : state) (curr prev num : Z)
  : option (list diag * Z) :=
  if curr =? NULL then Some ([], num)
  else
    match fuel with
    | O => None
    | S fuel' =>
        let d_prev := when (negb (get_prev curr s =? prev)) PrevMismatch in
        let d_out := when ((curr <? mem_heap_lo s) || (mem_heap_hi s <? curr))
                          FreeBlockOutsideHeap in
        match check_list fuel' s (get_next curr s) curr (sint64 (num - 1)) with
        | Some (ds, n) => Some (d_prev ++ d_out ++ ds, n)
        | None => None
        end
    end.

(** [mm_checkheap]: the list of diagnostics it prints, in order; [None] when
    a loop exceeds [fuel] iterations. *)
Definition mm_checkheap (fuel : nat) (s : state) : option (list diag) :=
  let heap_lo := mem_heap_lo s in
  let heap_hi := mem_heap_hi s in
  let d_pro :=
    if mm_heap_first s =? NULL then [PrologueNull]
    else when (negb (mm_heap_first s =? wrap (heap_lo + W_SIZE))) PrologueMoved in
  let d_epi :=
    if mm_heap_last s =? NULL then [EpilogueNull]
    else when (negb (mm_heap_last s =? decr_pointer (D_SIZE - 1) heap_hi))
              EpilogueMoved in
  match check_blocks fuel s (incr_pointer D_SIZE (mm_heap_first s)) NULL 0 with
  | None => None
  | Some (d_blocks, num1) =>
      match (if negb (mm_free_head s =? NULL)
             then check_list fuel s (mm_free_head s) NULL num1
             else Some ([], num1)) with
      | None => None
      | Some (d_list, num2) =>
          let d_rec := if num2 <? 0 then [ListStoresMore]
                       else when (0 <? num2) ListMissesFree in
          Some (d_pro ++ d_epi ++ d_blocks ++ d_list ++ d_rec)
      end
  end.

(** The value of [num_free_check] after the first loop alone: the number
    of unallocated blocks the implicit traversal has counted. *)
Definition implicit_free_count (fuel : nat) (s : state) : option Z :=
  match check_blocks fuel s (incr_pointer D_SIZE (mm_heap_first s)) NULL 0 with
  | Some (_, n) => Some n
  | None => None
  end.

(** The number of nodes the second loop visits. *)
Fixpoint free_list_length (fuel : nat) (s : state) (curr : Z) : option Z :=
  if curr =? NULL then Some 0
  else
    match fuel with
    | O => None
    | S fuel' =>
        match free_list_length fuel' s (get_next curr s) with
        | Some n => Some (n + 1)
        | None => None
        end
    end.

(** * Specification vocabulary *)

(** ** The free list, read from memory *)

(** [dll m prev cur l last]: starting at [cur], the [next] fields visit
    exactly the nodes [l] and then reach [last]; the [prev] field of the
    first node is [prev] and every later [prev] field points one node
    back.  The whole free list is [dll m NULL free_head l NULL]. *)
Fixpoint dll (m : memory) (prev cur : Z) (l : list Z) (last : Z) : Prop :=
  match l with
  | [] => cur = last
  | a :: l' =>
      cur = a /\ a <> NULL /\ load64 m (a + 16) = prev /\
      dll m a (load64 m (a + 8)) l' last
  end.

(** Two block addresses whose blocks (at least 32 bytes each) do not overlap. *)
Definition far (x y : Z) : Prop := x + 32 <= y \/ y + 32 <= x.

(** Addresses of pairwise disjoint blocks inside the 64-bit address space. *)
Fixpoint spaced (l : list Z) : Prop :=
  match l with
  | [] => True
  | a :: l' => 0 < a /\ a + 32 <= TWO64 /\ (forall x, In x l' -> far a x) /\ spaced l'
  end.

(** Removal of an address from a list of addresses. *)
Definition remove_addr (b : Z) (l : list Z) : list Z :=
  filter (fun x => negb (x =? b)) l.

(** The direct O(1) unlink of the spec (section 4.3, [remove(b)]: unlink
    using [b.prev] and [b.next], special-casing the head), written from the
    spec's words for comparison with [block_remove]. *)
Definition direct_unlink (block : Z) (s : state) : state :=
  let next := get_next block s in
  let prev := get_prev block s in
  let s1 := if prev =? NULL then set_free_head next s
            else set_next prev next s in
  if next =? NULL then s1 else set_prev next prev s1.

(** The memory after the two link updates of an unlink, given the [prev]
    and [next] fields of the removed node. *)
Definition unlink_mem (m : memory) (prev next : Z) : memory :=
  let m1 := if prev =? NULL then m else store64 m (prev + 8) next in
  if next =? NULL then m1 else store64 m1 (next + 16) prev.

(** The memory after [block_append b] when the list head is [h]. *)
Definition push_mem (m : memory) (h b : Z) : memory :=
  let m1 := store64 m (b + 8) h in
  let m2 := if negb (h =? NULL) then store64 m1 (h + 16) b else m1 in
  store64 m2 (b + 16) NULL.

(** ** The block sequence, read from memory *)

(** A block of the arena: its address, total size and allocation flag. *)
Record blk : Type := Blk { b_addr : Z; b_size : Z; b_alloc : bool }.

(** The boundary tag of a block. *)
Definition tag (size : Z) (a : bool) : Z := size + Z.b2z a.

(** [tiles m a bs e]: the blocks [bs] lie back to back from address [a] to
    address [e]; each has a size of at least 32 that is a multiple of 16,
    and its header and footer both hold its tag. *)
Fixpoint tiles (m : memory) (a : Z) (bs : list blk) (e : Z) : Prop :=
  match bs with
  | [] => a = e
  | b :: bs' =>
      b_addr b = a /\ 32 <= b_size b /\ b_size b mod 16 = 0 /\
      load64 m a = tag (b_size b) (b_alloc b) /\
      load64 m (a + b_size b - 8) = tag (b_size b) (b_alloc b) /\
      tiles m (a + b_size b) bs' e
  end.

Definition is_free (b : blk) : bool := negb (b_alloc b).
Definition free_addrs (bs : list blk) : list Z := map b_addr (filter is_free bs).

(** No two neighbouring blocks are both free. *)
Fixpoint no_adjacent_free (bs : list blk) : bool :=
  match bs with
  | [] => true
  | b :: bs' =>
      match bs' with
      | [] => true
      | b' :: _ => (b_alloc b || b_alloc b') && no_adjacent_free bs'
      end
  end.

(** [heap_ok s bs fl out]: the state [s] holds the block sequence [bs]
    between the prologue and the epilogue, its free list is [fl], and the
    free blocks of [bs] are exactly the nodes of [fl] together with the
    blocks [out] that are momentarily off the list. *)
Record heap_ok (s : state) (bs : list blk) (fl out : list Z) : Prop := {
  ok_lo : 0 < arena_lo s;
  ok_first : mm_heap_first s = arena_lo s + 8;
  ok_brk : arena_brk s = mm_heap_last s + 16;
  ok_max : arena_brk s <= arena_max s /\ arena_max s <= TWO64;
  ok_tiles : tiles (mem s) (arena_lo s + 24) bs (mm_heap_last s);
  ok_dll : dll (mem s) NULL (mm_free_head s) fl NULL;
  ok_perm : Permutation (out ++ fl) (free_addrs bs)
}.

(** Memory is unchanged inside the allocated blocks of [bs]. *)
Definition keeps (bs : list blk) (m m' : memory) : Prop :=
  forall b x, In b bs -> b_alloc b = true ->
              b_addr b <= x < b_addr b + b_size b -> m' x = m x.

(** ** Layout transformers *)

(** A free block absorbs a free right neighbour. *)
Definition merge_step (b : blk) (r : list blk) : list blk :=
  match r with
  | b' :: r' =>
      if is_free b && is_free b'
      then Blk (b_addr b) (b_size b + b_size b') false :: r'
      else b :: r
  | [] => [b]
  end.

(** All runs of neighbouring free blocks merged. *)
Definition merge_free (bs : list blk) : list blk := fold_right merge_step [] bs.

(** The block at address [a] marked free, or allocated. *)
Definition set_flag (a : Z) (f : bool) (bs : list blk) : list blk :=
  map (fun b => if b_addr b =? a then Blk (b_addr b) (b_size b) f else b) bs.

(** The block at address [a] replaced by the blocks [new]. *)
Definition replace_blk (a : Z) (new : list blk) (bs : list blk) : list blk :=
  flat_map (fun b => if b_addr b =? a then new else [b]) bs.

(** The second branch of the loop of [find_fit] (the candidate is taken
    whole), named so that statements can refer to it. *)
Definition take_whole (curr : Z) : M Z :=
  block_remove curr ;;
  sz <- gets (get_size curr) ;;
  modify (set_header curr sz true) ;;
  modify (set_footer curr) ;;
  ret curr.

(** ** The client contract *)

(** The largest request for which the block size and the split threshold
    are computed without wrap-around. *)
Definition MAX_REQUEST : Z := TWO64 - 64.

(** The arena provider can serve a growth of [n] bytes. *)
Definition sbrk_succeeds (s : state) (n : Z) : Prop :=
  0 <= to_long n /\ arena_brk s + to_long n <= arena_max s.

(** A request the allocator can serve: its size is in range, and whenever
    the search of the free list ends without a fit the arena can grow. *)
Definition serviceable (s : state) (n : Z) : Prop :=
  0 < n <= MAX_REQUEST /\
  (forall fuel s1, find_fit fuel (adj_size n) s = Ok NULL s1 ->
                   sbrk_succeeds s (adj_size n)).

(** The live allocations, as (payload pointer, requested size) pairs, all
    sit in allocated blocks that are large enough. *)
Definition live_ok (bs : list blk) (L : list (Z * Z)) : Prop :=
  forall p n, In (p, n) L ->
    0 < n /\
    exists b, In b bs /\ b_addr b = p - 8 /\ b_alloc b = true /\
              n + 16 <= b_size b.

(** The invariant that holds between public calls. *)
Definition Inv (L : list (Z * Z)) (s : state) (bs : list blk) (fl : list Z)
  : Prop :=
  heap_ok s bs fl [] /\ no_adjacent_free bs = true /\ live_ok bs L.

(** The live allocations without those at pointer [p]. *)
Definition drop (p : Z) (L : list (Z * Z)) : list (Z * Z) :=
  filter (fun e => negb (fst e =? p)) L.

(** Everything but the memory and the list head is the same in both states. *)
Definition same_frame (s s' : state) : Prop :=
  mm_heap_first s' = mm_heap_first s /\ mm_heap_last s' = mm_heap_last s /\
  arena_lo s' = arena_lo s /\ arena_brk s' = arena_brk s /\
  arena_max s' = arena_max s.

(** ** Public calls and reachable states *)

Inductive call : Type :=
| Malloc (size : Z)
| Free (ptr : Z)
| Realloc (ptr size : Z)
| Calloc (nmemb size : Z).

Definition run_call (fuel : nat) (c : call) : M Z :=
  match c with
  | Malloc n => malloc fuel n
  | Free p => free p ;; ret NULL
  | Realloc p n => realloc fuel p n
  | Calloc k n => calloc fuel k n
  end.

(** What the client may ask for: sizes the allocator can serve, and
    pointers that are null or live. *)
Definition admissible (L : list (Z * Z)) (s : state) (c : call) : Prop :=
  match c with
  | Malloc n => n = 0 \/ serviceable s n
  | Free p => p = NULL \/ In p (map fst L)
  | Realloc p n => (p = NULL \/ In p (map fst L)) /\ (n = 0 \/ serviceable s n)
  | Calloc k n => wrap (k * n) = 0 \/ serviceable s (wrap (k * n))
  end.

(** The live allocations after a call that returned [r]. *)
Definition live_after (L : list (Z * Z)) (c : call) (r : Z) : list (Z * Z) :=
  match c with
  | Malloc n => if n =? 0 then L else (r, n) :: L
  | Free p => drop p L
  | Realloc p n => if n =? 0 then drop p L else (r, n) :: drop p L
  | Calloc k n => if wrap (k * n) =? 0 then L else (r, wrap (k * n)) :: L
  end.

(** The arena before initialisation: empty, at a non-null address, inside
    the 64-bit address space. *)
Definition fresh (s : state) : Prop :=
  0 < arena_lo s /\ arena_brk s = arena_lo s /\ arena_max s <= TWO64.

(** States reachable between public calls: after a successful [mm_init] on
    a fresh arena, after any admissible call that returned, and after any
    write of the client into a live payload. *)
Inductive reachable : list (Z * Z) -> state -> Prop :=
| reach_init s0 s :
    fresh s0 -> mm_init s0 = Ok 0 s -> reachable [] s
| reach_call L s fuel c r s' :
    reachable L s -> admissible L s c -> run_call fuel c s = Ok r s' ->
    reachable (live_after L c r) s'
| reach_write L s p n i v :
    reachable L s -> In (p, n) L -> 0 <= i < n ->
    reachable L (set_mem (store8 (mem s) (p + i) v) s).

(** ** Traversals of the concrete heap *)

(** The implicit traversal: from [curr], follow the sizes in the headers
    up to the epilogue. *)
Fixpoint heap_blocks (fuel : nat) (s : state) (curr : Z) : option (list blk) :=
  if curr =? mm_heap_last s then Some []
  else
    match fuel with
    | O => None
    | S fuel' =>
        let size := get_size curr s in
        match heap_blocks fuel' s (incr_pointer size curr) with
        | Some bs => Some (Blk curr size (is_allocated curr s) :: bs)
        | None => None
        end
    end.

(** The explicit traversal: from [curr], follow the [next] fields to null. *)
Fixpoint free_list (fuel : nat) (s : state) (curr : Z) : option (list Z) :=
  if curr =? NULL then Some []
  else
    match fuel with
    | O => None
    | S fuel' =>
        match free_list fuel' s (get_next curr s) with
        | Some l => Some (curr :: l)
        | None => None
        end
    end.

(** ** Concrete states for the examples *)

Definition state_after {A : Type} (c : M A) (s : state) : state :=
  match c s with Ok _ s' => s' | _ => s end.
Definition value_of {A : Type} (c : M A) (s : state) : option A :=
  match c s with Ok a _ => Some a | _ => None end.

(** An empty arena at address 4096 that can grow up to [max]. *)
Definition demo_arena (max : Z) : state :=
  mkState (fun _ => 0) NULL NULL NULL 4096 4096 max.

(** [init(); p = malloc(16); free(p)] in a roomy arena. *)
Definition demo_init : state := state_after mm_init (demo_arena 8192).
Definition demo_alloc : state := state_after (malloc 1 16) demo_init.
Definition demo_freed : state := state_after (free 4128) demo_alloc.

(** An arena that is full right after [init()], and one that is full after
    [init(); malloc(16)]. *)
Definition full_init : state := state_after mm_init (demo_arena 4136).
Definition full_alloc : state :=
  state_after (malloc 1 16) (state_after mm_init (demo_arena 4168)).

(** ** Further example states *)

(** Three allocations of 16 bytes after [init()], at 4128, 4160 and 4192;
    then the first one freed; then the third one freed, which leaves the
    heap as a free, an allocated and a free block; then the second one
    freed, which merges the three blocks into one. *)
Definition demo_two : state := state_after (run_call 1 (Malloc 16)) demo_alloc.
Definition demo_three : state := state_after (run_call 1 (Malloc 16)) demo_two.
Definition demo_hole : state := state_after (run_call 1 (Free 4128)) demo_three.
Definition demo_holes : state := state_after (run_call 1 (Free 4192)) demo_hole.
Definition demo_merged : state := state_after (run_call 1 (Free 4160)) demo_holes.

(** [init(); a = malloc(32)], the byte 0xAA written at [a + 20], then
    [free(a)]: a free block whose payload is not all zero. *)
Definition demo_written : state :=
  let s1 := state_after (run_call 1 (Malloc 32)) demo_init in
  set_mem (store8 (mem s1) (4128 + 20) 170) s1.
Definition demo_dirty : state := state_after (run_call 1 (Free 4128)) demo_written.

(** ** Runs with a request close to 2^64 *)

(** Writes of the client into memory it was given. *)
Definition client_store8 (a v : Z) : M unit :=
  modify (fun s => set_mem (store8 (mem s) a v) s).
Definition client_store64 (a v : Z) : M unit :=
  modify (fun s => set_mem (store64 (mem s) a v) s).

(** [init(); a = malloc(16); b = malloc(16); c = malloc(2^64 - 48);
    free(b); free(a)]. *)
Definition adjacent_free_run : M (Z * Z * Z) :=
  mm_init ;;
  a <- malloc 1 16 ;;
  b <- malloc 1 16 ;;
  c <- malloc 1 (2 ^ 64 - 48) ;;
  free b ;;
  free a ;;
  ret (a, b, c).
Definition adjacent_free_state : state :=
  state_after adjacent_free_run (demo_arena 8192).

(** [init(); a = malloc(48); b = malloc(16); free(b)]: the free list holds
    one block of 32 bytes, right after the live block of [a]. *)
Definition wrapped_fit_setup : M (Z * Z) :=
  mm_init ;;
  a <- malloc 1 48 ;;
  b <- malloc 1 16 ;;
  free b ;;
  ret (a, b).
Definition wrapped_fit_state : state :=
  state_after wrapped_fit_setup (demo_arena 8192).

(** [init(); a = malloc(16); b = malloc(16); free(a)], and the byte 0xAA
    written at [b + 8]. *)
Definition realloc_wrap_setup : M (Z * Z) :=
  mm_init ;;
  a <- malloc 1 16 ;;
  b <- malloc 1 16 ;;
  free a ;;
  client_store8 (b + 8) 170 ;;
  ret (a, b).
Definition realloc_wrap_state : state :=
  state_after realloc_wrap_setup (demo_arena 8192).

(** [init(); a = malloc(16); b = malloc(112); free(a);
    q = malloc(2^64 - 20)]; the client then stores the address [b + 9] in
    the first word of [q] and, inside the payload of [b], the words 64, 0
    and [q - 8] at [b + 9], [b + 17] and [b + 25]; then [r = malloc(48)]. *)
Definition misaligned_run : M (Z * Z * Z * Z) :=
  mm_init ;;
  a <- malloc 1 16 ;;
  b <- malloc 1 112 ;;
  free a ;;
  q <- malloc 1 (2 ^ 64 - 20) ;;
  client_store64 q (b + 9) ;;
  client_store64 (b + 9) 64 ;;
  client_store64 (b + 17) 0 ;;
  client_store64 (b + 25) (q - 8) ;;
  r <- malloc 2 48 ;;
  ret (a, b, q, r).

(** [init(); p = malloc(2^64 - 1); free(p); q = malloc(16)], and then
    [free(q)]. *)
Definition assert_setup : M (Z * Z) :=
  mm_init ;;
  p <- malloc 1 (2 ^ 64 - 1) ;;
  free p ;;
  q <- malloc 1 16 ;;
  ret (p, q).
Definition assert_state : state := state_after assert_setup (demo_arena 8192).

(** ** Vocabulary of the further properties *)

(** The pointer a call releases, if any. *)
Definition released (c : call) : Z :=
  match c with
  | Free p => p
  | Realloc p _ => p
  | _ => NULL
  end.

(** The bytes of the live payloads other than [p]'s are the same in [s']
    as in [s]. *)
Definition others_kept (L : list (Z * Z)) (p : Z) (s s' : state) : Prop :=
  forall q m i, In (q, m) L -> q <> p -> 0 <= i < m ->
                mem s' (q + i) = mem s (q + i).

(** The number of free blocks of a block sequence, and its total size. *)
Definition count_free (bs : list blk) : Z :=
  Z.of_nat (length (filter is_free bs)).

Definition total_size (bs : list blk) : Z :=
  fold_right (fun b acc => b_size b + acc) 0 bs.

(** ** Running monadic code in proofs *)

(** [mrun] exposes the state-passing form of a monadic term; [mstep]
    continues after a test has been decided. *)
Ltac mrun := cbv beta iota zeta delta [bind gets modify ret].
Ltac mstep := cbn [negb andb orb]; cbv beta iota.

(** * Proofs *)

(** ** Machine arithmetic and memory *)

Lemma TWO64_eq : TWO64 = 18446744073709551616.
Proof. reflexivity. Qed.

Lemma wrap_small (z : Z) : 0 <= z < TWO64 -> wrap z = z.
Proof. intros H. unfold wrap. apply Z.mod_small. exact H. Qed.

Lemma wrap_range (z : Z) : 0 <= wrap z < TWO64.
Proof. unfold wrap. apply Z.mod_pos_bound. reflexivity. Qed.

Lemma load8_range (m : memory) (a : Z) : 0 <= load8 m a < 256.
Proof. unfold load8. apply Z.mod_pos_bound. reflexivity. Qed.

Lemma load64_range (m : memory) (a : Z) : 0 <= load64 m a < TWO64.
Proof.
  unfold load64, TWO64.
  pose proof (load8_range m a). pose proof (load8_range m (a + 1)).
  pose proof (load8_range m (a + 2)). pose proof (load8_range m (a + 3)).
  pose proof (load8_range m (a + 4)). pose proof (load8_range m (a + 5)).
  pose proof (load8_range m (a + 6)). pose proof (load8_range m (a + 7)).
  lia.
Qed.

Lemma load64_agree (m m' : memory) (a : Z) :
  (forall x, a <= x < a + 8 -> m' x = m x) -> load64 m' a = load64 m a.
Proof.
  intros H. unfold load64, load8.
  rewrite (H a), (H (a + 1)), (H (a + 2)), (H (a + 3)), (H (a + 4)),
    (H (a + 5)), (H (a + 6)), (H (a + 7)) by lia.
  reflexivity.
Qed.

Lemma store64_out (m : memory) (a v x : Z) :
  x < a \/ a + 8 <= x -> store64 m a v x = m x.
Proof.
  intros H. unfold store64.
  destruct (a <=? x) eqn:E1; destruct (x <? a + 8) eqn:E2; simpl; try reflexivity.
  apply Z.leb_le in E1. apply Z.ltb_lt in E2. lia.
Qed.

Lemma store64_in (m : memory) (a v k : Z) :
  0 <= k < 8 -> store64 m a v (a + k) = (v / 2 ^ (8 * k)) mod 256.
Proof.
  intros H. unfold store64.
  replace (a + k - a) with k by lia.
  destruct (a <=? a + k) eqn:E1; destruct (a + k <? a + 8) eqn:E2; simpl;
    try reflexivity.
  - apply Z.ltb_ge in E2. lia.
  - apply Z.leb_gt in E1. lia.
  - apply Z.leb_gt in E1. lia.
Qed.

Lemma bytes_recompose (v : Z) :
  v mod 256
  + (v / 2 ^ 8) mod 256 * 2 ^ 8
  + (v / 2 ^ 16) mod 256 * 2 ^ 16
  + (v / 2 ^ 24) mod 256 * 2 ^ 24
  + (v / 2 ^ 32) mod 256 * 2 ^ 32
  + (v / 2 ^ 40) mod 256 * 2 ^ 40
  + (v / 2 ^ 48) mod 256 * 2 ^ 48
  + (v / 2 ^ 56) mod 256 * 2 ^ 56 = v mod 2 ^ 64.
Proof.
  Z.to_euclidean_division_equations. lia.
Qed.

Lemma load64_store64_same (m : memory) (a v : Z) :
  load64 (store64 m a v) a = wrap v.
Proof.
  unfold load64, load8, wrap, TWO64.
  assert (E0 : store64 m a v a = v mod 256).
  { pose proof (store64_in m a v 0) as H. rewrite Z.add_0_r in H.
    rewrite H by lia. change (2 ^ (8 * 0)) with 1. now rewrite Z.div_1_r. }
  rewrite E0, !store64_in by lia.
  rewrite !Z.mod_mod by lia.
  apply bytes_recompose.
Qed.

Lemma load64_store64_other (m : memory) (a v b : Z) :
  a + 8 <= b \/ b + 8 <= a -> load64 (store64 m a v) b = load64 m b.
Proof.
  intros H. apply load64_agree. intros x Hx. apply store64_out. lia.
Qed.

Lemma load64_store8_other (m : memory) (a v b : Z) :
  a < b \/ b + 8 <= a -> load64 (store8 m a v) b = load64 m b.
Proof.
  intros H. apply load64_agree. intros x Hx. unfold store8.
  destruct (x =? a) eqn:E; [apply Z.eqb_eq in E; lia | reflexivity].
Qed.

(** ** Boundary tags *)

Lemma mask_eq : wrap (Z.lnot 15) = TWO64 - 16.
Proof. reflexivity. Qed.

Lemma land_mask (v : Z) :
  0 <= v < TWO64 -> Z.land v (TWO64 - 16) = v - v mod 16.
Proof.
  intros H.
  assert (E : Z.land v (TWO64 - 16) = Z.ldiff (Z.land v (Z.ones 64)) (Z.ones 4)).
  { apply Z.bits_inj'. intros n Hn.
    rewrite Z.ldiff_spec, !Z.land_spec.
    change (TWO64 - 16) with (Z.ldiff (Z.ones 64) (Z.ones 4)).
    rewrite Z.ldiff_spec. apply andb_assoc. }
  rewrite E, Z.land_ones by lia.
  rewrite Z.mod_small by (unfold TWO64 in H; lia).
  rewrite Z.ldiff_ones_r by lia.
  rewrite Z.shiftl_mul_pow2, Z.shiftr_div_pow2 by lia.
  change (2 ^ 4) with 16.
  Z.to_euclidean_division_equations. lia.
Qed.

Lemma get_size_from_val_eq (v : Z) :
  0 <= v < TWO64 -> get_size_from_val v = v - v mod 16.
Proof. intros H. unfold get_size_from_val. rewrite mask_eq. apply land_mask, H. Qed.

Lemma is_allocated_from_val_eq (v : Z) :
  is_allocated_from_val v = negb (v mod 2 =? 0).
Proof.
  unfold is_allocated_from_val.
  change 1 with (Z.ones 1). rewrite Z.land_ones by lia. reflexivity.
Qed.

Lemma lor_flag (size : Z) (a : bool) :
  0 <= size -> size mod 16 = 0 -> Z.lor size (Z.b2z a) = size + Z.b2z a.
Proof.
  intros H0 H16.
  assert (L : Z.land size (Z.b2z a) = 0).
  { destruct a; simpl; [| apply Z.land_0_r].
    change 1 with (Z.ones 1). rewrite Z.land_ones by lia.
    Z.to_euclidean_division_equations. lia. }
  rewrite <- Z.lxor_lor by exact L.
  symmetry. apply Z.add_nocarry_lxor. exact L.
Qed.

(** ** Pointer arithmetic inside the address space *)

Lemma next_field_eq (b : Z) : 0 <= b -> b + 32 <= TWO64 -> next_field b = b + 8.
Proof.
  intros H0 H1. unfold next_field, payload. apply wrap_small.
  rewrite TWO64_eq in *. lia.
Qed.

Lemma prev_field_eq (b : Z) : 0 <= b -> b + 32 <= TWO64 -> prev_field b = b + 16.
Proof.
  intros H0 H1. unfold prev_field, payload.
  rewrite (wrap_small (b + 8)) by (rewrite TWO64_eq in *; lia).
  rewrite wrap_small by (rewrite TWO64_eq in *; lia). lia.
Qed.

(** ** Lists of disjoint nodes *)

Lemma far_sym (x y : Z) : far x y -> far y x.
Proof. unfold far. lia. Qed.

Lemma spaced_range (l : list Z) (x : Z) :
  spaced l -> In x l -> 0 < x /\ x + 32 <= TWO64.
Proof.
  induction l as [|a l IH]; simpl; intros S I; [contradiction|].
  destruct S as (H0 & H1 & _ & S). destruct I as [<-|I]; auto.
Qed.

Lemma spaced_far (l : list Z) (x y : Z) :
  spaced l -> In x l -> In y l -> x = y \/ far x y.
Proof.
  induction l as [|a l IH]; simpl; intros S Ix Iy; [contradiction|].
  destruct S as (_ & _ & F & S).
  destruct Ix as [<-|Ix], Iy as [<-|Iy]; auto.
  right. apply far_sym. auto.
Qed.

Lemma spaced_NoDup (l : list Z) : spaced l -> NoDup l.
Proof.
  induction l as [|a l IH]; simpl; intros S; constructor.
  - destruct S as (_ & _ & F & _). intros I. apply F in I. unfold far in I. lia.
  - apply IH, S.
Qed.

Lemma spaced_alt (l : list Z) :
  spaced l <->
  NoDup l /\ (forall x, In x l -> 0 < x /\ x + 32 <= TWO64) /\
  (forall x y, In x l -> In y l -> x = y \/ far x y).
Proof.
  split.
  - intros S. split; [apply spaced_NoDup, S|]. split.
    + intros x. apply spaced_range, S.
    + intros x y. apply spaced_far, S.
  - induction l as [|a l IH]; simpl; [tauto|].
    intros (N & R & F). inversion N as [|? ? Na Nl]; subst.
    destruct (R a (or_introl eq_refl)) as [R0 R1].
    repeat split; auto.
    + intros x Ix. destruct (F a x (or_introl eq_refl) (or_intror Ix)) as [->|]; tauto.
    + apply IH. split; [assumption|]. split.
      * intros x Ix. apply R. auto.
      * intros x y Ix Iy. apply F; auto.
Qed.

Lemma spaced_perm (l l' : list Z) : Permutation l l' -> spaced l -> spaced l'.
Proof.
  intros P S. apply spaced_alt in S. destruct S as (N & R & F).
  apply spaced_alt. repeat split.
  - eapply Permutation_NoDup; eauto.
  - apply R. eapply Permutation_in; [apply Permutation_sym|]; eauto.
  - apply R. eapply Permutation_in; [apply Permutation_sym|]; eauto.
  - intros x y Ix Iy. apply F; eapply Permutation_in; try eassumption;
      apply Permutation_sym; assumption.
Qed.

Lemma spaced_app_l (l1 l2 : list Z) : spaced (l1 ++ l2) -> spaced l1.
Proof.
  induction l1 as [|a l1 IH]; simpl; [tauto|].
  intros (H0 & H1 & F & S). repeat split; auto.
  intros x Ix. apply F, in_or_app. auto.
Qed.

Lemma spaced_app_r (l1 l2 : list Z) : spaced (l1 ++ l2) -> spaced l2.
Proof.
  induction l1 as [|a l1 IH]; simpl; [tauto|]. intros (_ & _ & _ & S). auto.
Qed.

Lemma spaced_remove (b : Z) (l : list Z) : spaced l -> spaced (remove_addr b l).
Proof.
  induction l as [|a l IH]; simpl; [tauto|].
  intros (H0 & H1 & F & S).
  destruct (a =? b); simpl; auto.
  repeat split; auto.
  intros x Ix. apply F. unfold remove_addr in Ix. apply filter_In in Ix. tauto.
Qed.

Lemma remove_addr_notin (b : Z) (l : list Z) : ~ In b l -> remove_addr b l = l.
Proof.
  induction l as [|a l IH]; simpl; intros N; [reflexivity|].
  destruct (a =? b) eqn:E.
  - apply Z.eqb_eq in E. tauto.
  - simpl. f_equal. apply IH. tauto.
Qed.

Lemma remove_addr_middle (b : Z) (l1 l2 : list Z) :
  NoDup (l1 ++ b :: l2) -> remove_addr b (l1 ++ b :: l2) = l1 ++ l2.
Proof.
  intros N. apply NoDup_remove_2 in N.
  unfold remove_addr. rewrite filter_app. simpl. rewrite Z.eqb_refl. simpl.
  fold (remove_addr b l1). fold (remove_addr b l2).
  rewrite !remove_addr_notin; auto; intros I; apply N, in_or_app; auto.
Qed.

(** ** The doubly-linked list in memory *)

Lemma last_cons_default (a : Z) (l : list Z) (d : Z) : last (a :: l) d = last l a.
Proof.
  revert a d. induction l as [|b l IH]; intros a d; [reflexivity|].
  change (last (a :: b :: l) d) with (last (b :: l) d).
  rewrite (IH b d), (IH b a). reflexivity.
Qed.

Lemma dll_frame (m m' : memory) (l : list Z) (p c q : Z) :
  dll m p c l q ->
  (forall a x, In a l -> a + 8 <= x < a + 24 -> m' x = m x) ->
  dll m' p c l q.
Proof.
  revert p c. induction l as [|a l IH]; simpl; intros p c D A; [exact D|].
  destruct D as (-> & N & P & D).
  assert (E16 : load64 m' (a + 16) = load64 m (a + 16)).
  { apply load64_agree. intros x Hx. apply (A a); auto. lia. }
  assert (E8 : load64 m' (a + 8) = load64 m (a + 8)).
  { apply load64_agree. intros x Hx. apply (A a); auto. lia. }
  rewrite E16, E8. repeat split; auto.
  apply IH; auto. intros b x Ib. apply A. auto.
Qed.

Lemma dll_store_far (m : memory) (l : list Z) (p c q x v : Z) :
  dll m p c l q ->
  (forall a, In a l -> x + 8 <= a + 8 \/ a + 24 <= x) ->
  dll (store64 m x v) p c l q.
Proof.
  intros D F. eapply dll_frame; [exact D|].
  intros a y Ia Hy. apply store64_out. specialize (F a Ia). lia.
Qed.

Lemma dll_app (m : memory) (l1 l2 : list Z) (p c q : Z) :
  dll m p c (l1 ++ l2) q <->
  exists mid, dll m p c l1 mid /\ dll m (last l1 p) mid l2 q.
Proof.
  revert p c. induction l1 as [|a l1 IH]; intros p c.
  - simpl. split.
    + intros D. exists c. auto.
    + intros (mid & -> & D). exact D.
  - rewrite last_cons_default. simpl. split.
    + intros (-> & N & P & D). apply IH in D. destruct D as (mid & D1 & D2).
      exists mid. repeat split; auto.
    + intros (mid & (-> & N & P & D1) & D2). repeat split; auto.
      apply IH. exists mid. auto.
Qed.

Lemma dll_nonnull (m : memory) (l : list Z) (p c q a : Z) :
  dll m p c l q -> In a l -> a <> NULL.
Proof.
  revert p c. induction l as [|b l IH]; simpl; intros p c D I; [contradiction|].
  destruct D as (_ & N & _ & D). destruct I as [<-|I]; eauto.
Qed.

Lemma dll_hd (m : memory) (l : list Z) (p c q : Z) :
  dll m p c l q -> c = hd q l.
Proof. destruct l; simpl; intros D; [exact D | apply D]. Qed.

Lemma last_in (l : list Z) (d : Z) : l <> [] -> In (last l d) l.
Proof.
  induction l as [|a l IH]; intros N; [congruence|].
  destruct l as [|b l]; [left; reflexivity|].
  right. apply IH. discriminate.
Qed.

(** Overwriting the [next] field of the last node of a segment redirects
    the segment's exit. *)
Lemma dll_set_last (m : memory) (l : list Z) (p c q v : Z) :
  dll m p c l q -> l <> [] -> spaced l -> 0 <= v < TWO64 ->
  dll (store64 m (last l p + 8) v) p c l v.
Proof.
  revert p c. induction l as [|a l IH]; intros p c D N S V; [congruence|].
  rewrite last_cons_default.
  simpl in D. destruct D as (-> & Na & P & D).
  simpl in S. destruct S as (R0 & R1 & F & S).
  destruct l as [|b l].
  - simpl in *. subst. repeat split; auto.
    + rewrite load64_store64_other by lia. reflexivity.
    + rewrite load64_store64_same. apply wrap_small, V.
  - assert (Il : In (last (b :: l) a) (b :: l)) by (apply last_in; discriminate).
    pose proof (F _ Il) as Fl. unfold far in Fl.
    pose proof (IH a (load64 m (a + 8)) D ltac:(discriminate) S V) as D'.
    remember (last (b :: l) a) as z eqn:Ez. clear Ez.
    remember (b :: l) as l' eqn:El. clear El.
    simpl. split; [reflexivity|]. split; [assumption|]. split.
    + rewrite load64_store64_other by lia. exact P.
    + rewrite (load64_store64_other m _ v (a + 8)) by lia. exact D'.
Qed.

(** Overwriting the [prev] field of the first node of a segment. *)
Lemma dll_set_first (m : memory) (a : Z) (l : list Z) (p c q v : Z) :
  dll m p c (a :: l) q -> spaced (a :: l) -> 0 <= v < TWO64 ->
  dll (store64 m (a + 16) v) v c (a :: l) q.
Proof.
  simpl. intros (-> & Na & P & D) (R0 & R1 & F & S) V.
  repeat split; auto.
  - rewrite load64_store64_same. apply wrap_small, V.
  - rewrite load64_store64_other by lia.
    apply dll_store_far; auto.
    intros x Ix. specialize (F x Ix). unfold far in F. lia.
Qed.

(** [block_append] on a well-formed list. *)
Lemma dll_push (m : memory) (h b : Z) (l : list Z) :
  dll m NULL h l NULL -> spaced (b :: l) ->
  dll (push_mem m h b) NULL b (b :: l) NULL.
Proof.
  intros D S. pose proof S as (R0 & R1 & F & S').
  unfold push_mem. simpl.
  split; [reflexivity|]. split; [lia|]. split.
  { rewrite load64_store64_same. reflexivity. }
  rewrite load64_store64_other by lia.
  destruct l as [|a l].
  - simpl in D. subst h. simpl. rewrite load64_store64_same. reflexivity.
  - simpl in D. destruct D as (-> & Na & P & D).
    pose proof (F a (or_introl eq_refl)) as Fa. unfold far in Fa.
    destruct S' as (Ra0 & Ra1 & F' & S'').
    assert (E : (a =? 0) = false) by (apply Z.eqb_neq; exact Na).
    rewrite E. simpl.
    rewrite load64_store64_other by lia. rewrite load64_store64_same.
    rewrite wrap_small by lia.
    split; [reflexivity|]. split; [assumption|]. split.
    { rewrite load64_store64_other by lia. rewrite load64_store64_same.
      apply wrap_small. lia. }
    rewrite !load64_store64_other by lia.
    repeat apply dll_store_far; auto;
      intros x Ix; pose proof (F x (or_intror Ix)) as Fx;
      pose proof (F' x Ix) as Fx'; unfold far in *; lia.
Qed.

(** ** Geometry of the block sequence *)

Lemma tiles_le (m : memory) (bs : list blk) (a e : Z) : tiles m a bs e -> a <= e.
Proof.
  revert a. induction bs as [|b bs IH]; simpl; intros a T; [lia|].
  destruct T as (_ & S & _ & _ & _ & T). apply IH in T. lia.
Qed.

Lemma tiles_app (m : memory) (l1 l2 : list blk) (a e : Z) :
  tiles m a (l1 ++ l2) e <-> exists c, tiles m a l1 c /\ tiles m c l2 e.
Proof.
  revert a. induction l1 as [|b l1 IH]; intros a; simpl.
  - split; [intros T; exists a; auto | intros (c & -> & T); exact T].
  - split.
    + intros (A & S & M & H & F & T). apply IH in T. destruct T as (c & T1 & T2).
      exists c. repeat split; auto.
    + intros (c & (A & S & M & H & F & T1) & T2). repeat split; auto.
      apply IH. exists c. auto.
Qed.

Lemma tiles_frame (m m' : memory) (bs : list blk) (a e : Z) :
  tiles m a bs e -> (forall x, a <= x < e -> m' x = m x) -> tiles m' a bs e.
Proof.
  revert a. induction bs as [|b bs IH]; simpl; intros a T A; [exact T|].
  destruct T as (Ab & S & M & H & F & T). pose proof (tiles_le _ _ _ _ T) as L.
  repeat split; auto.
  - rewrite <- H. apply load64_agree. intros x Hx. apply A. lia.
  - rewrite <- F. apply load64_agree. intros x Hx. apply A. lia.
  - apply IH; auto. intros x Hx. apply A. lia.
Qed.

Lemma tiles_in (m : memory) (bs : list blk) (a e : Z) (b : blk) :
  tiles m a bs e -> In b bs ->
  a <= b_addr b /\ b_addr b + b_size b <= e /\ 32 <= b_size b /\
  b_size b mod 16 = 0 /\
  load64 m (b_addr b) = tag (b_size b) (b_alloc b) /\
  load64 m (b_addr b + b_size b - 8) = tag (b_size b) (b_alloc b).
Proof.
  revert a. induction bs as [|b0 bs IH]; simpl; intros a T I; [contradiction|].
  destruct T as (Ab & S & M & H & F & T). pose proof (tiles_le _ _ _ _ T) as L.
  destruct I as [->|I].
  - subst a. repeat split; auto; lia.
  - destruct (IH _ T I) as (I1 & I2 & I3). repeat split; try tauto; lia.
Qed.

Lemma tiles_split (m : memory) (bs : list blk) (a e : Z) (b : blk) :
  tiles m a bs e -> In b bs ->
  exists l1 l2, bs = l1 ++ b :: l2 /\
                tiles m a l1 (b_addr b) /\
                tiles m (b_addr b + b_size b) l2 e.
Proof.
  intros T I. destruct (in_split _ _ I) as (l1 & l2 & ->).
  exists l1, l2. split; [reflexivity|].
  apply tiles_app in T. destruct T as (c & T1 & T2).
  simpl in T2. destruct T2 as (<- & _ & _ & _ & _ & T2). auto.
Qed.

Lemma tiles_addr_inj (m : memory) (bs : list blk) (a e : Z) (b b' : blk) :
  tiles m a bs e -> In b bs -> In b' bs -> b_addr b = b_addr b' -> b = b'.
Proof.
  intros T I I' E.
  destruct (tiles_split _ _ _ _ _ T I) as (l1 & l2 & -> & T1 & T2).
  pose proof (tiles_in _ _ _ _ _ T I) as (_ & _ & Sb & _).
  apply in_app_or in I'. destruct I' as [I'|[I'|I']]; auto.
  - pose proof (tiles_in _ _ _ _ _ T1 I') as (_ & X & Y & _). lia.
  - pose proof (tiles_in _ _ _ _ _ T2 I') as (X & _). lia.
Qed.

Lemma tiles_far (m : memory) (bs : list blk) (a e : Z) (b b' : blk) :
  tiles m a bs e -> In b bs -> In b' bs ->
  b = b' \/ b_addr b + b_size b <= b_addr b' \/ b_addr b' + b_size b' <= b_addr b.
Proof.
  intros T I I'.
  destruct (tiles_split _ _ _ _ _ T I) as (l1 & l2 & -> & T1 & T2).
  apply in_app_or in I'. destruct I' as [I'|[I'|I']]; auto.
  - pose proof (tiles_in _ _ _ _ _ T1 I') as (_ & X & Y & _). lia.
  - pose proof (tiles_in _ _ _ _ _ T2 I') as (X & _). lia.
Qed.

(** A change confined to the payload of one block leaves all tags intact. *)
Lemma tiles_payload_frame (m m' : memory) (bs : list blk) (a e : Z) (b : blk) :
  tiles m a bs e -> In b bs ->
  (forall x, x < b_addr b + 8 \/ b_addr b + b_size b - 8 <= x -> m' x = m x) ->
  tiles m' a bs e.
Proof.
  intros T I A.
  destruct (tiles_split _ _ _ _ _ T I) as (l1 & l2 & -> & T1 & T2).
  pose proof (tiles_in _ _ _ _ _ T I) as (_ & _ & S & M & H & F).
  pose proof (tiles_le _ _ _ _ T1). pose proof (tiles_le _ _ _ _ T2).
  apply tiles_app. exists (b_addr b). split.
  - eapply tiles_frame; [exact T1|]. intros x Hx. apply A. lia.
  - simpl. repeat split; auto.
    + rewrite <- H. apply load64_agree. intros x Hx. apply A. lia.
    + rewrite <- F. apply load64_agree. intros x Hx. apply A. lia.
    + eapply tiles_frame; [exact T2|]. intros x Hx. apply A. lia.
Qed.

Lemma in_free_addrs (bs : list blk) (a : Z) :
  In a (free_addrs bs) <-> exists b, In b bs /\ b_addr b = a /\ b_alloc b = false.
Proof.
  unfold free_addrs. rewrite in_map_iff. split.
  - intros (b & E & I). apply filter_In in I. destruct I as (I & F).
    exists b. unfold is_free in F. destruct (b_alloc b); simpl in F; try discriminate. auto.
  - intros (b & I & E & F). exists b. split; auto. apply filter_In. split; auto.
    unfold is_free. rewrite F. reflexivity.
Qed.

Lemma free_addrs_app (l1 l2 : list blk) :
  free_addrs (l1 ++ l2) = free_addrs l1 ++ free_addrs l2.
Proof. unfold free_addrs. rewrite filter_app, map_app. reflexivity. Qed.

Lemma free_addrs_spaced (m : memory) (bs : list blk) (a e : Z) :
  tiles m a bs e -> 0 < a -> e <= TWO64 -> spaced (free_addrs bs).
Proof.
  revert a. induction bs as [|b bs IH]; simpl; intros a T A E; [exact I|].
  destruct T as (Ab & S & M & H & F & T). pose proof (tiles_le _ _ _ _ T) as L.
  assert (S' : spaced (free_addrs bs)) by (apply (IH _ T); lia).
  unfold free_addrs. simpl. destruct (is_free b); [|exact S'].
  simpl. fold (free_addrs bs). repeat split; auto; try lia.
  intros x Ix. apply in_free_addrs in Ix. destruct Ix as (b' & Ib' & <- & _).
  pose proof (tiles_in _ _ _ _ _ T Ib') as (X & _). unfold far. lia.
Qed.

Lemma spaced_app_far (l1 l2 : list Z) (x y : Z) :
  spaced (l1 ++ l2) -> In x l1 -> In y l2 -> far x y.
Proof.
  induction l1 as [|a l1 IH]; simpl; intros S Ix Iy; [contradiction|].
  destruct S as (_ & _ & F & S). destruct Ix as [<-|Ix]; auto.
  apply F, in_or_app. auto.
Qed.

Lemma hd_range (l : list Z) : spaced l -> 0 <= hd 0 l < TWO64.
Proof.
  destruct l as [|a l]; simpl; [rewrite TWO64_eq; lia|].
  intros (H0 & H1 & _). lia.
Qed.

(** Unlinking one node of a well-formed list. *)
Lemma dll_unlink (m : memory) (h b : Z) (l1 l2 : list Z) :
  dll m NULL h (l1 ++ b :: l2) NULL -> spaced (l1 ++ b :: l2) ->
  load64 m (b + 16) = last l1 NULL /\ load64 m (b + 8) = hd NULL l2 /\
  h = hd b l1 /\
  dll (unlink_mem m (last l1 NULL) (hd NULL l2)) NULL
      (if last l1 NULL =? NULL then hd NULL l2 else h) (l1 ++ l2) NULL.
Proof.
  intros D S.
  pose proof (spaced_app_l _ _ S) as S1.
  pose proof (spaced_app_r _ _ S) as S2b.
  pose proof S2b as (Rb0 & Rb1 & Fb & S2).
  apply dll_app in D. destruct D as (mid & D1 & D2).
  simpl in D2. destruct D2 as (-> & Nb & P & D2).
  pose proof (dll_hd _ _ _ _ _ D2) as Hn.
  pose proof (dll_hd _ _ _ _ _ D1) as Hh.
  rewrite Hn in D2.
  split; [exact P|]. split; [exact Hn|]. split; [exact Hh|].
  unfold unlink_mem.
  destruct l1 as [|a t1].
  - simpl in *. subst h.
    destruct l2 as [|n t]; simpl; [reflexivity|].
    pose proof (dll_nonnull _ _ _ _ _ _ D2 (or_introl eq_refl)) as Nn.
    assert (E : (n =? 0) = false) by (apply Z.eqb_neq; exact Nn). rewrite E.
    apply (dll_set_first m n t b n 0 0 D2 S2). rewrite TWO64_eq. lia.
  - set (l1 := a :: t1) in *.
    assert (Ip : In (last l1 0) l1) by (apply last_in; discriminate).
    pose proof (dll_nonnull _ _ _ _ _ _ D1 Ip) as Np.
    pose proof (spaced_range _ _ S1 Ip) as Rp.
    assert (E : (last l1 0 =? 0) = false) by (apply Z.eqb_neq; exact Np).
    rewrite E.
    pose proof (hd_range _ S2) as Rn.
    pose proof (dll_set_last m l1 0 h b (hd 0 l2) D1 ltac:(discriminate) S1 Rn) as D1'.
    destruct l2 as [|n t].
    + simpl. rewrite app_nil_r. exact D1'.
    + simpl hd in *.
      pose proof (dll_nonnull _ _ _ _ _ _ D2 (or_introl eq_refl)) as Nn.
      assert (En : (n =? 0) = false) by (apply Z.eqb_neq; exact Nn). rewrite En.
      apply dll_app. exists n. split.
      * apply dll_store_far; [exact D1'|].
        intros x Ix.
        assert (Fx : far x n).
        { apply (spaced_app_far l1 (b :: n :: t)); auto. right. left. reflexivity. }
        unfold far in Fx. lia.
      * eapply dll_set_first; [| exact S2 | lia].
        apply dll_store_far; [exact D2|].
        intros x Ix.
        assert (Fx : far (last l1 0) x).
        { apply (spaced_app_far l1 (b :: n :: t)); auto. right. exact Ix. }
        unfold far in Fx. lia.
Qed.

(** ** The list primitives on states *)

Lemma get_next_eq (b : Z) (s : state) :
  0 <= b -> b + 32 <= TWO64 -> get_next b s = load64 (mem s) (b + 8).
Proof. intros. unfold get_next. rewrite next_field_eq; auto. Qed.

Lemma get_prev_eq (b : Z) (s : state) :
  0 <= b -> b + 32 <= TWO64 -> get_prev b s = load64 (mem s) (b + 16).
Proof. intros. unfold get_prev. rewrite prev_field_eq; auto. Qed.

Lemma block_append_eq (b : Z) (s : state) :
  0 <= b -> b + 32 <= TWO64 ->
  (mm_free_head s <> NULL -> 0 <= mm_free_head s /\ mm_free_head s + 32 <= TWO64) ->
  block_append b s =
  mkState (push_mem (mem s) (mm_free_head s) b) (mm_heap_first s)
          (mm_heap_last s) b (arena_lo s) (arena_brk s) (arena_max s).
Proof.
  intros B0 B1 H. unfold block_append, push_mem, set_next, set_prev.
  rewrite (next_field_eq b), (prev_field_eq b) by assumption.
  simpl. destruct (mm_free_head s =? 0) eqn:E; simpl.
  - reflexivity.
  - apply Z.eqb_neq in E. destruct (H E). rewrite prev_field_eq by assumption.
    reflexivity.
Qed.

Lemma direct_unlink_eq (b : Z) (s : state) :
  0 <= b -> b + 32 <= TWO64 ->
  let prev := load64 (mem s) (b + 16) in
  let next := load64 (mem s) (b + 8) in
  (prev <> NULL -> prev + 32 <= TWO64) ->
  (next <> NULL -> next + 32 <= TWO64) ->
  direct_unlink b s =
  mkState (unlink_mem (mem s) prev next) (mm_heap_first s) (mm_heap_last s)
          (if prev =? NULL then next else mm_free_head s)
          (arena_lo s) (arena_brk s) (arena_max s).
Proof.
  intros B0 B1 prev next Hp Hn. unfold direct_unlink, unlink_mem.
  rewrite get_next_eq, get_prev_eq by assumption. fold prev next.
  pose proof (load64_range (mem s) (b + 16)) as Rp. fold prev in Rp.
  pose proof (load64_range (mem s) (b + 8)) as Rn. fold next in Rn.
  destruct (prev =? 0) eqn:Ep; destruct (next =? 0) eqn:En;
    unfold set_next, set_prev, set_free_head, set_mem; simpl;
    try (apply Z.eqb_neq in Ep; specialize (Hp Ep));
    try (apply Z.eqb_neq in En; specialize (Hn En));
    rewrite ?(next_field_eq prev), ?(prev_field_eq next) by lia;
    reflexivity.
Qed.

(** On a well-formed list, [block_remove] returns normally and performs
    exactly the direct unlink. *)
Lemma block_remove_unlink (s : state) (b : Z) (l1 l2 : list Z) :
  dll (mem s) NULL (mm_free_head s) (l1 ++ b :: l2) NULL ->
  spaced (l1 ++ b :: l2) ->
  block_remove b s = Ok tt (direct_unlink b s).
Proof.
  intros D S.
  pose proof (dll_unlink _ _ _ _ _ D S) as (P & N & H & _).
  pose proof (spaced_range _ b S ltac:(apply in_or_app; right; left; reflexivity))
    as (B0 & B1).
  pose proof (spaced_app_l _ _ S) as S1.
  pose proof (spaced_app_r _ _ S) as S2b. pose proof S2b as (_ & _ & _ & S2).
  unfold block_remove, bind, gets, modify, assert, ret.
  unfold direct_unlink.
  rewrite (get_next_eq b), (get_prev_eq b) by lia.
  destruct l1 as [|a t1].
  - simpl in H, P. rewrite H, P.
    rewrite (get_next_eq b) by lia.
    destruct l2 as [|n t]; simpl in N; rewrite N.
    + change (0 =? 0) with true. cbv beta iota. rewrite H, Z.eqb_refl. reflexivity.
    + assert (Nn : n <> 0).
      { eapply dll_nonnull; [exact D|]. right. left. reflexivity. }
      assert (En : (n =? 0) = false) by (apply Z.eqb_neq; exact Nn).
      rewrite En. change (0 =? 0) with true. cbv beta iota.
      rewrite H, Z.eqb_refl. cbv beta iota.
      rewrite (get_next_eq b) by lia. rewrite N. reflexivity.
  - simpl in H. rewrite H.
    simpl in D. destruct D as (_ & Na & _ & D).
    pose proof (dll_hd _ _ _ _ _ D) as Hn.
    pose proof (spaced_range _ a S (or_introl eq_refl)) as (A0 & A1).
    rewrite (get_next_eq a) by lia. rewrite Hn.
    assert (Nx : hd 0 (t1 ++ b :: l2) <> 0).
    { destruct t1 as [|x t1]; simpl.
      - eapply dll_nonnull; [exact D|]. left. reflexivity.
      - eapply dll_nonnull; [exact D|]. left. reflexivity. }
    assert (Ex : (hd 0 (t1 ++ b :: l2) =? 0) = false) by (apply Z.eqb_neq; exact Nx).
    rewrite Ex. cbv beta iota. rewrite H.
    assert (Fab : far a b).
    { simpl in S. destruct S as (_ & _ & F & _). apply F, in_or_app.
      right. left. reflexivity. }
    assert (Eb : (b =? a) = false) by (apply Z.eqb_neq; unfold far in Fab; lia).
    rewrite Eb. cbv beta iota.
    rewrite (get_next_eq b), (get_prev_eq b) by lia. rewrite P, N.
    assert (Ip : In (last (a :: t1) 0) (a :: t1)) by (apply last_in; discriminate).
    pose proof (spaced_range _ _ S1 Ip) as Rp.
    assert (Ep : (last (a :: t1) 0 =? 0) = false) by (apply Z.eqb_neq; lia).
    rewrite Ep.
    destruct (hd 0 l2 =? 0); reflexivity.
Qed.

(** ** Facts read off [heap_ok] *)

Lemma hok_range (s : state) (bs : list blk) (fl out : list Z) :
  heap_ok s bs fl out ->
  0 < arena_lo s /\ arena_lo s + 24 <= mm_heap_last s /\
  mm_heap_last s + 16 <= TWO64.
Proof.
  intros [L F B (M1 & M2) T D P]. pose proof (tiles_le _ _ _ _ T). lia.
Qed.

Lemma hok_spaced (s : state) (bs : list blk) (fl out : list Z) :
  heap_ok s bs fl out -> spaced (out ++ fl).
Proof.
  intros H. pose proof (hok_range _ _ _ _ H) as (R0 & R1 & R2).
  destruct H as [L F B M T D P].
  eapply spaced_perm; [apply Permutation_sym, P|].
  eapply free_addrs_spaced; [exact T| |]; lia.
Qed.

Lemma hok_node (s : state) (bs : list blk) (fl out : list Z) (a : Z) :
  heap_ok s bs fl out -> In a (out ++ fl) ->
  exists b, In b bs /\ b_addr b = a /\ b_alloc b = false.
Proof.
  intros H I. apply in_free_addrs. eapply Permutation_in; [apply H|exact I].
Qed.

Lemma keeps_refl (bs : list blk) (m : memory) : keeps bs m m.
Proof. intros b x _ _ _. reflexivity. Qed.

Lemma keeps_trans (bs : list blk) (m1 m2 m3 : memory) :
  keeps bs m1 m2 -> keeps bs m2 m3 -> keeps bs m1 m3.
Proof.
  intros K1 K2 b x I A R. rewrite (K2 b x I A R). apply (K1 b x I A R).
Qed.

(** Writing a link field of a free block disturbs neither the tags nor the
    allocated blocks. *)
Lemma link_store_ok (m : memory) (bs : list blk) (a0 e a x v : Z) :
  tiles m a0 bs e -> In a (free_addrs bs) -> a + 8 <= x <= a + 16 ->
  tiles (store64 m x v) a0 bs e /\ keeps bs m (store64 m x v).
Proof.
  intros T I X. apply in_free_addrs in I. destruct I as (b & Ib & <- & Fb).
  pose proof (tiles_in _ _ _ _ _ T Ib) as (_ & _ & S & _).
  split.
  - eapply tiles_payload_frame; [exact T|exact Ib|].
    intros y Hy. apply store64_out. lia.
  - intros b' y Ib' Ab' Hy. apply store64_out.
    destruct (tiles_far _ _ _ _ _ _ T Ib Ib') as [->|F]; [congruence|].
    pose proof (tiles_in _ _ _ _ _ T Ib') as (_ & _ & S' & _). lia.
Qed.

Lemma push_mem_ok (m : memory) (bs : list blk) (a0 e h b : Z) :
  tiles m a0 bs e -> In b (free_addrs bs) ->
  (h <> NULL -> In h (free_addrs bs)) ->
  tiles (push_mem m h b) a0 bs e /\ keeps bs m (push_mem m h b).
Proof.
  intros T Ib Ih. unfold push_mem.
  destruct (link_store_ok m bs a0 e b (b + 8) h T Ib ltac:(lia)) as (T1 & K1).
  assert (X : tiles (if negb (h =? 0) then store64 (store64 m (b + 8) h) (h + 16) b
                     else store64 m (b + 8) h) a0 bs e /\
              keeps bs m (if negb (h =? 0) then store64 (store64 m (b + 8) h) (h + 16) b
                          else store64 m (b + 8) h)).
  { destruct (h =? 0) eqn:E; simpl; [auto|].
    apply Z.eqb_neq in E.
    destruct (link_store_ok _ bs a0 e h (h + 16) b T1 (Ih E) ltac:(lia)) as (T2 & K2).
    split; [exact T2|]. eapply keeps_trans; eauto. }
  destruct X as (T2 & K2).
  destruct (link_store_ok _ bs a0 e b (b + 16) 0 T2 Ib ltac:(lia)) as (T3 & K3).
  split; [exact T3|]. eapply keeps_trans; eauto.
Qed.

Lemma unlink_mem_ok (m : memory) (bs : list blk) (a0 e p n : Z) :
  tiles m a0 bs e ->
  (p <> NULL -> In p (free_addrs bs)) -> (n <> NULL -> In n (free_addrs bs)) ->
  tiles (unlink_mem m p n) a0 bs e /\ keeps bs m (unlink_mem m p n).
Proof.
  intros T Ip In'. unfold unlink_mem.
  assert (X : tiles (if p =? 0 then m else store64 m (p + 8) n) a0 bs e /\
              keeps bs m (if p =? 0 then m else store64 m (p + 8) n)).
  { destruct (p =? 0) eqn:E; [split; [exact T|apply keeps_refl]|].
    apply Z.eqb_neq in E. apply (link_store_ok m bs a0 e p (p + 8) n); auto. lia. }
  destruct X as (T1 & K1).
  destruct (n =? 0) eqn:E; [auto|].
  apply Z.eqb_neq in E.
  destruct (link_store_ok _ bs a0 e n (n + 16) p T1 (In' E) ltac:(lia)) as (T2 & K2).
  split; [exact T2|]. eapply keeps_trans; eauto.
Qed.

Lemma perm_remove_addr (b : Z) (l : list Z) :
  NoDup l -> In b l -> Permutation (b :: remove_addr b l) l.
Proof.
  intros N I. destruct (in_split _ _ I) as (l1 & l2 & ->).
  rewrite remove_addr_middle by exact N. apply Permutation_middle.
Qed.

(** ** [block_append] and [block_remove] on a well-formed heap *)

Lemma block_append_ok (s : state) (bs : list blk) (fl out : list Z) (b : Z) :
  heap_ok s bs fl out -> In b out ->
  heap_ok (block_append b s) bs (b :: fl) (remove_addr b out) /\
  keeps bs (mem s) (mem (block_append b s)) /\
  same_frame s (block_append b s).
Proof.
  intros H Ib.
  pose proof (hok_spaced _ _ _ _ H) as S.
  pose proof (spaced_range _ b S ltac:(apply in_or_app; auto)) as (B0 & B1).
  assert (Hh : mm_free_head s <> 0 -> In (mm_free_head s) fl).
  { intros Nh. pose proof (dll_hd _ _ _ _ _ (ok_dll _ _ _ _ H)) as E.
    destruct fl as [|a fl]; simpl in E; [congruence|]. left. auto. }
  rewrite block_append_eq; try lia.
  2:{ intros Nh. pose proof (spaced_range _ _ S ltac:(apply in_or_app; right; apply Hh, Nh)).
      lia. }
  assert (Pb : Permutation (b :: remove_addr b out) out).
  { apply perm_remove_addr; auto. eapply spaced_NoDup, spaced_app_l, S. }
  assert (Ifb : In b (free_addrs bs)).
  { eapply Permutation_in; [apply H|]. apply in_or_app. auto. }
  destruct (push_mem_ok (mem s) bs (arena_lo s + 24) (mm_heap_last s)
              (mm_free_head s) b (ok_tiles _ _ _ _ H) Ifb) as (T & K).
  { intros Nh. eapply Permutation_in; [apply H|]. apply in_or_app. auto. }
  split; [|split; [exact K | repeat split]].
  destruct H as [L F B M T0 D P].
  constructor; simpl; auto.
  - apply dll_push; [exact D|].
    simpl. repeat split; try lia.
    + intros x Ix. apply (spaced_app_far out fl); auto.
    + eapply spaced_app_r, S.
  - eapply Permutation_trans; [|exact P].
    eapply Permutation_trans; [apply Permutation_sym, Permutation_middle|].
    apply (Permutation_app_tail fl Pb).
Qed.

Lemma block_remove_ok (s : state) (bs : list blk) (fl out : list Z) (b : Z) :
  heap_ok s bs fl out -> In b fl ->
  block_remove b s = Ok tt (direct_unlink b s) /\
  heap_ok (direct_unlink b s) bs (remove_addr b fl) (b :: out) /\
  keeps bs (mem s) (mem (direct_unlink b s)) /\
  same_frame s (direct_unlink b s).
Proof.
  intros H Ib.
  pose proof (hok_spaced _ _ _ _ H) as S.
  pose proof (spaced_app_r _ _ S) as Sf.
  destruct (in_split _ _ Ib) as (l1 & l2 & ->).
  pose proof (ok_dll _ _ _ _ H) as D.
  split; [apply (block_remove_unlink s b l1 l2 D Sf)|].
  pose proof (dll_unlink _ _ _ _ _ D Sf) as (P & N & Hh & D').
  pose proof (spaced_range _ b Sf ltac:(apply in_or_app; right; left; reflexivity))
    as (B0 & B1).
  assert (Ip : last l1 0 <> 0 -> In (last l1 0) (l1 ++ b :: l2)).
  { intros Np. apply in_or_app. left. apply last_in. intros ->. simpl in Np. lia. }
  assert (In' : hd 0 l2 <> 0 -> In (hd 0 l2) (l1 ++ b :: l2)).
  { intros Nn. apply in_or_app. right. right.
    destruct l2; simpl in *; [lia|auto]. }
  rewrite direct_unlink_eq; try lia.
  2:{ rewrite P. intros Np. pose proof (spaced_range _ _ Sf (Ip Np)). lia. }
  2:{ rewrite N. intros Nn. pose proof (spaced_range _ _ Sf (In' Nn)). lia. }
  rewrite P, N.
  assert (Ff : forall x, In x (l1 ++ b :: l2) -> In x (free_addrs bs)).
  { intros x Ix. eapply Permutation_in; [apply H|]. apply in_or_app. auto. }
  destruct (unlink_mem_ok (mem s) bs (arena_lo s + 24) (mm_heap_last s)
              (last l1 0) (hd 0 l2) (ok_tiles _ _ _ _ H)) as (T & K); auto.
  split; [|split; [exact K | repeat split]].
  rewrite remove_addr_middle by (apply spaced_NoDup, Sf).
  destruct H as [L F B M T0 D0 P0].
  constructor; simpl; auto.
  eapply Permutation_trans; [|exact P0].
  eapply Permutation_trans; [apply Permutation_middle|].
  apply Permutation_app_head. apply Permutation_middle.
Qed.

(** ** Writing and reading boundary tags *)

Lemma tag_range (sz : Z) (f : bool) :
  0 <= sz -> sz mod 16 = 0 -> sz < TWO64 -> 0 <= tag sz f < TWO64.
Proof.
  intros H0 H16 H1. unfold tag. rewrite TWO64_eq in *.
  destruct f; simpl; Z.to_euclidean_division_equations; lia.
Qed.

Lemma get_size_tag (sz : Z) (f : bool) :
  0 <= sz -> sz mod 16 = 0 -> sz < TWO64 -> get_size_from_val (tag sz f) = sz.
Proof.
  intros H0 H16 H1. rewrite get_size_from_val_eq by (apply tag_range; auto).
  unfold tag. destruct f; simpl; Z.to_euclidean_division_equations; lia.
Qed.

Lemma is_allocated_tag (sz : Z) (f : bool) :
  sz mod 16 = 0 -> is_allocated_from_val (tag sz f) = f.
Proof.
  intros H16. rewrite is_allocated_from_val_eq. unfold tag.
  destruct f; simpl.
  - destruct ((sz + 1) mod 2 =? 0) eqn:E; [|reflexivity].
    apply Z.eqb_eq in E. Z.to_euclidean_division_equations. lia.
  - destruct ((sz + 0) mod 2 =? 0) eqn:E; [reflexivity|].
    apply Z.eqb_neq in E. Z.to_euclidean_division_equations. lia.
Qed.

Lemma write_tag_eq (b sz : Z) (f : bool) (s : state) :
  0 < b -> 16 <= sz -> sz mod 16 = 0 -> b + sz <= TWO64 ->
  set_footer b (set_header b sz f s) =
  set_mem (store64 (store64 (mem s) b (tag sz f)) (b + sz - 8) (tag sz f)) s.
Proof.
  intros B0 S0 S16 B1.
  assert (Hsz : sz < TWO64) by lia.
  unfold set_footer, set_header, get_size. simpl.
  rewrite lor_flag by (auto; lia). fold (tag sz f).
  rewrite load64_store64_same.
  rewrite (wrap_small (tag sz f)) by (apply tag_range; auto; lia).
  rewrite get_size_tag by (auto; lia).
  unfold incr_pointer.
  rewrite (wrap_small (sz - 8)) by lia.
  rewrite wrap_small by lia.
  replace (b + (sz - 8)) with (b + sz - 8) by lia.
  reflexivity.
Qed.

Lemma tiles_one (m : memory) (b sz : Z) (f : bool) :
  32 <= sz -> sz mod 16 = 0 -> sz < TWO64 ->
  tiles (store64 (store64 m b (tag sz f)) (b + sz - 8) (tag sz f))
        b [Blk b sz f] (b + sz).
Proof.
  intros S0 S16 S1. simpl.
  pose proof (tag_range sz f ltac:(lia) S16 S1) as R.
  repeat split; auto.
  - rewrite load64_store64_other by lia. rewrite load64_store64_same.
    apply wrap_small, R.
  - rewrite load64_store64_same. apply wrap_small, R.
Qed.

Lemma get_size_blk (s : state) (bs : list blk) (a e : Z) (b : blk) :
  tiles (mem s) a bs e -> 0 < a -> e <= TWO64 -> In b bs ->
  get_size (b_addr b) s = b_size b.
Proof.
  intros T A E I. pose proof (tiles_in _ _ _ _ _ T I) as (X & Y & S & M & H & _).
  unfold get_size. rewrite H. apply get_size_tag; auto; lia.
Qed.

Lemma is_allocated_blk (s : state) (bs : list blk) (a e : Z) (b : blk) :
  tiles (mem s) a bs e -> In b bs -> is_allocated (b_addr b) s = b_alloc b.
Proof.
  intros T I. pose proof (tiles_in _ _ _ _ _ T I) as (X & Y & S & M & H & _).
  unfold is_allocated. rewrite H. apply is_allocated_tag; auto.
Qed.

(** ** Rewriting a stretch of the block sequence *)

Lemma retile (s s' : state) (l1 mid mid' l2 : list blk) (fl out out' : list Z)
      (x y : Z) :
  heap_ok s (l1 ++ mid ++ l2) fl out ->
  tiles (mem s) (arena_lo s + 24) l1 x ->
  tiles (mem s) y l2 (mm_heap_last s) ->
  x <= y ->
  (forall a, In a fl -> ~ In a (free_addrs mid)) ->
  tiles (mem s') x mid' y ->
  (forall z, z < x \/ y <= z -> mem s' z = mem s z) ->
  same_frame s s' -> mm_free_head s' = mm_free_head s ->
  Permutation (out' ++ fl) (free_addrs (l1 ++ mid' ++ l2)) ->
  heap_ok s' (l1 ++ mid' ++ l2) fl out' /\ keeps (l1 ++ l2) (mem s) (mem s').
Proof.
  intros H T1 T2 XY Nmid Tm A (F1 & F2 & F3 & F4 & F5) Fh P'.
  pose proof (tiles_le _ _ _ _ T1) as L1. pose proof (tiles_le _ _ _ _ T2) as L2.
  split.
  - destruct H as [L F B M T D P].
    constructor.
    + rewrite F3. exact L.
    + rewrite F1, F3. exact F.
    + rewrite F4, F2. exact B.
    + rewrite F4, F5. exact M.
    + rewrite F3, F2. apply tiles_app. exists x. split.
      * eapply tiles_frame; [exact T1|]. intros z Hz. apply A. lia.
      * apply tiles_app. exists y. split; [exact Tm|].
        eapply tiles_frame; [exact T2|]. intros z Hz. apply A. lia.
    + rewrite Fh. eapply dll_frame; [exact D|].
      intros a z Ia Hz. apply A.
      assert (Ia' : In a (free_addrs (l1 ++ mid ++ l2))).
      { eapply Permutation_in; [exact P|]. apply in_or_app. auto. }
      rewrite !free_addrs_app in Ia'.
      apply in_app_or in Ia'. destruct Ia' as [Ia'|Ia'].
      * apply in_free_addrs in Ia'. destruct Ia' as (b & Ib & <- & _).
        pose proof (tiles_in _ _ _ _ _ T1 Ib). lia.
      * apply in_app_or in Ia'. destruct Ia' as [Ia'|Ia'].
        { exfalso. eapply Nmid; eauto. }
        apply in_free_addrs in Ia'. destruct Ia' as (b & Ib & <- & _).
        pose proof (tiles_in _ _ _ _ _ T2 Ib). lia.
    + exact P'.
  - intros b z Ib Ab Hz. apply A.
    apply in_app_or in Ib. destruct Ib as [Ib|Ib].
    + pose proof (tiles_in _ _ _ _ _ T1 Ib). lia.
    + pose proof (tiles_in _ _ _ _ _ T2 Ib). lia.
Qed.

(** Overwriting a stretch [mid] of the sequence with a single block. *)
Lemma write_block_ok (s : state) (l1 mid l2 : list blk) (fl out out' : list Z)
      (x sz : Z) (f : bool) :
  heap_ok s (l1 ++ mid ++ l2) fl out ->
  tiles (mem s) (arena_lo s + 24) l1 x ->
  tiles (mem s) (x + sz) l2 (mm_heap_last s) ->
  32 <= sz -> sz mod 16 = 0 ->
  (forall a, In a fl -> ~ In a (free_addrs mid)) ->
  Permutation (out' ++ fl) (free_addrs (l1 ++ [Blk x sz f] ++ l2)) ->
  let s' := set_footer x (set_header x sz f s) in
  heap_ok s' (l1 ++ Blk x sz f :: l2) fl out' /\
  keeps (l1 ++ l2) (mem s) (mem s') /\
  same_frame s s' /\ mm_free_head s' = mm_free_head s.
Proof.
  intros H T1 T2 S0 S16 Nmid P' s'.
  pose proof (hok_range _ _ _ _ H) as (R0 & R1 & R2).
  pose proof (tiles_le _ _ _ _ T1) as L1. pose proof (tiles_le _ _ _ _ T2) as L2.
  assert (E : s' = set_mem (store64 (store64 (mem s) x (tag sz f)) (x + sz - 8)
                              (tag sz f)) s).
  { unfold s'. apply write_tag_eq; lia. }
  rewrite E. clear E s'.
  set (s' := set_mem (store64 (store64 (mem s) x (tag sz f)) (x + sz - 8)
                        (tag sz f)) s).
  assert (SF : same_frame s s') by (repeat split).
  destruct (retile s s' l1 mid [Blk x sz f] l2 fl out out' x (x + sz) H T1 T2)
    as (H' & K); auto; try lia.
  - simpl mem. apply tiles_one; auto. lia.
  - intros z Hz. simpl mem. rewrite !store64_out by lia. reflexivity.
Qed.

Lemma incr_pointer_eq (n p : Z) : 0 <= p + n < TWO64 -> incr_pointer n p = p + n.
Proof. intros H. unfold incr_pointer. apply wrap_small, H. Qed.

Lemma decr_pointer_eq (n p : Z) : 0 <= p - n < TWO64 -> decr_pointer n p = p - n.
Proof. intros H. unfold decr_pointer. apply wrap_small, H. Qed.

Lemma same_frame_refl (s : state) : same_frame s s.
Proof. repeat split. Qed.

Lemma same_frame_trans (s1 s2 s3 : state) :
  same_frame s1 s2 -> same_frame s2 s3 -> same_frame s1 s3.
Proof. unfold same_frame. intuition congruence. Qed.

Lemma keeps_incl (bs bs' : list blk) (m m' : memory) :
  (forall b, In b bs' -> b_alloc b = true -> In b bs) ->
  keeps bs m m' -> keeps bs' m m'.
Proof. intros I K b x Ib A R. apply (K b x); auto. Qed.


(** ** Coalescing *)

Lemma coalesce_left_none (s : state) (l1 l2 : list blk) (B : blk) (fl out : list Z) :
  heap_ok s (l1 ++ B :: l2) fl out ->
  (l1 = [] \/ exists l1' L, l1 = l1' ++ [L] /\ b_alloc L = true) ->
  coalesce_left (b_addr B) s = Ok (b_addr B) s.
Proof.
  intros H C.
  pose proof (hok_range _ _ _ _ H) as (R0 & R1 & R2).
  pose proof (ok_tiles _ _ _ _ H) as T.
  pose proof (tiles_in _ _ _ _ _ T ltac:(apply in_or_app; right; left; reflexivity))
    as (X & Y & S & _).
  unfold coalesce_left. mrun.
  rewrite (ok_first _ _ _ _ H).
  rewrite decr_pointer_eq, incr_pointer_eq by lia.
  destruct C as [->|(l1' & L & -> & AL)].
  - simpl in T. destruct T as (E & _). rewrite E.
    replace (arena_lo s + 24 - 8) with (arena_lo s + 8 + 8) by lia.
    rewrite Z.eqb_refl. reflexivity.
  - rewrite <- app_assoc in T. simpl in T.
    apply tiles_app in T. destruct T as (xL & T1 & T2).
    simpl in T2. destruct T2 as (EL & SL & ML & HL & FL & EB & _).
    pose proof (tiles_le _ _ _ _ T1) as L1.
    assert (Ne : (b_addr B - 8 =? arena_lo s + 8 + 8) = false)
      by (apply Z.eqb_neq; lia).
    rewrite Ne. mstep.
    replace (b_addr B - 8) with (xL + b_size L - 8) by lia.
    rewrite FL. rewrite get_size_tag by (auto; lia).
    rewrite decr_pointer_eq by lia.
    replace (b_addr B - b_size L) with xL by lia.
    unfold is_allocated. rewrite HL, is_allocated_tag by auto.
    rewrite AL. reflexivity.
Qed.

Lemma free_addrs_cons_free (b : blk) (bs : list blk) :
  b_alloc b = false -> free_addrs (b :: bs) = b_addr b :: free_addrs bs.
Proof. intros F. unfold free_addrs, is_free. simpl. rewrite F. reflexivity. Qed.

Lemma free_addrs_cons_alloc (b : blk) (bs : list blk) :
  b_alloc b = true -> free_addrs (b :: bs) = free_addrs bs.
Proof. intros F. unfold free_addrs, is_free. simpl. rewrite F. reflexivity. Qed.

Lemma in_remove_addr (b x : Z) (l : list Z) :
  In x (remove_addr b l) <-> In x l /\ x <> b.
Proof.
  unfold remove_addr. rewrite filter_In. split; intros (I & N); split; auto.
  - intros ->. rewrite Z.eqb_refl in N. discriminate.
  - apply Z.eqb_neq in N. rewrite N. reflexivity.
Qed.

Lemma coalesce_left_merge (s : state) (l1 l2 : list blk) (L B : blk) (fl : list Z) :
  heap_ok s (l1 ++ L :: B :: l2) fl [] ->
  b_alloc L = false -> b_alloc B = false ->
  exists s',
    coalesce_left (b_addr B) s = Ok (b_addr L) s' /\
    heap_ok s' (l1 ++ Blk (b_addr L) (b_size L + b_size B) false :: l2)
            (b_addr L :: remove_addr (b_addr L) (remove_addr (b_addr B) fl)) [] /\
    keeps (l1 ++ l2) (mem s) (mem s') /\ same_frame s s'.
Proof.
  intros H AL AB.
  pose proof (hok_range _ _ _ _ H) as (R0 & R1 & R2).
  pose proof (ok_tiles _ _ _ _ H) as T.
  apply tiles_app in T. destruct T as (xL & T1 & T2).
  simpl in T2. destruct T2 as (EL & SL & ML & HL & FL & EB & SB & MB & HB & FB & T3).
  subst xL.
  pose proof (tiles_le _ _ _ _ T1) as L1. pose proof (tiles_le _ _ _ _ T3) as L3.
  assert (IB : In (b_addr B) fl).
  { eapply Permutation_in; [apply Permutation_sym, (ok_perm _ _ _ _ H)|].
    apply in_free_addrs. exists B. split; auto. apply in_or_app. right. right. left. auto. }
  assert (IL : In (b_addr L) fl).
  { eapply Permutation_in; [apply Permutation_sym, (ok_perm _ _ _ _ H)|].
    apply in_free_addrs. exists L. split; auto. apply in_or_app. right. left. auto. }
  (* the two unlinks *)
  destruct (block_remove_ok s _ fl [] (b_addr B) H IB) as (E1 & H1 & K1 & F1).
  remember (direct_unlink (b_addr B) s) as s1 eqn:Es1. clear Es1.
  assert (IL1 : In (b_addr L) (remove_addr (b_addr B) fl)).
  { apply in_remove_addr. split; auto. lia. }
  destruct (block_remove_ok s1 _ _ _ (b_addr L) H1 IL1) as (E2 & H2 & K2 & F2).
  remember (direct_unlink (b_addr L) s1) as s2 eqn:Es2. clear Es2.
  set (fl2 := remove_addr (b_addr L) (remove_addr (b_addr B) fl)) in *.
  pose proof (same_frame_trans _ _ _ F1 F2) as F12.
  pose proof F12 as (G1 & G2 & G3 & G4 & G5).
  pose proof (ok_tiles _ _ _ _ H2) as T'.
  assert (GB : get_size (b_addr B) s2 = b_size B).
  { eapply get_size_blk; [exact T'| | |]; try lia.
    apply in_or_app. right. right. left. auto. }
  assert (GL : get_size (b_addr L) s2 = b_size L).
  { eapply get_size_blk; [exact T'| | |]; try lia.
    apply in_or_app. right. left. auto. }
  apply tiles_app in T'. destruct T' as (xL' & T1' & T2').
  simpl in T2'. destruct T2' as (EL' & _ & _ & _ & _ & _ & _ & _ & _ & _ & T3').
  subst xL'.
  (* the merged tag *)
  destruct (write_block_ok s2 l1 [L; B] l2 fl2 [b_addr L; b_addr B] [b_addr L]
              (b_addr L) (b_size B + b_size L) false) as (H4 & K4 & F4 & Fh4).
  { exact H2. }
  { exact T1'. }
  { replace (b_addr L + (b_size B + b_size L)) with (b_addr L + b_size L + b_size B) by lia.
    exact T3'. }
  { lia. }
  { clear - MB ML. Z.to_euclidean_division_equations. lia. }
  { intros a Ia. unfold fl2 in Ia. apply in_remove_addr in Ia. destruct Ia as (Ia & NaL).
    apply in_remove_addr in Ia. destruct Ia as (Ia & NaB).
    rewrite free_addrs_cons_free, free_addrs_cons_free by auto. simpl. intuition. }
  { pose proof (ok_perm _ _ _ _ H2) as P2.
    rewrite !free_addrs_app in *. simpl app in *.
    rewrite free_addrs_cons_free in * by auto.
    rewrite (free_addrs_cons_free B) in P2 by auto.
    apply (Permutation_cons_inv (a := b_addr B)).
    eapply Permutation_trans; [apply perm_swap|].
    eapply Permutation_trans; [exact P2|].
    eapply Permutation_trans; [apply Permutation_app_head, perm_swap|].
    apply Permutation_sym, Permutation_middle. }
  remember (set_footer (b_addr L) (set_header (b_addr L) (b_size B + b_size L) false s2)) as s4 eqn:Es4.
  destruct (block_append_ok s4 _ fl2 [b_addr L] (b_addr L) H4 (or_introl eq_refl))
    as (H5 & K5 & F5).
  exists (block_append (b_addr L) s4). split; [|split; [|split]].
  - unfold coalesce_left. mrun.
    rewrite (ok_first _ _ _ _ H).
    rewrite decr_pointer_eq, incr_pointer_eq by lia.
    assert (Ne : (b_addr B - 8 =? arena_lo s + 8 + 8) = false)
      by (apply Z.eqb_neq; lia).
    rewrite Ne. mstep.
    replace (b_addr B - 8) with (b_addr L + b_size L - 8) by lia.
    rewrite FL. rewrite get_size_tag by (auto; lia).
    rewrite decr_pointer_eq by lia.
    replace (b_addr B - b_size L) with (b_addr L) by lia.
    unfold is_allocated. rewrite HL, is_allocated_tag by auto.
    rewrite AL. mstep.
    rewrite E1. mstep. rewrite E2. mstep.
    rewrite GB, GL. rewrite wrap_small by lia. rewrite Es4. reflexivity.
  - simpl remove_addr in H5. rewrite Z.eqb_refl in H5. simpl in H5.
    replace (b_size L + b_size B) with (b_size B + b_size L) by lia. exact H5.
  - eapply keeps_trans; [|eapply keeps_trans].
    + eapply keeps_trans.
      * eapply keeps_incl; [|exact K1]. intros b Ib _.
        apply in_app_or in Ib. apply in_or_app. simpl. tauto.
      * eapply keeps_incl; [|exact K2]. intros b Ib _.
        apply in_app_or in Ib. apply in_or_app. simpl. tauto.
    + exact K4.
    + eapply keeps_incl; [|exact K5]. intros b Ib _.
      apply in_app_or in Ib. apply in_or_app. simpl. tauto.
  - eapply same_frame_trans; [exact F12|]. eapply same_frame_trans; eauto.
Qed.

(** ** Lists without neighbouring free blocks *)

Lemma naf_cons2 (a b : blk) (l : list blk) :
  no_adjacent_free (a :: b :: l) =
  (b_alloc a || b_alloc b) && no_adjacent_free (b :: l).
Proof. reflexivity. Qed.

Lemma naf_cons (b : blk) (bs : list blk) :
  no_adjacent_free (b :: bs) = true -> no_adjacent_free bs = true.
Proof.
  destruct bs as [|b' bs]; [reflexivity|].
  rewrite naf_cons2. intros H. apply andb_prop in H. apply H.
Qed.

Lemma naf_app_r (l1 l2 : list blk) :
  no_adjacent_free (l1 ++ l2) = true -> no_adjacent_free l2 = true.
Proof.
  induction l1 as [|a l1 IH]; [auto|].
  intros H. apply IH. eapply naf_cons. exact H.
Qed.

Lemma naf_app_l (l1 l2 : list blk) :
  no_adjacent_free (l1 ++ l2) = true -> no_adjacent_free l1 = true.
Proof.
  induction l1 as [|a l1 IH]; [reflexivity|].
  intros H. pose proof (IH (naf_cons _ _ H)) as H1.
  destruct l1 as [|b l1]; [reflexivity|].
  simpl app in H. rewrite naf_cons2 in *. apply andb_prop in H. destruct H as (H & _).
  rewrite H, H1. reflexivity.
Qed.

Lemma naf_join (l1 l2 : list blk) (x y : blk) :
  no_adjacent_free (l1 ++ [x]) = true -> no_adjacent_free (y :: l2) = true ->
  b_alloc x || b_alloc y = true ->
  no_adjacent_free (l1 ++ x :: y :: l2) = true.
Proof.
  intros H1 H2 A. induction l1 as [|a l1 IH].
  - simpl app. rewrite naf_cons2, A, H2. reflexivity.
  - pose proof (IH (naf_cons _ _ H1)) as IH'.
    destruct l1 as [|b l1].
    + simpl app in *. rewrite naf_cons2 in H1. rewrite naf_cons2, IH'.
      apply andb_prop in H1. destruct H1 as (-> & _). reflexivity.
    + simpl app in *. rewrite naf_cons2 in H1. apply andb_prop in H1.
      destruct H1 as (Hab & _). rewrite naf_cons2, Hab, IH'. reflexivity.
Qed.

Lemma merge_step_naf (b : blk) (r : list blk) :
  no_adjacent_free r = true -> no_adjacent_free (merge_step b r) = true.
Proof.
  intros H. unfold merge_step. destruct r as [|b' r']; [reflexivity|].
  destruct (is_free b && is_free b') eqn:E.
  - apply andb_prop in E. destruct E as (_ & Fb').
    destruct r' as [|c r'']; [reflexivity|].
    rewrite naf_cons2 in *. apply andb_prop in H. destruct H as (H1 & H2).
    unfold is_free in Fb'. destruct (b_alloc b'); [discriminate|].
    cbn [b_alloc]. rewrite H1, H2. reflexivity.
  - rewrite naf_cons2, H. unfold is_free in E.
    destruct (b_alloc b), (b_alloc b'); simpl in *; auto.
Qed.

Lemma merge_free_naf (bs : list blk) : no_adjacent_free (merge_free bs) = true.
Proof.
  induction bs as [|b bs IH]; [reflexivity|].
  unfold merge_free. simpl. apply merge_step_naf, IH.
Qed.

Lemma merge_step_keep (b b' : blk) (r : list blk) :
  b_alloc b || b_alloc b' = true -> merge_step b (b' :: r) = b :: b' :: r.
Proof.
  intros H. unfold merge_step, is_free.
  destruct (b_alloc b), (b_alloc b'); simpl in *; try reflexivity; discriminate.
Qed.

Lemma merge_free_id (bs : list blk) :
  no_adjacent_free bs = true -> merge_free bs = bs.
Proof.
  induction bs as [|b bs IH]; [reflexivity|].
  intros H. unfold merge_free. simpl. fold (merge_free bs).
  rewrite (IH (naf_cons _ _ H)).
  destruct bs as [|b' bs]; [reflexivity|].
  rewrite naf_cons2 in H. apply andb_prop in H. destruct H as (H & _).
  apply merge_step_keep, H.
Qed.

Lemma merge_free_app (l1 l2 : list blk) :
  merge_free (l1 ++ l2) = fold_right merge_step (merge_free l2) l1.
Proof. unfold merge_free. apply fold_right_app. Qed.

(** Folding a merge-free prefix onto a non-empty right part whose first
    block cannot merge with the last block of the prefix. *)
Lemma fold_merge_keep (l1 : list blk) (h : blk) (r : list blk) :
  no_adjacent_free (l1 ++ [h]) = true ->
  fold_right merge_step (h :: r) l1 = l1 ++ h :: r.
Proof.
  induction l1 as [|c t IH]; intros N; [reflexivity|].
  cbn [fold_right]. simpl app. rewrite (IH (naf_cons _ _ N)).
  destruct t as [|d t]; simpl app in *; rewrite naf_cons2 in N;
    apply andb_prop in N; destruct N as (N & _); apply merge_step_keep, N.
Qed.

(** Folding a merge-free prefix onto a right part that starts with a free
    block: only the last block of the prefix can merge. *)
Lemma fold_merge_prefix (l1 : list blk) (X : blk) (r : list blk) :
  no_adjacent_free l1 = true -> b_alloc X = false ->
  fold_right merge_step (X :: r) l1 =
  match rev l1 with
  | L :: p =>
      if b_alloc L then l1 ++ X :: r
      else rev p ++ Blk (b_addr L) (b_size L + b_size X) false :: r
  | [] => X :: r
  end.
Proof.
  intros N FX. destruct l1 as [|a0 t0] using rev_ind; [reflexivity|].
  clear IHt0. rename a0 into a, t0 into t.
  rewrite rev_unit. rewrite fold_right_app. cbn [fold_right].
  destruct (b_alloc a) eqn:Ea.
  - rewrite merge_step_keep by (rewrite Ea; reflexivity).
    rewrite <- app_assoc. simpl app.
    apply fold_merge_keep. exact N.
  - rewrite rev_involutive.
    assert (E : merge_step a (X :: r) =
                Blk (b_addr a) (b_size a + b_size X) false :: r).
    { unfold merge_step, is_free. rewrite FX, Ea. reflexivity. }
    rewrite E.
    apply fold_merge_keep.
    clear - N Ea. induction t as [|c t IH]; [reflexivity|].
    pose proof (IH (naf_cons _ _ N)) as IH'.
    destruct t as [|d t]; simpl app in *; rewrite naf_cons2 in *.
    + rewrite Ea in N. simpl. exact N.
    + apply andb_prop in N. destruct N as (N & _). rewrite N, IH'. reflexivity.
Qed.

Lemma coalesce_right_ok (s0 : state) (b0 : Z) (s : state) (l1 l2 : list blk)
      (X : blk) (fl : list Z) :
  coalesce_left b0 s0 = Ok (b_addr X) s ->
  heap_ok s (l1 ++ X :: l2) fl [] -> b_alloc X = false ->
  exists s' fl',
    coalesce b0 s0 = Ok tt s' /\
    heap_ok s' (l1 ++ merge_step X l2) fl' [] /\
    keeps (l1 ++ l2) (mem s) (mem s') /\ same_frame s s'.
Proof.
  intros EL H AX.
  pose proof (hok_range _ _ _ _ H) as (R0 & R1 & R2).
  pose proof (ok_tiles _ _ _ _ H) as T.
  assert (IX : In X (l1 ++ X :: l2)) by (apply in_or_app; right; left; reflexivity).
  pose proof (tiles_in _ _ _ _ _ T IX) as (X0 & X1 & SX & _).
  assert (GX : get_size (b_addr X) s = b_size X)
    by (eapply get_size_blk; [exact T| | |exact IX]; lia).
  unfold coalesce. mrun. rewrite EL. mstep. rewrite GX.
  rewrite incr_pointer_eq by lia.
  apply tiles_app in T. destruct T as (x & T1 & T2).
  simpl in T2. destruct T2 as (EX & _ & _ & _ & _ & T3). subst x.
  destruct l2 as [|R l2'].
  - simpl in T3. rewrite T3, Z.eqb_refl. mstep.
    exists s, fl. split; [reflexivity|]. split; [exact H|].
    split; [apply keeps_refl | apply same_frame_refl].
  - pose proof T3 as (ER & SR & MR & HR & _ & T4).
    pose proof (tiles_le _ _ _ _ T4) as L4.
    assert (Ne : (b_addr X + b_size X =? mm_heap_last s) = false)
      by (apply Z.eqb_neq; lia).
    rewrite Ne. mstep.
    unfold is_allocated at 1. rewrite HR, is_allocated_tag by auto.
    destruct (b_alloc R) eqn:AR; mstep.
    + exists s, fl. split; [reflexivity|].
      rewrite merge_step_keep by (rewrite AR; apply orb_true_r).
      split; [exact H|]. split; [apply keeps_refl | apply same_frame_refl].
    + destruct (coalesce_left_merge s l1 l2' X R fl H AX AR)
        as (s' & E' & H' & K' & F').
      rewrite <- ER, E'. mstep.
      exists s', (b_addr X :: remove_addr (b_addr X) (remove_addr (b_addr R) fl)).
      split; [reflexivity|].
      assert (EM : merge_step X (R :: l2') =
                   Blk (b_addr X) (b_size X + b_size R) false :: l2').
      { unfold merge_step, is_free. rewrite AX, AR. reflexivity. }
      rewrite EM. split; [exact H'|]. split; [|exact F'].
      eapply keeps_incl; [|exact K']. intros b Ib Ab.
      apply in_app_or in Ib. apply in_or_app.
      destruct Ib as [Ib|[<-|Ib]]; auto. congruence.
Qed.

Lemma merge_step_head (B : blk) (l2 : list blk) :
  b_alloc B = false ->
  exists X r, merge_step B l2 = X :: r /\ b_alloc X = false.
Proof.
  intros F. unfold merge_step. destruct l2 as [|R l2']; [exists B, []; auto|].
  destruct (is_free B && is_free R); eauto.
Qed.

(** [coalesce] on a freed block whose surroundings are merge-free. *)
Lemma coalesce_ok (s : state) (l1 l2 : list blk) (B : blk) (fl : list Z) :
  heap_ok s (l1 ++ B :: l2) fl [] -> b_alloc B = false ->
  no_adjacent_free l1 = true -> no_adjacent_free l2 = true ->
  exists s' fl',
    coalesce (b_addr B) s = Ok tt s' /\
    heap_ok s' (merge_free (l1 ++ B :: l2)) fl' [] /\
    keeps (l1 ++ l2) (mem s) (mem s') /\ same_frame s s'.
Proof.
  intros H AB N1 N2.
  rewrite merge_free_app. unfold merge_free at 1. cbn [fold_right].
  fold (merge_free l2). rewrite (merge_free_id l2 N2).
  destruct (merge_step_head B l2 AB) as (X & r & EX & AX).
  rewrite EX, (fold_merge_prefix l1 X r N1 AX). rewrite <- EX.
  destruct l1 as [|L t] using rev_ind.
  - simpl rev. cbv iota.
    pose proof (coalesce_left_none s [] l2 B fl [] H (or_introl eq_refl)) as E.
    destruct (coalesce_right_ok s (b_addr B) s [] l2 B fl E H AB)
      as (s' & fl' & E' & H' & K' & F').
    exists s', fl'. auto.
  - clear IHt. rewrite rev_unit.
    destruct (b_alloc L) eqn:AL.
    + assert (E : coalesce_left (b_addr B) s = Ok (b_addr B) s).
      { eapply coalesce_left_none; [exact H|]. right. exists t, L. auto. }
      destruct (coalesce_right_ok s (b_addr B) s (t ++ [L]) l2 B fl E H AB)
        as (s' & fl' & E' & H' & K' & F').
      exists s', fl'. auto.
    + rewrite rev_involutive. rewrite <- app_assoc in H. simpl app in H.
      destruct (coalesce_left_merge s t l2 L B fl H AL AB) as (s1 & E1 & H1 & K1 & F1).
      set (M := Blk (b_addr L) (b_size L + b_size B) false) in *.
      destruct (coalesce_right_ok s (b_addr B) s1 t l2 M _ E1 H1 eq_refl)
        as (s' & fl' & E' & H' & K' & F').
      exists s', fl'. split; [exact E'|]. split; [|split].
      * assert (EM : merge_step M l2 =
                     Blk (b_addr L) (b_size L + b_size X) false :: r).
        { clear - EX AB. unfold merge_step in *. destruct l2 as [|R l2'].
          - inversion EX; subst. reflexivity.
          - unfold is_free in *. rewrite AB in EX. simpl in *.
            destruct (b_alloc R); simpl in *; inversion EX; subst; simpl.
            + reflexivity.
            + rewrite Z.add_assoc. reflexivity. }
        rewrite <- EM. exact H'.
      * eapply keeps_trans.
        -- eapply keeps_incl; [|exact K1]. intros b Ib Ab.
           apply in_app_or in Ib. apply in_or_app.
           destruct Ib as [Ib|Ib]; auto.
           apply in_app_or in Ib. destruct Ib as [Ib|[<-|[]]]; auto. congruence.
        -- eapply keeps_incl; [|exact K']. intros b Ib Ab.
           apply in_app_or in Ib. apply in_or_app.
           destruct Ib as [Ib|Ib]; auto.
           apply in_app_or in Ib. destruct Ib as [Ib|[<-|[]]]; auto. congruence.
      * eapply same_frame_trans; eauto.
Qed.

(** ** [free] *)

Lemma tiles_at (m : memory) (l1 l2 : list blk) (B : blk) (a e : Z) :
  tiles m a (l1 ++ B :: l2) e ->
  tiles m a l1 (b_addr B) /\ tiles m (b_addr B + b_size B) l2 e /\
  32 <= b_size B /\ b_size B mod 16 = 0 /\ a <= b_addr B /\
  b_addr B + b_size B <= e.
Proof.
  intros T. apply tiles_app in T. destruct T as (x & T1 & T2).
  simpl in T2. destruct T2 as (<- & S & M & _ & _ & T3).
  pose proof (tiles_le _ _ _ _ T1). pose proof (tiles_le _ _ _ _ T3).
  repeat split; auto.
Qed.

Lemma free_ok (s : state) (l1 l2 : list blk) (B : blk) (fl : list Z) :
  heap_ok s (l1 ++ B :: l2) fl [] -> b_alloc B = true ->
  no_adjacent_free (l1 ++ B :: l2) = true ->
  exists s' fl',
    free (b_addr B + 8) s = Ok tt s' /\
    heap_ok s' (merge_free (l1 ++ Blk (b_addr B) (b_size B) false :: l2)) fl' [] /\
    keeps (l1 ++ l2) (mem s) (mem s') /\ same_frame s s'.
Proof.
  intros H AB N.
  pose proof (hok_range _ _ _ _ H) as (R0 & R1 & R2).
  pose proof (ok_tiles _ _ _ _ H) as T.
  pose proof (tiles_at _ _ _ _ _ _ T) as (T1 & T2 & SB & MB & B0 & B1).
  assert (GB : get_size (b_addr B) s = b_size B).
  { eapply get_size_blk; [exact T| | |]; try lia.
    apply in_or_app. right. left. reflexivity. }
  destruct (write_block_ok s l1 [B] l2 fl [] [b_addr B] (b_addr B) (b_size B) false)
    as (H2 & K2 & F2 & Fh2); auto.
  { intros a _. rewrite free_addrs_cons_alloc by exact AB. intros []. }
  { pose proof (ok_perm _ _ _ _ H) as P. simpl app in P. simpl app.
    rewrite free_addrs_app in *. rewrite free_addrs_cons_alloc in P by exact AB.
    rewrite free_addrs_cons_free by reflexivity. simpl b_addr.
    apply Permutation_cons_app. exact P. }
  remember (set_footer (b_addr B) (set_header (b_addr B) (b_size B) false s)) as s2
    eqn:Es2.
  destruct (block_append_ok s2 _ fl [b_addr B] (b_addr B) H2 (or_introl eq_refl))
    as (H3 & K3 & F3).
  simpl remove_addr in H3. rewrite Z.eqb_refl in H3. simpl in H3.
  remember (block_append (b_addr B) s2) as s3 eqn:Es3.
  set (Bf := Blk (b_addr B) (b_size B) false) in *.
  destruct (coalesce_ok s3 l1 l2 Bf (b_addr B :: fl) H3 eq_refl
              (naf_app_l _ _ N) (naf_cons _ _ (naf_app_r _ _ N)))
    as (s' & fl' & E' & H' & K' & F').
  exists s', fl'. split; [|split; [exact H'|split]].
  - unfold free. mrun. rewrite (ok_first _ _ _ _ H).
    assert (E0 : (arena_lo s + 8 =? 0) = false) by (apply Z.eqb_neq; lia).
    rewrite E0. mstep.
    assert (E1 : (b_addr B + 8 =? 0) = false) by (apply Z.eqb_neq; lia).
    rewrite E1. mstep.
    rewrite decr_pointer_eq by lia.
    replace (b_addr B + 8 - 8) with (b_addr B) by lia.
    rewrite GB, <- Es2, <- Es3. exact E'.
  - eapply keeps_trans; [exact K2|]. eapply keeps_trans.
    + eapply keeps_incl; [|exact K3]. intros b Ib Ab.
      apply in_app_or in Ib. apply in_or_app. simpl. tauto.
    + exact K'.
  - eapply same_frame_trans; [exact F2|]. eapply same_frame_trans; eauto.
Qed.

(** ** Placement *)

Lemma take_whole_ok (s : state) (l1 l2 : list blk) (B : blk) (fl : list Z) :
  heap_ok s (l1 ++ B :: l2) fl [] -> b_alloc B = false ->
  exists s',
    take_whole (b_addr B) s = Ok (b_addr B) s' /\
    heap_ok s' (l1 ++ Blk (b_addr B) (b_size B) true :: l2)
            (remove_addr (b_addr B) fl) [] /\
    keeps (l1 ++ l2) (mem s) (mem s') /\ same_frame s s'.
Proof.
  intros H AB.
  pose proof (hok_range _ _ _ _ H) as (R0 & R1 & R2).
  assert (IB : In (b_addr B) fl).
  { eapply Permutation_in; [apply Permutation_sym, (ok_perm _ _ _ _ H)|].
    apply in_free_addrs. exists B. split; auto. apply in_or_app. right. left. auto. }
  destruct (block_remove_ok s _ fl [] (b_addr B) H IB) as (E1 & H1 & K1 & F1).
  remember (direct_unlink (b_addr B) s) as s1 eqn:Es1. clear Es1.
  pose proof F1 as (G1 & G2 & G3 & G4 & G5).
  pose proof (ok_tiles _ _ _ _ H1) as T.
  pose proof (tiles_at _ _ _ _ _ _ T) as (T1 & T2 & SB & MB & B0 & B1).
  assert (GB : get_size (b_addr B) s1 = b_size B).
  { eapply get_size_blk; [exact T| | |]; try lia.
    apply in_or_app. right. left. reflexivity. }
  destruct (write_block_ok s1 l1 [B] l2 (remove_addr (b_addr B) fl) [b_addr B] []
              (b_addr B) (b_size B) true) as (H2 & K2 & F2 & Fh2); auto.
  { intros a Ia. apply in_remove_addr in Ia.
    rewrite free_addrs_cons_free by exact AB. simpl. intuition. }
  { pose proof (ok_perm _ _ _ _ H1) as P. simpl app in P. simpl app.
    rewrite free_addrs_app in *. rewrite free_addrs_cons_free in P by exact AB.
    rewrite free_addrs_cons_alloc by reflexivity.
    eapply Permutation_cons_app_inv. exact P. }
  eexists. split; [|split; [exact H2|split]].
  - unfold take_whole. mrun. rewrite E1. mstep. rewrite GB. reflexivity.
  - eapply keeps_trans; [|exact K2].
    eapply keeps_incl; [|exact K1]. intros b Ib Ab.
    apply in_app_or in Ib. apply in_or_app. simpl. tauto.
  - eapply same_frame_trans; eauto.
Qed.

Lemma split_ok (s : state) (l1 l2 : list blk) (B : blk) (fl : list Z) (adj : Z) :
  heap_ok s (l1 ++ B :: l2) fl [] -> b_alloc B = false ->
  32 <= adj -> adj mod 16 = 0 -> adj + 32 <= b_size B ->
  exists s',
    split (b_addr B) adj s = Ok (b_addr B) s' /\
    heap_ok s' (l1 ++ Blk (b_addr B) adj true
                   :: Blk (b_addr B + adj) (b_size B - adj) false :: l2)
            ((b_addr B + adj) :: remove_addr (b_addr B) fl) [] /\
    keeps (l1 ++ l2) (mem s) (mem s') /\ same_frame s s'.
Proof.
  intros H AB A0 A16 AS.
  pose proof (hok_range _ _ _ _ H) as (R0 & R1 & R2).
  assert (IB : In (b_addr B) fl).
  { eapply Permutation_in; [apply Permutation_sym, (ok_perm _ _ _ _ H)|].
    apply in_free_addrs. exists B. split; auto. apply in_or_app. right. left. auto. }
  destruct (block_remove_ok s _ fl [] (b_addr B) H IB) as (E1 & H1 & K1 & F1).
  remember (direct_unlink (b_addr B) s) as s1 eqn:Es1. clear Es1.
  pose proof F1 as (G1 & G2 & G3 & G4 & G5).
  pose proof (ok_tiles _ _ _ _ H1) as T.
  pose proof (tiles_at _ _ _ _ _ _ T) as (T1 & T2 & SB & MB & B0 & B1).
  assert (GB : get_size (b_addr B) s1 = b_size B).
  { eapply get_size_blk; [exact T| | |]; try lia.
    apply in_or_app. right. left. reflexivity. }
  set (b := b_addr B) in *. set (c := b_size B) in *.
  assert (C16 : (c - adj) mod 16 = 0).
  { clear - MB A16. Z.to_euclidean_division_equations. lia. }
  set (m4 := store64 (store64 (store64 (store64 (mem s1) b (tag adj true))
                (b + adj - 8) (tag adj true))
                (b + adj) (tag (c - adj) false))
                (b + adj + (c - adj) - 8) (tag (c - adj) false)).
  assert (E4 : set_footer (b + adj) (set_header (b + adj) (c - adj) false
                 (set_footer b (set_header b adj true s1))) = set_mem m4 s1).
  { rewrite (write_tag_eq b adj true s1) by lia.
    rewrite write_tag_eq by (simpl; lia). reflexivity. }
  pose proof (tag_range adj true ltac:(lia) A16 ltac:(lia)) as Rt1.
  pose proof (tag_range (c - adj) false ltac:(lia) C16 ltac:(lia)) as Rt2.
  destruct (retile s1 (set_mem m4 s1) l1 [B] [Blk b adj true; Blk (b + adj) (c - adj) false]
              l2 (remove_addr b fl) [b] [b + adj] b (b + c) H1 T1 T2)
    as (H4 & K4).
  { lia. }
  { intros a Ia. apply in_remove_addr in Ia.
    rewrite free_addrs_cons_free by exact AB. simpl. intuition. }
  { simpl. unfold m4. repeat split; auto; try lia.
    - rewrite !load64_store64_other by lia. rewrite load64_store64_same.
      apply wrap_small, Rt1.
    - rewrite !load64_store64_other by lia. rewrite load64_store64_same.
      apply wrap_small, Rt1.
    - rewrite !load64_store64_other by lia. rewrite load64_store64_same.
      apply wrap_small, Rt2.
    - rewrite load64_store64_same. apply wrap_small, Rt2. }
  { intros z Hz. simpl. unfold m4. rewrite !store64_out by lia. reflexivity. }
  { repeat split. }
  { reflexivity. }
  { pose proof (ok_perm _ _ _ _ H1) as P. simpl app in P. simpl app.
    rewrite free_addrs_app in *. rewrite free_addrs_cons_free in P by exact AB.
    rewrite free_addrs_cons_alloc by reflexivity.
    rewrite free_addrs_cons_free by reflexivity. simpl b_addr.
    apply Permutation_cons_app. eapply Permutation_cons_app_inv. exact P. }
  remember (set_mem m4 s1) as s4 eqn:Es4.
  destruct (block_append_ok s4 _ _ [b + adj] (b + adj) H4 (or_introl eq_refl))
    as (H5 & K5 & F5).
  simpl remove_addr in H5. rewrite Z.eqb_refl in H5. simpl in H5.
  exists (block_append (b + adj) s4). split; [|split; [exact H5|split]].
  - unfold split. mrun. rewrite E1. mstep. rewrite GB.
    rewrite incr_pointer_eq by lia.
    rewrite (wrap_small (c - adj)) by lia.
    rewrite E4. reflexivity.
  - eapply keeps_trans; [|eapply keeps_trans].
    + eapply keeps_incl; [|exact K1]. intros x Ix Ax.
      apply in_app_or in Ix. apply in_or_app. simpl. tauto.
    + exact K4.
    + eapply keeps_incl; [|exact K5]. intros x Ix Ax.
      apply in_app_or in Ix. apply in_or_app. simpl. tauto.
  - eapply same_frame_trans; [exact F1|]. eapply same_frame_trans; [|exact F5].
    rewrite Es4. repeat split.
Qed.

(** The loop of [find_fit] stops at the first node that is large enough. *)
Lemma find_fit_loop_walk (s : state) (adj : Z) (l : list Z) (p : Z) (fuel : nat) :
  dll (mem s) p (hd NULL l) l NULL -> spaced l ->
  0 <= adj -> adj + 32 < TWO64 -> (length l <= fuel)%nat ->
  find_fit_loop fuel (hd NULL l) adj s =
  match find (fun a => adj <=? get_size a s) l with
  | None => Ok NULL s
  | Some a => if 32 + adj <=? get_size a s then split a adj s
              else take_whole a s
  end.
Proof.
  revert p fuel. induction l as [|a t IH]; intros p fuel D S A0 A1 Len.
  - simpl. destruct fuel; reflexivity.
  - destruct fuel as [|f]; [simpl in Len; lia|].
    simpl in D. destruct D as (_ & Na & _ & D).
    simpl in S. destruct S as (Ra0 & Ra1 & _ & S).
    cbn [hd find find_fit_loop].
    assert (E0 : (a =? 0) = false) by (apply Z.eqb_neq; exact Na).
    rewrite E0. mrun.
    rewrite (wrap_small (2 * 16 + adj)) by lia.
    replace (2 * 16 + adj) with (32 + adj) by lia.
    destruct (32 + adj <=? get_size a s) eqn:E1.
    + assert (E2 : (adj <=? get_size a s) = true).
      { apply Z.leb_le in E1. apply Z.leb_le. lia. }
      rewrite E2, E1. reflexivity.
    + destruct (adj <=? get_size a s) eqn:E2.
      * rewrite E1. reflexivity.
      * rewrite get_next_eq by lia.
        pose proof (dll_hd _ _ _ _ _ D) as Hn. rewrite Hn in *.
        apply (IH a f); auto. simpl in Len. lia.
Qed.

Lemma replace_blk_at (m : memory) (l1 l2 new : list blk) (B : blk) (a e : Z) :
  tiles m a (l1 ++ B :: l2) e ->
  replace_blk (b_addr B) new (l1 ++ B :: l2) = l1 ++ new ++ l2.
Proof.
  intros T.
  assert (N : forall l, (forall x, In x l -> In x (l1 ++ B :: l2) /\ x <> B) ->
                        replace_blk (b_addr B) new l = l).
  { induction l as [|x l IH]; intros Hl; [reflexivity|].
    unfold replace_blk in *. simpl.
    destruct (Hl x (or_introl eq_refl)) as (Ix & Nx).
    assert (E : (b_addr x =? b_addr B) = false).
    { apply Z.eqb_neq. intros E. apply Nx.
      eapply tiles_addr_inj; eauto. apply in_or_app. right. left. reflexivity. }
    rewrite E. simpl. f_equal. apply IH. intros y Iy. apply Hl. right. exact Iy. }
  pose proof (tiles_at _ _ _ _ _ _ T) as (T1 & T2 & SB & _).
  unfold replace_blk. rewrite flat_map_app. simpl. rewrite Z.eqb_refl.
  fold (replace_blk (b_addr B) new l1). fold (replace_blk (b_addr B) new l2).
  rewrite !N; auto.
  - intros x Ix. split; [apply in_or_app; right; right; exact Ix|].
    intros ->. pose proof (tiles_in _ _ _ _ _ T2 Ix). lia.
  - intros x Ix. split; [apply in_or_app; left; exact Ix|].
    intros ->. pose proof (tiles_in _ _ _ _ _ T1 Ix). lia.
Qed.

Lemma set_flag_at (m : memory) (l1 l2 : list blk) (B : blk) (a e : Z) (f : bool) :
  tiles m a (l1 ++ B :: l2) e ->
  set_flag (b_addr B) f (l1 ++ B :: l2) =
  l1 ++ Blk (b_addr B) (b_size B) f :: l2.
Proof.
  intros T.
  assert (N : forall l, (forall x, In x l -> In x (l1 ++ B :: l2) /\ x <> B) ->
                        set_flag (b_addr B) f l = l).
  { induction l as [|x l IH]; intros Hl; [reflexivity|].
    unfold set_flag in *. simpl.
    destruct (Hl x (or_introl eq_refl)) as (Ix & Nx).
    assert (E : (b_addr x =? b_addr B) = false).
    { apply Z.eqb_neq. intros E. apply Nx.
      eapply tiles_addr_inj; eauto. apply in_or_app. right. left. reflexivity. }
    rewrite E. f_equal. apply IH. intros y Iy. apply Hl. right. exact Iy. }
  pose proof (tiles_at _ _ _ _ _ _ T) as (T1 & T2 & SB & _).
  unfold set_flag. rewrite map_app. simpl. rewrite Z.eqb_refl.
  fold (set_flag (b_addr B) f l1). fold (set_flag (b_addr B) f l2).
  rewrite !N; auto.
  - intros x Ix. split; [apply in_or_app; right; right; exact Ix|].
    intros ->. pose proof (tiles_in _ _ _ _ _ T2 Ix). lia.
  - intros x Ix. split; [apply in_or_app; left; exact Ix|].
    intros ->. pose proof (tiles_in _ _ _ _ _ T1 Ix). lia.
Qed.

Lemma adj_size_facts (n : Z) :
  0 < n <= MAX_REQUEST ->
  adj_size n = 16 + 16 * ((n + 15) / 16) /\
  32 <= adj_size n /\ adj_size n mod 16 = 0 /\
  n + 16 <= adj_size n /\ adj_size n + 32 < TWO64.
Proof.
  intros H. unfold MAX_REQUEST in H. rewrite TWO64_eq in *.
  assert (E : adj_size n = 16 + 16 * ((n + 15) / 16)).
  { unfold adj_size, round_up.
    replace (n + 16 - 1) with (n + 15) by lia.
    rewrite (wrap_small (n + 15)) by (rewrite TWO64_eq; lia).
    rewrite (wrap_small ((n + 15) / 16 * 16))
      by (rewrite TWO64_eq; Z.to_euclidean_division_equations; lia).
    rewrite wrap_small
      by (rewrite TWO64_eq; Z.to_euclidean_division_equations; lia).
    lia. }
  rewrite E. split; [reflexivity|].
  Z.to_euclidean_division_equations. lia.
Qed.

Lemma to_long_nonneg (n : Z) : 0 <= n < TWO64 -> 0 <= to_long n -> to_long n = n.
Proof.
  unfold to_long. rewrite TWO64_eq. intros R H.
  destruct (n <? 2 ^ 63) eqn:E; [reflexivity|].
  apply Z.ltb_ge in E. lia.
Qed.

(** Growth by a fresh allocated block at the old epilogue. *)
Lemma create_space_ok (s : state) (bs : list blk) (fl : list Z) (adj : Z) :
  heap_ok s bs fl [] -> sbrk_succeeds s adj ->
  32 <= adj < TWO64 -> adj mod 16 = 0 ->
  exists s',
    create_space adj s = Ok (mm_heap_last s) s' /\
    heap_ok s' (bs ++ [Blk (mm_heap_last s) adj true]) fl [] /\
    keeps bs (mem s) (mem s') /\
    arena_lo s' = arena_lo s /\ arena_max s' = arena_max s /\
    mm_heap_last s' = mm_heap_last s + adj.
Proof.
  intros H (G0 & G1) A0 A16.
  pose proof (hok_range _ _ _ _ H) as (R0 & R1 & R2).
  assert (TL : to_long adj = adj) by (apply to_long_nonneg; auto; lia).
  rewrite TL in *.
  destruct H as [L F B (M1 & M2) T D P].
  set (hl := mm_heap_last s) in *.
  set (m2 := store64 (store64 (mem s) hl (tag adj true)) (hl + adj - 8) (tag adj true)).
  exists (mkState m2 (mm_heap_first s) (hl + adj) (mm_free_head s)
                  (arena_lo s) (arena_brk s + adj) (arena_max s)).
  split; [|split; [|split; [|repeat split]]].
  - unfold create_space, mem_sbrk. mrun. rewrite TL.
    assert (E : ((0 <=? adj) && (arena_brk s + adj <=? arena_max s)) = true).
    { apply andb_true_intro. split; [apply Z.leb_le|apply Z.leb_le]; lia. }
    rewrite E. mstep. simpl mm_heap_last. fold hl.
    rewrite incr_pointer_eq by lia.
    rewrite write_tag_eq by (simpl; lia). reflexivity.
  - constructor; simpl; auto; try lia.
    + apply tiles_app. exists hl. split.
      * eapply tiles_frame; [exact T|]. intros x Hx. unfold m2.
        rewrite !store64_out by lia. reflexivity.
      * apply tiles_one; lia.
    + eapply dll_frame; [exact D|]. intros a x Ia Hx. unfold m2.
      assert (Ia' : In a (free_addrs bs)) by (eapply Permutation_in; eauto).
      apply in_free_addrs in Ia'. destruct Ia' as (b & Ib & <- & _).
      pose proof (tiles_in _ _ _ _ _ T Ib).
      rewrite !store64_out by lia. reflexivity.
    + rewrite free_addrs_app. rewrite (free_addrs_cons_alloc _ []) by reflexivity.
      rewrite app_nil_r. exact P.
  - intros b x Ib Ab Hx. simpl. unfold m2.
    pose proof (tiles_in _ _ _ _ _ T Ib).
    rewrite !store64_out by lia. reflexivity.
Qed.

Lemma naf_glue (l1 l2 : list blk) (x : blk) :
  no_adjacent_free (l1 ++ [x]) = true -> no_adjacent_free (x :: l2) = true ->
  no_adjacent_free (l1 ++ x :: l2) = true.
Proof.
  intros H1 H2. induction l1 as [|a l1 IH]; [exact H2|].
  pose proof (IH (naf_cons _ _ H1)) as IH'.
  destruct l1 as [|b l1]; simpl app in *; rewrite naf_cons2 in H1;
    apply andb_prop in H1; destruct H1 as (Hab & _);
    rewrite naf_cons2, Hab, IH'; reflexivity.
Qed.

Lemma naf_unglue (l1 l2 : list blk) (x : blk) :
  no_adjacent_free (l1 ++ x :: l2) = true ->
  no_adjacent_free (l1 ++ [x]) = true /\ no_adjacent_free (x :: l2) = true.
Proof.
  intros H. split.
  - apply (naf_app_l (l1 ++ [x]) l2). rewrite <- app_assoc. exact H.
  - apply (naf_app_r l1). exact H.
Qed.

Lemma naf_snoc_alloc (l1 : list blk) (x y : blk) :
  no_adjacent_free (l1 ++ [x]) = true -> b_alloc y = true ->
  no_adjacent_free (l1 ++ [y]) = true.
Proof.
  intros H A. induction l1 as [|a l1 IH]; [reflexivity|].
  pose proof (IH (naf_cons _ _ H)) as IH'.
  destruct l1 as [|b l1]; simpl app in *; rewrite naf_cons2 in *.
  - rewrite A. rewrite orb_true_r. reflexivity.
  - apply andb_prop in H. destruct H as (Hab & _). rewrite Hab, IH'. reflexivity.
Qed.

Lemma naf_snoc_new (bs : list blk) (y : blk) :
  no_adjacent_free bs = true -> b_alloc y = true ->
  no_adjacent_free (bs ++ [y]) = true.
Proof.
  intros H A. destruct bs as [|x l] using rev_ind; [reflexivity|].
  rewrite <- app_assoc. simpl app.
  apply naf_glue; [exact H|].
  rewrite naf_cons2, A, orb_true_r. reflexivity.
Qed.

Lemma naf_same_flag (x y : blk) (l2 : list blk) :
  no_adjacent_free (x :: l2) = true -> b_alloc y = b_alloc x ->
  no_adjacent_free (y :: l2) = true.
Proof.
  intros H E. destruct l2 as [|r l2]; [reflexivity|].
  rewrite naf_cons2 in *. rewrite E. exact H.
Qed.

Lemma naf_alloc_head (x y : blk) (l2 : list blk) :
  no_adjacent_free (x :: l2) = true -> b_alloc y = true ->
  no_adjacent_free (y :: l2) = true.
Proof.
  intros H A. destruct l2 as [|r l2]; [reflexivity|].
  rewrite naf_cons2 in *. rewrite A. apply andb_prop in H. destruct H as (_ & H).
  rewrite H. reflexivity.
Qed.

(** ** [find_fit] and [malloc] *)

Lemma find_fit_spec (s : state) (bs : list blk) (fl : list Z) (adj : Z) (fuel : nat) :
  heap_ok s bs fl [] ->
  32 <= adj -> adj mod 16 = 0 -> adj + 32 < TWO64 ->
  (length fl <= fuel)%nat ->
  match find (fun a => adj <=? get_size a s) fl with
  | None => find_fit fuel adj s = Ok NULL s
  | Some a =>
      exists s' B l1 l2,
        bs = l1 ++ B :: l2 /\ b_addr B = a /\ b_alloc B = false /\
        get_size a s = b_size B /\ adj <= b_size B /\
        find_fit fuel adj s = Ok a s' /\ same_frame s s' /\
        keeps (l1 ++ l2) (mem s) (mem s') /\
        if 32 + adj <=? b_size B
        then heap_ok s' (l1 ++ Blk a adj true
                            :: Blk (a + adj) (b_size B - adj) false :: l2)
                     ((a + adj) :: remove_addr a fl) []
        else heap_ok s' (l1 ++ Blk a (b_size B) true :: l2) (remove_addr a fl) []
  end.
Proof.
  intros H A0 A16 A1 Len.
  pose proof (hok_range _ _ _ _ H) as (R0 & R1 & R2).
  pose proof (hok_spaced _ _ _ _ H) as S. simpl in S.
  pose proof (ok_dll _ _ _ _ H) as D.
  pose proof (dll_hd _ _ _ _ _ D) as Hh.
  assert (E : find_fit fuel adj s = find_fit_loop fuel (hd 0 fl) adj s).
  { unfold find_fit. mrun. rewrite Hh. reflexivity. }
  rewrite Hh in D.
  rewrite E, (find_fit_loop_walk s adj fl 0 fuel D S) by (auto; lia).
  destruct (find (fun a => adj <=? get_size a s) fl) as [a|] eqn:Ef; [|reflexivity].
  apply find_some in Ef. destruct Ef as (Ia & Fa). apply Z.leb_le in Fa.
  destruct (hok_node _ _ _ _ a H Ia) as (B & IB & EB & AB).
  destruct (in_split _ _ IB) as (l1 & l2 & ->).
  assert (GB : get_size a s = b_size B).
  { rewrite <- EB. eapply get_size_blk; [exact (ok_tiles _ _ _ _ H)| | |exact IB]; lia. }
  rewrite GB in *.
  destruct (32 + adj <=? b_size B) eqn:E32.
  - pose proof E32 as L32. apply Z.leb_le in L32.
    destruct (split_ok s l1 l2 B fl adj H AB A0 A16 ltac:(lia)) as (s' & E' & H' & K' & F').
    rewrite EB in *. exists s', B, l1, l2. rewrite E32.
    exact (conj eq_refl (conj EB (conj AB (conj eq_refl (conj Fa
            (conj E' (conj F' (conj K' H')))))))).
  - destruct (take_whole_ok s l1 l2 B fl H AB) as (s' & E' & H' & K' & F').
    rewrite EB in *. exists s', B, l1, l2. rewrite E32.
    exact (conj eq_refl (conj EB (conj AB (conj eq_refl (conj Fa
            (conj E' (conj F' (conj K' H')))))))).
Qed.

Lemma malloc_ok (L : list (Z * Z)) (s : state) (bs : list blk) (fl : list Z)
      (n : Z) (fuel : nat) :
  Inv L s bs fl -> serviceable s n -> (length fl <= fuel)%nat ->
  exists p s' bs' fl',
    malloc fuel n s = Ok p s' /\ p <> NULL /\
    Inv ((p, n) :: L) s' bs' fl' /\
    keeps bs (mem s) (mem s') /\
    arena_lo s' = arena_lo s /\ arena_max s' = arena_max s /\
    ~ In p (map fst L) /\
    (fl = [] -> bs' = bs ++ [Blk (mm_heap_last s) (adj_size n) true] /\
                fl' = [] /\ p = mm_heap_last s + 8).
Proof.
  intros (H & N & LV) (Rn & Grow) Len.
  pose proof (adj_size_facts n Rn) as (_ & A0 & A16 & An & A1).
  pose proof (hok_range _ _ _ _ H) as (R0 & R1 & R2).
  pose proof (ok_tiles _ _ _ _ H) as T.
  assert (E : forall r s', (b <- find_fit fuel (adj_size n) ;;
                            b <- (if b =? 0 then create_space (adj_size n) else ret b) ;;
                            ret (incr_pointer 8 b)) s = Ok r s' ->
                           malloc fuel n s = Ok r s').
  { intros r s' Hr. unfold malloc. revert Hr. mrun. rewrite (ok_first _ _ _ _ H).
    assert (E0 : (arena_lo s + 8 =? 0) = false) by (apply Z.eqb_neq; lia).
    rewrite E0. mstep.
    assert (E1 : (n =? 0) = false) by (apply Z.eqb_neq; lia).
    rewrite E1. mstep. auto. }
  pose proof (find_fit_spec s bs fl (adj_size n) fuel H A0 A16 A1 Len) as FF.
  destruct (find (fun a => adj_size n <=? get_size a s) fl) as [a|] eqn:Ef.
  - destruct FF as (s' & B & l1 & l2 & -> & EB & AB & GB & Fa & E' & F' & K' & H').
    pose proof (tiles_at _ _ _ _ _ _ T) as (T1 & T2 & SB & MB & B0 & B1).
    destruct (naf_unglue _ _ _ N) as (N1 & N2).
    assert (Ea : (a =? 0) = false) by (apply Z.eqb_neq; lia).
    assert (Old : forall b, In b (l1 ++ B :: l2) -> b_alloc b = true ->
                            In b (l1 ++ l2) /\ b_addr b <> a).
    { intros b Ib Ab. split.
      - apply in_app_or in Ib. apply in_or_app.
        destruct Ib as [Ib|[<-|Ib]]; auto. congruence.
      - intros Eb. assert (b = B).
        { eapply tiles_addr_inj; [exact T|exact Ib| |congruence].
          apply in_or_app. right. left. reflexivity. }
        congruence. }
    set (bs' := if 32 + adj_size n <=? b_size B
                then l1 ++ Blk a (adj_size n) true
                        :: Blk (a + adj_size n) (b_size B - adj_size n) false :: l2
                else l1 ++ Blk a (b_size B) true :: l2).
    set (fl' := if 32 + adj_size n <=? b_size B
                then (a + adj_size n) :: remove_addr a fl else remove_addr a fl).
    exists (a + 8), s', bs', fl'.
    split; [|split; [lia|split; [|split; [|split; [apply F'|split; [apply F'|split]]]]]].
    + apply E. mrun. rewrite E'. mstep. rewrite Ea. mstep.
      rewrite incr_pointer_eq by lia. reflexivity.
    + unfold Inv, bs', fl'. destruct (32 + adj_size n <=? b_size B) eqn:E32.
      * split; [exact H'|]. split.
        -- apply naf_glue; [eapply naf_snoc_alloc; eauto|].
           rewrite naf_cons2. cbn [b_alloc orb andb].
           eapply naf_same_flag; [exact N2|]. rewrite AB. reflexivity.
        -- intros p m Ip. destruct Ip as [Ip|Ip].
           ++ inversion Ip; subst p m. split; [lia|].
              exists (Blk a (adj_size n) true). simpl. split; [|repeat split; lia].
              apply in_or_app. right. left. reflexivity.
           ++ destruct (LV p m Ip) as (Pm & b & Ib & Eb & Ab & Sb).
              split; [exact Pm|]. exists b. repeat split; auto.
              destruct (Old b Ib Ab) as (Ib' & _).
              apply in_app_or in Ib'. apply in_or_app. simpl. tauto.
      * split; [exact H'|]. split.
        -- apply naf_glue; [eapply naf_snoc_alloc; eauto|].
           eapply naf_alloc_head; [exact N2|]. reflexivity.
        -- intros p m Ip. destruct Ip as [Ip|Ip].
           ++ inversion Ip; subst p m. split; [lia|].
              exists (Blk a (b_size B) true). simpl. split; [|repeat split; lia].
              apply in_or_app. right. left. reflexivity.
           ++ destruct (LV p m Ip) as (Pm & b & Ib & Eb & Ab & Sb).
              split; [exact Pm|]. exists b. repeat split; auto.
              destruct (Old b Ib Ab) as (Ib' & _).
              apply in_app_or in Ib'. apply in_or_app. simpl. tauto.
    + eapply keeps_incl; [|exact K']. intros b Ib Ab. apply (Old b Ib Ab).
    + intros Ip. apply in_map_iff in Ip. destruct Ip as ((p & m) & Ep & Ip).
      simpl in Ep. subst p.
      destruct (LV _ _ Ip) as (_ & b & Ib & Eb & Ab & _).
      destruct (Old b Ib Ab) as (_ & Nb). lia.
    + intros ->. discriminate.
  - assert (Gr : sbrk_succeeds s (adj_size n)) by (eapply Grow; exact FF).
    destruct (create_space_ok s bs fl (adj_size n) H Gr ltac:(lia) A16)
      as (s' & E' & H' & K' & F1 & F2 & F3).
    exists (mm_heap_last s + 8), s', (bs ++ [Blk (mm_heap_last s) (adj_size n) true]), fl.
    split; [|split; [lia|split; [|split; [exact K'|split; [exact F1|split; [exact F2|split]]]]]].
    + apply E. mrun. rewrite FF. mstep. change (0 =? 0) with true. mstep.
      rewrite E'. mstep.
      rewrite incr_pointer_eq by lia. reflexivity.
    + split; [exact H'|]. split; [apply naf_snoc_new; auto|].
      intros p m Ip. destruct Ip as [Ip|Ip].
      * inversion Ip; subst p m. split; [lia|].
        exists (Blk (mm_heap_last s) (adj_size n) true). simpl.
        split; [|repeat split; lia]. apply in_or_app. right. left. reflexivity.
      * destruct (LV p m Ip) as (Pm & b & Ib & Eb & Ab & Sb).
        split; [exact Pm|]. exists b. repeat split; auto. apply in_or_app. auto.
    + intros Ip. apply in_map_iff in Ip. destruct Ip as ((p & m) & Ep & Ip).
      simpl in Ep. subst p.
      destruct (LV _ _ Ip) as (_ & b & Ib & Eb & Ab & _).
      pose proof (tiles_in _ _ _ _ _ T Ib). lia.
    + intros Efl. auto.
Qed.

(** ** The invariant under [free] and under writes to live payloads *)

Lemma merge_free_alloc_in (bs : list blk) (b : blk) :
  In b bs -> b_alloc b = true -> In b (merge_free bs).
Proof.
  induction bs as [|x t IH]; intros I A; [contradiction|].
  unfold merge_free. cbn [fold_right]. fold (merge_free t).
  unfold merge_step. destruct I as [->|I].
  - destruct (merge_free t) as [|b' r]; [left; reflexivity|].
    unfold is_free. rewrite A. simpl. left. reflexivity.
  - specialize (IH I A). destruct (merge_free t) as [|b' r]; [contradiction|].
    destruct (is_free x && is_free b') eqn:E; [|right; exact IH].
    apply andb_prop in E. destruct E as (_ & E). unfold is_free in E.
    destruct IH as [->|IH]; [rewrite A in E; discriminate|]. right. exact IH.
Qed.

Lemma merge_free_alloc_from (bs : list blk) (b : blk) :
  In b (merge_free bs) -> b_alloc b = true -> In b bs.
Proof.
  revert b. induction bs as [|x t IH]; intros b I A; [contradiction|].
  unfold merge_free in I. cbn [fold_right] in I. fold (merge_free t) in I.
  unfold merge_step in I. destruct (merge_free t) as [|b' r].
  - destruct I as [->|[]]. left. reflexivity.
  - destruct (is_free x && is_free b').
    + destruct I as [<-|I]; [discriminate|]. right. apply IH; auto. right. exact I.
    + destruct I as [->|I]; [left; reflexivity|]. right. apply IH; auto.
Qed.

Lemma live_ok_incl (bs : list blk) (L L' : list (Z * Z)) :
  (forall e, In e L' -> In e L) -> live_ok bs L -> live_ok bs L'.
Proof. intros I H p n Ip. apply H, I, Ip. Qed.

Lemma in_drop (p : Z) (L : list (Z * Z)) (q n : Z) :
  In (q, n) (drop p L) <-> In (q, n) L /\ q <> p.
Proof.
  unfold drop. rewrite filter_In. simpl. split; intros (I & N); split; auto.
  - intros ->. rewrite Z.eqb_refl in N. discriminate.
  - apply Z.eqb_neq in N. rewrite N. reflexivity.
Qed.

Lemma free_inv (L : list (Z * Z)) (s : state) (bs : list blk) (fl : list Z)
      (p n : Z) :
  Inv L s bs fl -> In (p, n) L ->
  exists s' fl',
    free p s = Ok tt s' /\
    Inv (drop p L) s' (merge_free (set_flag (p - 8) false bs)) fl' /\
    (forall b x, In b bs -> b_alloc b = true -> b_addr b <> p - 8 ->
                 b_addr b <= x < b_addr b + b_size b -> mem s' x = mem s x) /\
    (forall F, In F (merge_free (set_flag (p - 8) false bs)) ->
               b_alloc F = true -> In F bs /\ b_addr F <> p - 8) /\
    same_frame s s'.
Proof.
  intros (H & N & LV) Ip.
  destruct (LV p n Ip) as (Pn & B & IB & EB & AB & SB).
  destruct (in_split _ _ IB) as (l1 & l2 & ->).
  pose proof (ok_tiles _ _ _ _ H) as T.
  rewrite <- EB, (set_flag_at _ _ _ _ _ _ false T).
  destruct (free_ok s l1 l2 B fl H AB N) as (s' & fl' & E' & H' & K' & F').
  replace (b_addr B + 8) with p in E' by lia.
  assert (Old : forall b, In b (l1 ++ B :: l2) -> b_alloc b = true ->
                          b_addr b <> b_addr B -> In b (l1 ++ l2)).
  { intros b Ib Ab Nb. apply in_app_or in Ib. apply in_or_app.
    destruct Ib as [Ib|[<-|Ib]]; auto. congruence. }
  exists s', fl'. split; [exact E'|]. split; [|split; [|split; [|exact F']]].
  - split; [exact H'|]. split; [apply merge_free_naf|].
    intros q m Iq. apply in_drop in Iq. destruct Iq as (Iq & Nq).
    destruct (LV q m Iq) as (Pm & b & Ib & Eb & Ab & Sb).
    split; [exact Pm|]. exists b. repeat split; auto.
    apply merge_free_alloc_in; auto.
    pose proof (Old b Ib Ab ltac:(lia)) as Ib'.
    apply in_app_or in Ib'. apply in_or_app. simpl. tauto.
  - intros b x Ib Ab Nb Hx.
    apply (K' b x); [apply Old; auto; lia | assumption | assumption].
  - intros F IF AF. apply merge_free_alloc_from in IF; [|exact AF].
    pose proof (tiles_at _ _ _ _ _ _ T) as (T1 & T2 & SB' & _).
    apply in_app_or in IF. destruct IF as [IF|[<-|IF]].
    + split; [apply in_or_app; auto|].
      pose proof (tiles_in _ _ _ _ _ T1 IF). lia.
    + discriminate.
    + split; [apply in_or_app; right; right; exact IF|].
      pose proof (tiles_in _ _ _ _ _ T2 IF). lia.
Qed.

(** A change of memory confined to the payload of a live allocation. *)
Lemma payload_write_inv (L : list (Z * Z)) (s : state) (bs : list blk)
      (fl : list Z) (p n : Z) (m' : memory) :
  Inv L s bs fl -> In (p, n) L ->
  (forall x, x < p \/ p + n <= x -> m' x = mem s x) ->
  Inv L (set_mem m' s) bs fl.
Proof.
  intros (H & N & LV) Ip A.
  destruct (LV p n Ip) as (Pn & B & IB & EB & AB & SB).
  split; [|split; auto].
  destruct H as [Lo F Br M T D P].
  constructor; simpl; auto.
  - eapply tiles_payload_frame; [exact T|exact IB|].
    intros x Hx. apply A. lia.
  - eapply dll_frame; [exact D|]. intros a x Ia Hx. apply A.
    assert (Ia' : In a (free_addrs bs)) by (eapply Permutation_in; eauto).
    apply in_free_addrs in Ia'. destruct Ia' as (b & Ib & <- & Fb).
    pose proof (tiles_in _ _ _ _ _ T Ib) as (_ & _ & Sb & _).
    destruct (tiles_far _ _ _ _ _ _ T Ib IB) as [->|Far]; [congruence|]. lia.
Qed.

(** ** Initialisation *)

Lemma init_inv (s0 s : state) :
  fresh s0 -> mm_init s0 = Ok 0 s ->
  Inv [] s [] [] /\ arena_lo s = arena_lo s0 /\ arena_max s = arena_max s0 /\
  mm_heap_last s = arena_lo s0 + 24.
Proof.
  intros (L0 & B0 & M0) E.
  unfold mm_init, mem_sbrk in E. revert E. mrun.
  change (to_long (wrap (2 * 16 + 8))) with 40. simpl arena_brk. simpl arena_max.
  destruct ((0 <=? 40) && (arena_brk s0 + 40 <=? arena_max s0)) eqn:C; mstep.
  - apply andb_prop in C. destruct C as (_ & C). apply Z.leb_le in C.
    assert (E0 : (arena_brk s0 =? 0) = false) by (apply Z.eqb_neq; lia).
    rewrite E0. intros E. inversion E; subst s; clear E.
    unfold init_heap_last, init_heap_first, mem_heap_hi, mem_heap_lo. simpl.
    rewrite incr_pointer_eq by lia. rewrite decr_pointer_eq by lia.
    split; [|repeat split; lia].
    split; [|split; [reflexivity|intros p n []]].
    constructor; simpl; try lia. apply Permutation_refl.
  - change (0 =? 0) with true. cbv iota. intros E. inversion E.
Qed.

(** ** More fuel does not change a result *)

Lemma find_fit_loop_mono (f f' : nat) (curr adj : Z) (s : state) (R : result Z) :
  find_fit_loop f curr adj s = R -> R <> OutOfFuel -> (f <= f')%nat ->
  find_fit_loop f' curr adj s = R.
Proof.
  revert f' curr. induction f as [|f IH]; intros f' curr E NR Le.
  - destruct f'; simpl in *; destruct (curr =? 0); auto; congruence.
  - destruct f' as [|f']; [lia|].
    cbn [find_fit_loop] in *. destruct (curr =? 0); [exact E|].
    revert E. mrun.
    destruct (wrap (2 * 16 + adj) <=? get_size curr s); [auto|].
    destruct (adj <=? get_size curr s); [auto|].
    intros E. apply IH; auto. lia.
Qed.

Lemma find_fit_mono (f f' : nat) (adj : Z) (s : state) (R : result Z) :
  find_fit f adj s = R -> R <> OutOfFuel -> (f <= f')%nat ->
  find_fit f' adj s = R.
Proof. unfold find_fit. mrun. apply find_fit_loop_mono. Qed.

Lemma malloc_mono (f f' : nat) (n : Z) (s : state) (R : result Z) :
  malloc f n s = R -> R <> OutOfFuel -> (f <= f')%nat -> malloc f' n s = R.
Proof.
  intros E NR Le. unfold malloc in *. revert E. mrun.
  match goal with
  | |- (match ?X with _ => _ end = _) -> _ => destruct X as [u s1| |]
  end; auto.
  destruct (n =? 0); [auto|].
  destruct (find_fit f (adj_size n) s1) as [a s2| |] eqn:Ef.
  - rewrite (find_fit_mono f f' _ _ _ Ef ltac:(discriminate) Le). auto.
  - rewrite (find_fit_mono f f' _ _ _ Ef ltac:(discriminate) Le). auto.
  - congruence.
Qed.

Lemma run_call_mono (f f' : nat) (c : call) (s : state) (R : result Z) :
  run_call f c s = R -> R <> OutOfFuel -> (f <= f')%nat -> run_call f' c s = R.
Proof.
  intros E NR Le. destruct c as [n|p|p n|k n]; simpl in *.
  - eapply malloc_mono; eauto.
  - exact E.
  - unfold realloc in *. destruct (n =? 0); [exact E|].
    destruct (p =? 0); [eapply malloc_mono; eauto|].
    revert E. mrun.
    destruct (malloc f n s) as [q s1| |] eqn:Em.
    + rewrite (malloc_mono f f' _ _ _ Em ltac:(discriminate) Le). auto.
    + rewrite (malloc_mono f f' _ _ _ Em ltac:(discriminate) Le). auto.
    + congruence.
  - unfold calloc in *. revert E. mrun.
    destruct (malloc f (wrap (k * n)) s) as [q s1| |] eqn:Em.
    + rewrite (malloc_mono f f' _ _ _ Em ltac:(discriminate) Le). auto.
    + rewrite (malloc_mono f f' _ _ _ Em ltac:(discriminate) Le). auto.
    + congruence.
Qed.

(** ** [realloc] and [calloc] *)

Lemma get_size_keeps (bs : list blk) (s s' : state) (b : blk) :
  keeps bs (mem s) (mem s') -> In b bs -> b_alloc b = true -> 8 <= b_size b ->
  get_size (b_addr b) s' = get_size (b_addr b) s.
Proof.
  intros K I A S. unfold get_size. f_equal. apply load64_agree.
  intros x Hx. apply (K b x I A). lia.
Qed.

Lemma realloc_ok (L : list (Z * Z)) (s : state) (bs : list blk) (fl : list Z)
      (p m n : Z) (fuel : nat) :
  Inv L s bs fl -> In (p, m) L -> serviceable s n -> (length fl <= fuel)%nat ->
  exists q s' bs' fl',
    realloc fuel p n s = Ok q s' /\ q <> NULL /\ q <> p /\
    Inv ((q, n) :: drop p L) s' bs' fl' /\
    arena_lo s' = arena_lo s /\ arena_max s' = arena_max s /\
    (forall i, 0 <= i < Z.min n (get_size (p - 8) s - 16) ->
               mem s' (q + i) = mem s (p + i)) /\
    (forall F, In F bs' -> b_alloc F = true ->
               b_addr F + b_size F <= p - 8 \/
               p - 8 + get_size (p - 8) s <= b_addr F).
Proof.
  intros I Ip Sv Len.
  pose proof I as (H & N & LV).
  pose proof (hok_range _ _ _ _ H) as (R0 & R1 & R2).
  pose proof (ok_tiles _ _ _ _ H) as T.
  destruct (LV p m Ip) as (Pm & Bp & IBp & EBp & ABp & SBp).
  pose proof (tiles_in _ _ _ _ _ T IBp) as (Bp0 & Bp1 & Bp2 & _).
  assert (Gp : get_size (p - 8) s = b_size Bp).
  { rewrite <- EBp. eapply get_size_blk; [exact T| | |exact IBp]; lia. }
  destruct (malloc_ok L s bs fl n fuel I Sv Len)
    as (q & s1 & bs1 & fl1 & Em & Nq & I1 & K1 & Lo1 & Mx1 & Fq & _).
  pose proof I1 as (H1 & N1 & LV1).
  pose proof (ok_tiles _ _ _ _ H1) as T1.
  pose proof (hok_range _ _ _ _ H1) as (Q0 & Q1 & Q2).
  destruct (LV1 q n (or_introl eq_refl)) as (Pn & Bq & IBq & EBq & ABq & SBq).
  destruct (LV1 p m (or_intror Ip)) as (_ & Bp1' & IBp1 & EBp1 & ABp1 & SBp1).
  pose proof (tiles_in _ _ _ _ _ T1 IBq) as (Bq0 & Bq1 & Bq2 & _).
  assert (Gp1 : get_size (p - 8) s1 = b_size Bp).
  { rewrite <- Gp, <- EBp. apply (get_size_keeps bs); auto. lia. }
  assert (Sp1 : b_size Bp1' = b_size Bp).
  { rewrite <- Gp1, <- EBp1. symmetry.
    eapply get_size_blk; [exact T1| | |exact IBp1]; lia. }
  assert (Npq : q <> p).
  { intros ->. apply Fq. apply in_map_iff. exists (p, m). auto. }
  set (cnt := if n <? b_size Bp - 16 then n else b_size Bp - 16).
  assert (Ecnt : cnt = Z.min n (b_size Bp - 16)).
  { unfold cnt. destruct (n <? b_size Bp - 16) eqn:C.
    - apply Z.ltb_lt in C. lia.
    - apply Z.ltb_ge in C. lia. }
  set (m2 := memcpy (mem s1) q p cnt).
  assert (I2 : Inv ((q, n) :: L) (set_mem m2 s1) bs1 fl1).
  { eapply payload_write_inv; [exact I1|left; reflexivity|].
    intros x Hx. unfold m2, memcpy.
    destruct ((q <=? x) && (x <? q + cnt)) eqn:C; [|reflexivity].
    apply andb_prop in C. destruct C as (C1 & C2).
    apply Z.leb_le in C1. apply Z.ltb_lt in C2. lia. }
  destruct (free_inv _ _ _ _ p m I2 (or_intror Ip))
    as (s3 & fl3 & E3 & I3 & K3 & A3 & F3).
  exists q, s3, (merge_free (set_flag (p - 8) false bs1)), fl3.
  split; [|split; [exact Nq|split; [exact Npq|split; [|split; [|split; [|split]]]]]].
  - unfold realloc.
    assert (En : (n =? 0) = false) by (apply Z.eqb_neq; destruct Sv; lia).
    assert (Ep : (p =? 0) = false) by (apply Z.eqb_neq; lia).
    assert (Eq : (q =? 0) = false) by (apply Z.eqb_neq; exact Nq).
    rewrite En, Ep. mrun. rewrite Em. mstep. rewrite Eq. mstep.
    rewrite decr_pointer_eq by lia. rewrite Gp1.
    rewrite (wrap_small (b_size Bp - 16)) by lia.
    fold cnt. fold m2. rewrite E3. reflexivity.
  - simpl drop in I3.
    assert (Eqp : (q =? p) = false) by (apply Z.eqb_neq; exact Npq).
    rewrite Eqp in I3. exact I3.
  - destruct F3 as (_ & _ & F3 & _). simpl in F3. congruence.
  - destruct F3 as (_ & _ & _ & _ & F3). simpl in F3. congruence.
  - intros i Hi. rewrite Gp, <- Ecnt in Hi.
    assert (Hn : cnt <= n) by lia.
    assert (Hc : cnt <= b_size Bp - 16) by lia.
    rewrite (K3 Bq (q + i) IBq ABq) by lia.
    simpl. unfold m2, memcpy.
    assert (C : ((q <=? q + i) && (q + i <? q + cnt)) = true).
    { apply andb_true_intro. split; [apply Z.leb_le|apply Z.ltb_lt]; lia. }
    rewrite C. replace (p + (q + i - q)) with (p + i) by lia.
    apply (K1 Bp (p + i) IBp ABp). lia.
  - intros F IF AF. destruct (A3 F IF AF) as (IF1 & NF).
    rewrite Gp.
    destruct (tiles_far _ _ _ _ _ _ T1 IF1 IBp1) as [->|Far]; [lia|].
    rewrite Sp1, EBp1 in Far. lia.
Qed.

Lemma calloc_ok (L : list (Z * Z)) (s : state) (bs : list blk) (fl : list Z)
      (k n : Z) (fuel : nat) :
  Inv L s bs fl -> serviceable s (wrap (k * n)) -> (length fl <= fuel)%nat ->
  exists q s' bs' fl',
    calloc fuel k n s = Ok q s' /\ q <> NULL /\
    Inv ((q, wrap (k * n)) :: L) s' bs' fl' /\
    arena_lo s' = arena_lo s /\ arena_max s' = arena_max s /\
    (forall i, 0 <= i < wrap (k * n) -> mem s' (q + i) = 0).
Proof.
  intros I Sv Len.
  destruct (malloc_ok L s bs fl _ fuel I Sv Len)
    as (q & s1 & bs1 & fl1 & Em & Nq & I1 & K1 & Lo1 & Mx1 & Fq & _).
  set (m2 := memset (mem s1) q 0 (wrap (k * n))).
  exists q, (set_mem m2 s1), bs1, fl1.
  split; [|split; [exact Nq|split; [|split; [exact Lo1|split; [exact Mx1|]]]]].
  - unfold calloc. mrun. rewrite Em. mstep.
    assert (Eq : (q =? 0) = false) by (apply Z.eqb_neq; exact Nq).
    rewrite Eq. mstep. reflexivity.
  - eapply payload_write_inv; [exact I1|left; reflexivity|].
    intros x Hx. unfold m2, memset.
    destruct ((q <=? x) && (x <? q + wrap (k * n))) eqn:C; [|reflexivity].
    apply andb_prop in C. destruct C as (C1 & C2).
    apply Z.leb_le in C1. apply Z.ltb_lt in C2. lia.
  - intros i Hi. simpl. unfold m2, memset.
    assert (C : ((q <=? q + i) && (q + i <? q + wrap (k * n))) = true).
    { apply andb_true_intro. split; [apply Z.leb_le|apply Z.ltb_lt]; lia. }
    rewrite C. reflexivity.
Qed.

(** ** Every admissible call returns and re-establishes the invariant *)

Lemma malloc_zero (fuel : nat) (s : state) :
  mm_heap_first s <> NULL -> malloc fuel 0 s = Ok NULL s.
Proof.
  intros H. unfold malloc. mrun.
  assert (E : (mm_heap_first s =? 0) = false) by (apply Z.eqb_neq; exact H).
  rewrite E. reflexivity.
Qed.

Lemma free_null (s : state) :
  mm_heap_first s <> NULL -> free NULL s = Ok tt s.
Proof.
  intros H. unfold free. mrun.
  assert (E : (mm_heap_first s =? 0) = false) by (apply Z.eqb_neq; exact H).
  rewrite E. reflexivity.
Qed.

Lemma Inv_first (L : list (Z * Z)) (s : state) (bs : list blk) (fl : list Z) :
  Inv L s bs fl -> mm_heap_first s <> NULL.
Proof.
  intros (H & _). pose proof (hok_range _ _ _ _ H).
  rewrite (ok_first _ _ _ _ H). lia.
Qed.

Lemma Inv_drop (L : list (Z * Z)) (s : state) (bs : list blk) (fl : list Z) (p : Z) :
  Inv L s bs fl -> Inv (drop p L) s bs fl.
Proof.
  intros (H & N & LV). split; [exact H|]. split; [exact N|].
  eapply live_ok_incl; [|exact LV]. intros (q, m) I. apply in_drop in I. tauto.
Qed.

Lemma Inv_cons_drop (L : list (Z * Z)) (s : state) (bs : list blk) (fl : list Z)
      (e : Z * Z) (p : Z) :
  Inv (e :: L) s bs fl -> Inv (e :: drop p L) s bs fl.
Proof.
  intros (H & N & LV). split; [exact H|]. split; [exact N|].
  eapply live_ok_incl; [|exact LV]. intros (q, m) [I|I]; [left; exact I|].
  right. apply in_drop in I. tauto.
Qed.

Lemma free_call_ok (L : list (Z * Z)) (s : state) (bs : list blk) (fl : list Z)
      (p : Z) :
  Inv L s bs fl -> p = NULL \/ In p (map fst L) ->
  exists s' bs' fl',
    free p s = Ok tt s' /\ Inv (drop p L) s' bs' fl' /\
    arena_lo s' = arena_lo s /\ arena_max s' = arena_max s.
Proof.
  intros I [->|Ip].
  - exists s, bs, fl. split; [apply free_null; eapply Inv_first; eauto|].
    split; [apply Inv_drop, I|auto].
  - apply in_map_iff in Ip. destruct Ip as ((p' & m) & E & Ip). simpl in E. subst p'.
    destruct (free_inv _ _ _ _ p m I Ip) as (s' & fl' & E' & I' & _ & _ & F').
    exists s', (merge_free (set_flag (p - 8) false bs)), fl'.
    split; [exact E'|]. split; [exact I'|]. split; apply F'.
Qed.

Lemma call_ok (L : list (Z * Z)) (s : state) (bs : list blk) (fl : list Z)
      (c : call) (fuel : nat) :
  Inv L s bs fl -> admissible L s c -> (length fl <= fuel)%nat ->
  exists r s' bs' fl',
    run_call fuel c s = Ok r s' /\ Inv (live_after L c r) s' bs' fl' /\
    arena_lo s' = arena_lo s /\ arena_max s' = arena_max s.
Proof.
  intros I A Len. destruct c as [n|p|p n|k n]; simpl in A; simpl run_call.
  - destruct A as [->|Sv].
    + exists 0, s, bs, fl. split; [apply malloc_zero; eapply Inv_first; eauto|].
      simpl. auto.
    + destruct (malloc_ok L s bs fl n fuel I Sv Len)
        as (q & s1 & bs1 & fl1 & Em & Nq & I1 & K1 & Lo1 & Mx1 & _).
      exists q, s1, bs1, fl1. split; [exact Em|].
      simpl. assert (En : (n =? 0) = false) by (apply Z.eqb_neq; destruct Sv; lia).
      rewrite En. auto.
  - destruct (free_call_ok L s bs fl p I A) as (s' & bs' & fl' & E' & I' & Lo & Mx).
    exists 0, s', bs', fl'. split; [|simpl; auto].
    mrun. rewrite E'. reflexivity.
  - destruct A as (Ap & [->|Sv]).
    + destruct (free_call_ok L s bs fl p I Ap) as (s' & bs' & fl' & E' & I' & Lo & Mx).
      exists 0, s', bs', fl'. split; [|simpl; auto].
      unfold realloc. simpl. mrun. rewrite E'. reflexivity.
    + assert (En : (n =? 0) = false) by (apply Z.eqb_neq; destruct Sv; lia).
      destruct Ap as [->|Ip].
      * destruct (malloc_ok L s bs fl n fuel I Sv Len)
          as (q & s1 & bs1 & fl1 & Em & Nq & I1 & K1 & Lo1 & Mx1 & _).
        exists q, s1, bs1, fl1. split.
        { unfold realloc. rewrite En. simpl. exact Em. }
        simpl. rewrite En. split; [apply Inv_cons_drop, I1|auto].
      * apply in_map_iff in Ip. destruct Ip as ((p' & m) & E & Ip). simpl in E. subst p'.
        destruct (realloc_ok L s bs fl p m n fuel I Ip Sv Len)
          as (q & s' & bs' & fl' & E' & Nq & Npq & I' & Lo & Mx & _).
        exists q, s', bs', fl'. split; [exact E'|]. simpl. rewrite En. auto.
  - destruct A as [Z0|Sv].
    + exists 0, s, bs, fl. split.
      * unfold calloc. rewrite Z0. mrun.
        rewrite malloc_zero by (eapply Inv_first; eauto). reflexivity.
      * simpl. rewrite Z0. simpl. auto.
    + destruct (calloc_ok L s bs fl k n fuel I Sv Len)
        as (q & s' & bs' & fl' & E' & Nq & I' & Lo & Mx & _).
      exists q, s', bs', fl'. split; [exact E'|]. simpl.
      assert (En : (wrap (k * n) =? 0) = false)
        by (apply Z.eqb_neq; destruct Sv; lia).
      rewrite En. auto.
Qed.

Lemma reachable_inv (L : list (Z * Z)) (s : state) :
  reachable L s -> exists bs fl, Inv L s bs fl.
Proof.
  induction 1 as [s0 s F E | L s fuel c r s' R IH A E | L s p n i v R IH Ip Hi].
  - exists [], []. apply (init_inv s0 s F E).
  - destruct IH as (bs & fl & I).
    destruct (call_ok L s bs fl c (fuel + length fl) I A ltac:(lia))
      as (r' & s1 & bs' & fl' & E' & I' & _).
    pose proof (run_call_mono fuel (fuel + length fl) c s _ E
                  ltac:(discriminate) ltac:(lia)) as E2.
    rewrite E2 in E'. inversion E'; subst. exists bs', fl'. exact I'.
  - destruct IH as (bs & fl & I). exists bs, fl.
    eapply payload_write_inv; [exact I|exact Ip|].
    intros x Hx. simpl. unfold store8.
    destruct (x =? p + i) eqn:C; [apply Z.eqb_eq in C; lia|reflexivity].
Qed.

(** ** The abstract lists are what the traversals of the heap read *)

Lemma tiles_heap_blocks (s : state) (bs : list blk) (a : Z) :
  tiles (mem s) a bs (mm_heap_last s) -> 0 < a -> mm_heap_last s < TWO64 ->
  heap_blocks (length bs) s a = Some bs.
Proof.
  revert a. induction bs as [|b bs IH]; intros a T A E.
  - simpl in *. subst a. rewrite Z.eqb_refl. reflexivity.
  - pose proof T as (Ab & S & M & H & F & T').
    pose proof (tiles_le _ _ _ _ T') as Le.
    cbn [length heap_blocks].
    assert (Ne : (a =? mm_heap_last s) = false) by (apply Z.eqb_neq; lia).
    rewrite Ne. unfold get_size, is_allocated. rewrite H.
    rewrite get_size_tag, is_allocated_tag by (auto; lia).
    rewrite incr_pointer_eq by lia.
    rewrite (IH _ T') by lia.
    destruct b as [ba bz bf]. simpl in *. subst ba. reflexivity.
Qed.

Lemma dll_free_list (s : state) (fl : list Z) (p c : Z) :
  dll (mem s) p c fl NULL -> spaced fl -> free_list (length fl) s c = Some fl.
Proof.
  revert p c. induction fl as [|a fl IH]; intros p c D S.
  - simpl in *. subst c. reflexivity.
  - simpl in D. destruct D as (-> & Na & _ & D).
    simpl in S. destruct S as (R0 & R1 & _ & S).
    cbn [length free_list].
    assert (Ne : (a =? 0) = false) by (apply Z.eqb_neq; exact Na).
    rewrite Ne, get_next_eq by lia. rewrite (IH _ _ D S). reflexivity.
Qed.

Lemma tiles_aligned (m : memory) (bs : list blk) (a e : Z) (b : blk) :
  tiles m a bs e -> In b bs -> (b_addr b - a) mod 16 = 0.
Proof.
  revert a. induction bs as [|b0 bs IH]; intros a T I; [contradiction|].
  destruct T as (Ab & S & M & _ & _ & T). destruct I as [->|I].
  - rewrite Ab. replace (a - a) with 0 by lia. reflexivity.
  - pose proof (IH _ T I) as X. clear - X M.
    Z.to_euclidean_division_equations. lia.
Qed.

Lemma Inv_heap_blocks (L : list (Z * Z)) (s : state) (bs : list blk) (fl : list Z) :
  Inv L s bs fl ->
  heap_blocks (length bs) s (incr_pointer 16 (mm_heap_first s)) = Some bs.
Proof.
  intros (H & _). pose proof (hok_range _ _ _ _ H) as (R0 & R1 & R2).
  rewrite (ok_first _ _ _ _ H). rewrite incr_pointer_eq by lia.
  replace (arena_lo s + 8 + 16) with (arena_lo s + 24) by lia.
  apply tiles_heap_blocks; [apply H | lia | lia].
Qed.

(** A non-null result of an admissible call is a live allocation afterwards. *)
Lemma call_result_live (L : list (Z * Z)) (s : state) (bs : list blk)
      (fl : list Z) (c : call) (fuel : nat) (r : Z) (s' : state) :
  Inv L s bs fl -> admissible L s c -> run_call fuel c s = Ok r s' ->
  r <> NULL -> exists n, In (r, n) (live_after L c r).
Proof.
  intros I A E Nr. pose proof (Inv_first _ _ _ _ I) as Hf.
  destruct c as [n|p|p n|k n]; simpl in *.
  - destruct (n =? 0) eqn:En.
    + apply Z.eqb_eq in En. subst n. rewrite malloc_zero in E by exact Hf.
      inversion E. congruence.
    + exists n. left. reflexivity.
  - revert E. mrun. destruct (free p s); intros E; inversion E. congruence.
  - destruct (n =? 0) eqn:En.
    + unfold realloc in E. rewrite En in E. revert E. mrun.
      destruct (free p s); intros E; inversion E. congruence.
    + exists n. left. reflexivity.
  - destruct (wrap (k * n) =? 0) eqn:En.
    + apply Z.eqb_eq in En. unfold calloc in E. rewrite En in E. revert E. mrun.
      rewrite malloc_zero by exact Hf. mstep. intros E. inversion E. congruence.
    + exists (wrap (k * n)). left. reflexivity.
Qed.

(** When the head of a well-formed list has no successor, the list has
    one node. *)
Lemma single_node (s : state) (bs : list blk) (fl out : list Z) (b : Z) :
  heap_ok s bs fl out -> In b fl ->
  get_next (mm_free_head s) s = NULL -> b = mm_free_head s.
Proof.
  intros H I E.
  pose proof (spaced_app_r _ _ (hok_spaced _ _ _ _ H)) as S.
  pose proof (ok_dll _ _ _ _ H) as D.
  destruct fl as [|a t]; [contradiction|].
  simpl in D. destruct D as (Eh & Na & _ & D).
  simpl in S. destruct S as (R0 & R1 & _ & _).
  rewrite Eh in *. rewrite get_next_eq in E by lia. rewrite E in D.
  destruct t as [|x t].
  - destruct I as [<-|[]]. reflexivity.
  - simpl in D. destruct D as (<- & Nx & _). congruence.
Qed.

Lemma mm_init_returns (s : state) : exists r s1, mm_init s = Ok r s1.
Proof.
  unfold mm_init, mem_sbrk. mrun.
  destruct ((0 <=? to_long (wrap (2 * 16 + 8))) &&
            (arena_brk (set_free_head 0 s) + to_long (wrap (2 * 16 + 8))
             <=? arena_max (set_free_head 0 s))); mstep.
  - destruct (arena_brk (set_free_head 0 s) =? 0); eauto.
  - change (0 =? 0) with true. cbv iota. eauto.
Qed.

Lemma malloc_zero_any (fuel : nat) (s : state) :
  exists s1, malloc fuel 0 s = Ok NULL s1.
Proof.
  unfold malloc. mrun. destruct (mm_heap_first s =? 0).
  - destruct (mm_init_returns s) as (r & s1 & E). rewrite E. mstep. eauto.
  - mstep. eauto.
Qed.

Lemma calloc_zero_any (fuel : nat) (k n : Z) (s : state) :
  wrap (k * n) = 0 -> exists s1, calloc fuel k n s = Ok NULL s1.
Proof.
  intros Z0. unfold calloc. rewrite Z0. mrun.
  destruct (malloc_zero_any fuel s) as (s1 & E). rewrite E. mstep.
  change (0 =? 0) with true. mstep. eauto.
Qed.

Lemma init_ok (s0 : state) :
  fresh s0 -> arena_lo s0 + 40 <= arena_max s0 ->
  exists s, mm_init s0 = Ok 0 s.
Proof.
  intros (L0 & B0 & M0) Room. unfold mm_init, mem_sbrk. mrun.
  change (to_long (wrap (2 * 16 + 8))) with 40. simpl arena_brk. simpl arena_max.
  assert (C : ((0 <=? 40) && (arena_brk s0 + 40 <=? arena_max s0)) = true).
  { apply andb_true_intro. split; apply Z.leb_le; lia. }
  rewrite C. mstep.
  assert (E0 : (arena_brk s0 =? 0) = false) by (apply Z.eqb_neq; lia).
  rewrite E0. eauto.
Qed.

Lemma adj_size_48 : adj_size 48 = 64.
Proof. reflexivity. Qed.

Lemma serviceable_room (s : state) (bs : list blk) (fl : list Z) (n : Z) :
  heap_ok s bs fl [] -> 0 < n <= MAX_REQUEST ->
  mm_heap_last s + 16 + adj_size n <= arena_max s ->
  adj_size n < 2 ^ 63 ->
  serviceable s n.
Proof.
  intros H Rn Room Small. split; [exact Rn|]. intros _ _ _.
  pose proof (adj_size_facts n Rn) as (_ & A0 & _).
  unfold sbrk_succeeds, to_long.
  assert (C : (adj_size n <? 2 ^ 63) = true) by (apply Z.ltb_lt; exact Small).
  rewrite C. rewrite (ok_brk _ _ _ _ H). lia.
Qed.

Lemma free_list_mono (f f' : nat) (s : state) (c : Z) (l : list Z) :
  free_list f s c = Some l -> (f <= f')%nat -> free_list f' s c = Some l.
Proof.
  revert f' c l. induction f as [|f IH]; intros f' c l E Le.
  - destruct f'; simpl in *; destruct (c =? 0); auto; discriminate.
  - destruct f' as [|f']; [lia|].
    cbn [free_list] in *. destruct (c =? 0); [exact E|].
    destruct (free_list f s (get_next c s)) as [l0|] eqn:E0; [|discriminate].
    rewrite (IH f' _ _ E0 ltac:(lia)). exact E.
Qed.

(** In a reachable state the two traversals read the abstract lists of a
    well-formed heap. *)
Lemma reachable_heap_ok (L : list (Z * Z)) (s : state) :
  reachable L s ->
  exists bs fl,
    heap_ok s bs fl [] /\
    heap_blocks (length bs) s (incr_pointer 16 (mm_heap_first s)) = Some bs /\
    free_list (length fl) s (mm_free_head s) = Some fl.
Proof.
  intros R. destruct (reachable_inv L s R) as (bs & fl & I).
  exists bs, fl. split; [apply I|]. split; [eapply Inv_heap_blocks; exact I|].
  destruct I as (H & _).
  apply (dll_free_list s fl 0 _ (ok_dll _ _ _ _ H)).
  apply (hok_spaced _ _ _ _ H).
Qed.

(** Requests above [MAX_REQUEST] are not refused: the block size wraps
    around, and [malloc(2^64 - 1)] hands out a block of 16 bytes. *)
Lemma oversized_request_wraps :
  adj_size (TWO64 - 1) = 16 /\ adj_size (TWO64 - 20) = 0 /\
  value_of (malloc 1 (TWO64 - 1)) demo_init = Some 4128 /\
  get_size 4120 (state_after (malloc 1 (TWO64 - 1)) demo_init) = 16.
Proof. vm_compute. repeat split; reflexivity. Qed.

(** * The properties of the specification *)


(** C9.  [calloc(nmemb, size)] returns null whenever the product taken
    modulo 2^64 is zero, in particular for [nmemb = 0], for [size = 0] and
    for [nmemb = size = 2^32]; whenever it returns a non-null pointer, the
    first [nmemb * size mod 2^64] bytes there are zero; and it does return
    one, with these bytes zero, in every state reachable under the client
    contract when the product is non-zero and serviceable. *)
Theorem calloc_wraps_and_zero_fills (fuel : nat) (nmemb size : Z) (s : state) :
  (wrap (nmemb * size) = 0 -> exists s', calloc fuel nmemb size s = Ok NULL s') /\
  (exists s', calloc fuel 0 size s = Ok NULL s') /\
  (exists s', calloc fuel nmemb 0 s = Ok NULL s') /\
  (exists s', calloc fuel (2 ^ 32) (2 ^ 32) s = Ok NULL s') /\
  (forall q s', calloc fuel nmemb size s = Ok q s' -> q <> NULL ->
                forall i, 0 <= i < wrap (nmemb * size) ->
                          load8 (mem s') (q + i) = 0) /\
  (forall L, reachable L s -> serviceable s (wrap (nmemb * size)) ->
             exists fuel0, forall f, (fuel0 <= f)%nat ->
               exists q s',
                 calloc f nmemb size s = Ok q s' /\ q <> NULL /\
                 (forall i, 0 <= i < wrap (nmemb * size) ->
                            load8 (mem s') (q + i) = 0) /\
                 reachable ((q, wrap (nmemb * size)) :: L) s').
Proof.
  split; [apply calloc_zero_any|].
  split; [apply calloc_zero_any; reflexivity|].
  split; [apply calloc_zero_any; rewrite Z.mul_0_r; reflexivity|].
  split; [apply calloc_zero_any; reflexivity|].
  split.
  - intros q s' E Nq i Hi. unfold calloc in E. revert E. mrun.
    destruct (malloc fuel (wrap (nmemb * size)) s) as [q0 s1| |]; try discriminate.
    destruct (q0 =? 0) eqn:Eq; mstep; intros E; inversion E; subst.
    + apply Z.eqb_eq in Eq. congruence.
    + simpl. unfold load8, memset.
      assert (C : ((q <=? q + i) && (q + i <? q + wrap (nmemb * size))) = true).
      { apply andb_true_intro. split; [apply Z.leb_le|apply Z.ltb_lt]; lia. }
      rewrite C. reflexivity.
  - intros L R Sv. destruct (reachable_inv L s R) as (bs & fl & I).
    exists (length fl). intros f Le.
    destruct (calloc_ok L s bs fl nmemb size f I Sv Le)
      as (q & s' & bs' & fl' & E & Nq & I' & _ & _ & Zero).
    exists q, s'. split; [exact E|]. split; [exact Nq|]. split.
    + intros i Hi. unfold load8. rewrite (Zero i Hi). reflexivity.
    + pose proof (reach_call L s f (Calloc nmemb size) q s' R) as RC.
      simpl in RC.
      assert (En : (wrap (nmemb * size) =? 0) = false)
        by (apply Z.eqb_neq; destruct Sv; lia).
      rewrite En in RC. apply RC; [right; exact Sv|exact E].
Qed.

(** C8.  From a freshly initialised allocator whose arena can grow by 128
    bytes, the sequence [p = malloc(48); q = malloc(48); free(p); free(q)]
    runs to completion and leaves a free list of exactly one block, whose
    size is at least 128. *)
Theorem split_and_coalesce_scenario (s0 : state) (fuel : nat) :
  fresh s0 -> arena_lo s0 + 168 <= arena_max s0 ->
  exists p q s5,
    (mm_init ;;
     p <- malloc fuel 48 ;;
     q <- malloc fuel 48 ;;
     free p ;;
     free q ;;
     ret (p, q)) s0 = Ok (p, q) s5 /\
    exists b, free_list 1 s5 (mm_free_head s5) = Some [b] /\
              128 <= get_size b s5.
Proof.
  intros F Room.
  assert (R48 : 0 < 48 <= MAX_REQUEST) by (unfold MAX_REQUEST; rewrite TWO64_eq; lia).
  destruct (init_ok s0 F ltac:(lia)) as (s1 & E1).
  destruct (init_inv s0 s1 F E1) as (I1 & Lo1 & Mx1 & Hl1).
  set (lo := arena_lo s0) in *.
  (* first malloc *)
  assert (Sv1 : serviceable s1 48).
  { eapply serviceable_room; [apply I1|exact R48| |];
      rewrite adj_size_48; [rewrite Hl1, Mx1; lia|lia]. }
  destruct (malloc_ok [] s1 [] [] 48 fuel I1 Sv1 ltac:(simpl; lia))
    as (p & s2 & bs2 & fl2 & E2 & Np & I2 & _ & Lo2 & Mx2 & _ & X2).
  destruct (X2 eq_refl) as (-> & -> & ->). clear X2.
  rewrite Hl1, adj_size_48 in *. simpl app in I2.
  assert (Hl2 : mm_heap_last s2 = lo + 88).
  { destruct I2 as (H2 & _). pose proof (ok_tiles _ _ _ _ H2) as T.
    simpl in T. rewrite Lo2, Lo1 in T. fold lo in T. lia. }
  (* second malloc *)
  assert (Sv2 : serviceable s2 48).
  { eapply serviceable_room; [apply I2|exact R48| |];
      rewrite adj_size_48; [rewrite Hl2, Mx2, Mx1; lia|lia]. }
  destruct (malloc_ok _ s2 _ [] 48 fuel I2 Sv2 ltac:(simpl; lia))
    as (q & s3 & bs3 & fl3 & E3 & Nq & I3 & _ & Lo3 & Mx3 & _ & X3).
  destruct (X3 eq_refl) as (-> & -> & ->). clear X3.
  rewrite Hl2, adj_size_48 in *. simpl app in I3.
  (* free p *)
  destruct (free_inv _ s3 _ _ (lo + 24 + 8) 48 I3 ltac:(right; left; reflexivity))
    as (s4 & fl4 & E4 & I4 & _ & _ & _).
  assert (L4 : set_flag (lo + 24 + 8 - 8) false
                 [Blk (lo + 24) 64 true; Blk (lo + 88) 64 true] =
               [Blk (lo + 24) 64 false; Blk (lo + 88) 64 true]).
  { unfold set_flag. simpl.
    rewrite (proj2 (Z.eqb_eq (lo + 24) (lo + 24 + 8 - 8))) by lia.
    rewrite (proj2 (Z.eqb_neq (lo + 88) (lo + 24 + 8 - 8))) by lia. reflexivity. }
  rewrite L4 in I4.
  change (merge_free [Blk (lo + 24) 64 false; Blk (lo + 88) 64 true])
    with [Blk (lo + 24) 64 false; Blk (lo + 88) 64 true] in I4.
  (* free q *)
  assert (Iq : In (lo + 88 + 8, 48)
                  (drop (lo + 24 + 8) [(lo + 88 + 8, 48); (lo + 24 + 8, 48)])).
  { apply in_drop. split; [left; reflexivity|lia]. }
  destruct (free_inv _ s4 _ _ (lo + 88 + 8) 48 I4 Iq)
    as (s5 & fl5 & E5 & I5 & _ & _ & _).
  assert (L5 : set_flag (lo + 88 + 8 - 8) false
                 [Blk (lo + 24) 64 false; Blk (lo + 88) 64 true] =
               [Blk (lo + 24) 64 false; Blk (lo + 88) 64 false]).
  { unfold set_flag. simpl.
    rewrite (proj2 (Z.eqb_neq (lo + 24) (lo + 88 + 8 - 8))) by lia.
    rewrite (proj2 (Z.eqb_eq (lo + 88) (lo + 88 + 8 - 8))) by lia. reflexivity. }
  rewrite L5 in I5.
  change (merge_free [Blk (lo + 24) 64 false; Blk (lo + 88) 64 false])
    with [Blk (lo + 24) (64 + 64) false] in I5.
  destruct I5 as (H5 & _).
  pose proof (ok_perm _ _ _ _ H5) as P5. simpl in P5.
  change (free_addrs [Blk (lo + 24) (64 + 64) false]) with [lo + 24] in P5.
  apply Permutation_sym, Permutation_length_1_inv in P5. subst fl5.
  exists (lo + 24 + 8), (lo + 88 + 8), s5. split.
  - mrun. rewrite E1. mstep. rewrite E2. mstep. rewrite E3. mstep.
    rewrite E4. mstep. rewrite E5. reflexivity.
  - exists (lo + 24). split.
    + apply (dll_free_list s5 [lo + 24] 0 _ (ok_dll _ _ _ _ H5)).
      apply (hok_spaced _ _ _ _ H5).
    + pose proof (hok_range _ _ _ _ H5) as (R0 & R1 & R2).
      pose proof (get_size_blk s5 _ _ _ (Blk (lo + 24) (64 + 64) false)
                    (ok_tiles _ _ _ _ H5) ltac:(lia) ltac:(lia)
                    (or_introl eq_refl)) as G.
      simpl in G. rewrite G. lia.
Qed.

(** ** The example states *)

Lemma demo_init_reachable : reachable [] demo_init.
Proof.
  apply (reach_init (demo_arena 8192)).
  - repeat split; try reflexivity. intros C. discriminate C.
  - reflexivity.
Qed.

Lemma demo_sbrk (n : Z) :
  0 < n <= 64 -> sbrk_succeeds demo_init (adj_size n) /\
                 sbrk_succeeds demo_alloc (adj_size n).
Proof.
  intros Hn.
  assert (Rn : 0 < n <= MAX_REQUEST) by (unfold MAX_REQUEST; rewrite TWO64_eq; lia).
  destruct (adj_size_facts n Rn) as (E & _). rewrite E.
  unfold sbrk_succeeds, to_long.
  assert (C : (16 + 16 * ((n + 15) / 16) <? 2 ^ 63) = true).
  { apply Z.ltb_lt. Z.to_euclidean_division_equations. lia. }
  rewrite C.
  change (arena_brk demo_init) with 4136. change (arena_max demo_init) with 8192.
  change (arena_brk demo_alloc) with 4168. change (arena_max demo_alloc) with 8192.
  Z.to_euclidean_division_equations. lia.
Qed.

Lemma demo_serviceable (n : Z) :
  0 < n <= 64 -> serviceable demo_init n /\ serviceable demo_alloc n.
Proof.
  intros Hn. destruct (demo_sbrk n Hn) as (S1 & S2).
  assert (Rn : 0 < n <= MAX_REQUEST) by (unfold MAX_REQUEST; rewrite TWO64_eq; lia).
  split; (split; [exact Rn|intros _ _ _; assumption]).
Qed.

Lemma demo_alloc_reachable : reachable [(4128, 16)] demo_alloc.
Proof.
  apply (reach_call [] demo_init 1 (Malloc 16) 4128 demo_alloc demo_init_reachable).
  - right. apply demo_serviceable. lia.
  - reflexivity.
Qed.

Lemma demo_freed_reachable : reachable [] demo_freed.
Proof.
  apply (reach_call [(4128, 16)] demo_alloc 1 (Free 4128) 0 demo_freed
                    demo_alloc_reachable).
  - right. left. reflexivity.
  - reflexivity.
Qed.

Lemma demo_freed_ok : heap_ok demo_freed [Blk 4120 32 false] [4120] [].
Proof.
  constructor; try apply Permutation_refl;
    vm_compute; repeat split; try reflexivity; intros C; discriminate C.
Qed.

Lemma demo_freed_find :
  find (fun a => 32 <=? get_size a demo_freed) [4120] = Some 4120.
Proof. vm_compute. reflexivity. Qed.

(** Whatever the arena provider answers, [create_space] returns the old
    epilogue, and so [malloc] returns a pointer 8 bytes above it whenever
    the search of the free list finds nothing. *)
Lemma create_space_result (size : Z) (s : state) :
  exists s', create_space size s = Ok (mm_heap_last s) s'.
Proof.
  unfold create_space, mem_sbrk. mrun.
  destruct ((0 <=? to_long size) && (arena_brk s + to_long size <=? arena_max s));
    mstep; eauto.
Qed.

Lemma malloc_without_fit (fuel : nat) (n : Z) (s s1 : state) :
  mm_heap_first s <> NULL -> n <> 0 ->
  find_fit fuel (adj_size n) s = Ok NULL s1 ->
  exists s', malloc fuel n s = Ok (incr_pointer W_SIZE (mm_heap_last s1)) s'.
Proof.
  intros Hf Hn E. unfold malloc. mrun.
  assert (E0 : (mm_heap_first s =? 0) = false) by (apply Z.eqb_neq; exact Hf).
  assert (E1 : (n =? 0) = false) by (apply Z.eqb_neq; exact Hn).
  rewrite E0. mstep. rewrite E1. mstep. rewrite E. mstep.
  change (0 =? 0) with true. mstep.
  destruct (create_space_result (adj_size n) s1) as (s' & E'). rewrite E'.
  mstep. eauto.
Qed.

(** A run whose value has been computed ends in the state [state_after]
    names. *)
Lemma run_state_after {A : Type} (c : M A) (s : state) (a : A) :
  value_of c s = Some a -> c s = Ok a (state_after c s).
Proof.
  unfold value_of, state_after. destruct (c s) as [a' s'| |]; intros E.
  - inversion E. reflexivity.
  - discriminate E.
  - discriminate E.
Qed.

(** In a reachable state, a request is serviceable when the arena has room
    for its block above the epilogue. *)
Lemma reachable_serviceable (L : list (Z * Z)) (s : state) (n : Z) :
  reachable L s -> 0 < n <= 64 ->
  mm_heap_last s + 16 + 80 <= arena_max s -> serviceable s n.
Proof.
  intros R Hn Room.
  destruct (reachable_heap_ok L s R) as (bs & fl & H & _).
  assert (Rn : 0 < n <= MAX_REQUEST) by (unfold MAX_REQUEST; rewrite TWO64_eq; lia).
  destruct (adj_size_facts n Rn) as (E & _).
  apply (serviceable_room s bs fl n H Rn); rewrite E.
  - Z.to_euclidean_division_equations. lia.
  - Z.to_euclidean_division_equations. lia.
Qed.

Lemma demo_two_reachable : reachable [(4160, 16); (4128, 16)] demo_two.
Proof.
  apply (reach_call [(4128, 16)] demo_alloc 1 (Malloc 16) 4160 demo_two
                    demo_alloc_reachable).
  - right. apply demo_serviceable. lia.
  - refine (run_state_after (run_call 1 (Malloc 16)) demo_alloc 4160 _).
    vm_compute. reflexivity.
Qed.

Lemma demo_room :
  mm_heap_last demo_two + 16 + 80 <= arena_max demo_two /\
  mm_heap_last demo_three + 16 + 80 <= arena_max demo_three /\
  mm_heap_last demo_hole + 16 + 80 <= arena_max demo_hole /\
  mm_heap_last demo_holes + 16 + 80 <= arena_max demo_holes /\
  mm_heap_last demo_dirty + 16 + 80 <= arena_max demo_dirty /\
  mm_heap_last demo_freed + 16 + 80 <= arena_max demo_freed /\
  mm_heap_last demo_written + 16 + 80 <= arena_max demo_written /\
  mm_heap_last demo_merged + 16 + 80 <= arena_max demo_merged.
Proof. vm_compute. repeat split; intros C; discriminate C. Qed.

Lemma demo_three_reachable :
  reachable [(4192, 16); (4160, 16); (4128, 16)] demo_three.
Proof.
  apply (reach_call _ demo_two 1 (Malloc 16) 4192 demo_three demo_two_reachable).
  - right. apply (reachable_serviceable _ _ 16 demo_two_reachable); [lia|].
    apply demo_room.
  - refine (run_state_after (run_call 1 (Malloc 16)) demo_two 4192 _).
    vm_compute. reflexivity.
Qed.

Lemma demo_hole_reachable : reachable [(4192, 16); (4160, 16)] demo_hole.
Proof.
  apply (reach_call _ demo_three 1 (Free 4128) 0 demo_hole demo_three_reachable).
  - right. right. right. left. reflexivity.
  - refine (run_state_after (run_call 1 (Free 4128)) demo_three 0 _).
    vm_compute. reflexivity.
Qed.

Lemma demo_holes_reachable : reachable [(4160, 16)] demo_holes.
Proof.
  apply (reach_call _ demo_hole 1 (Free 4192) 0 demo_holes demo_hole_reachable).
  - right. left. reflexivity.
  - refine (run_state_after (run_call 1 (Free 4192)) demo_hole 0 _).
    vm_compute. reflexivity.
Qed.

Lemma demo_merged_reachable : reachable [] demo_merged.
Proof.
  apply (reach_call _ demo_holes 1 (Free 4160) 0 demo_merged demo_holes_reachable).
  - right. left. reflexivity.
  - refine (run_state_after (run_call 1 (Free 4160)) demo_holes 0 _).
    vm_compute. reflexivity.
Qed.

Lemma demo_written_reachable : reachable [(4128, 32)] demo_written.
Proof.
  apply (reach_write [(4128, 32)] _ 4128 32 20 170).
  - apply (reach_call [] demo_init 1 (Malloc 32) 4128 _ demo_init_reachable).
    + right. apply demo_serviceable. lia.
    + refine (run_state_after (run_call 1 (Malloc 32)) demo_init 4128 _).
      vm_compute. reflexivity.
  - left. reflexivity.
  - lia.
Qed.

Lemma demo_dirty_reachable : reachable [] demo_dirty.
Proof.
  apply (reach_call _ demo_written 1 (Free 4128) 0 demo_dirty
                    demo_written_reachable).
  - right. left. reflexivity.
  - refine (run_state_after (run_call 1 (Free 4128)) demo_written 0 _).
    vm_compute. reflexivity.
Qed.

(** C1 (the code does not do this).  In an arena that is full right after
    initialisation the free list is empty and [mem_sbrk] returns null, yet
    [malloc(1)] and [calloc(1, 1)] return the non-null pointer 4128: the
    epilogue moves to 4152 although the arena still ends at 4136.  Likewise
    [realloc(p, 64)] of a live [p] returns the non-null pointer 4160 in an
    arena that cannot grow. *)
Theorem malloc_ignores_arena_failure :
  value_of mm_init (demo_arena 4136) = Some 0 /\
  value_of (find_fit 1 (adj_size 1)) full_init = Some NULL /\
  value_of (mem_sbrk (to_long (adj_size 1))) full_init = Some NULL /\
  value_of (malloc 1 1) full_init = Some 4128 /\
  value_of (calloc 1 1 1) full_init = Some 4128 /\
  arena_brk (state_after (malloc 1 1) full_init) = 4136 /\
  mm_heap_last (state_after (malloc 1 1) full_init) = 4152 /\
  value_of (malloc 1 16) (state_after mm_init (demo_arena 4168)) = Some 4128 /\
  value_of (mem_sbrk (to_long (adj_size 64))) full_alloc = Some NULL /\
  value_of (realloc 1 4128 64) full_alloc = Some 4160.
Proof. vm_compute. repeat split; reflexivity. Qed.

(** C2 (the code does not do this).  After [init(); p = malloc(16);
    free(p)], a reachable state, the arena holds one block, which is free,
    and the free list holds that one block; the implicit traversal of
    [mm_checkheap] never counts the first block, so it counts 0 free blocks
    against 1 list node and reports "free list storing more blocks than
    are freed". *)
Theorem checkheap_skips_first_block :
  reachable [] demo_freed /\
  heap_blocks 4 demo_freed (incr_pointer D_SIZE (mm_heap_first demo_freed))
  = Some [Blk 4120 32 false] /\
  free_list 4 demo_freed (mm_free_head demo_freed) = Some [4120] /\
  implicit_free_count 4 demo_freed = Some 0 /\
  free_list_length 4 demo_freed (mm_free_head demo_freed) = Some 1 /\
  mm_checkheap 4 demo_freed = Some [ListStoresMore].
Proof.
  split; [exact demo_freed_reachable|].
  vm_compute. repeat split; reflexivity.
Qed.

(** ** Requests close to 2^64

    [malloc] accepts every size: the block size
    [D_SIZE + round_up(size, D_SIZE)], the split threshold
    [2 * D_SIZE + size] of [find_fit] and the new epilogue of
    [create_space] are computed in [size_t], modulo 2^64, and nothing tests
    for wrap-around.  The five runs below all turn on that omission; in the
    first of them [create_space] also ignores the refusal of [mem_sbrk]. *)

(** C3 (the code does not do this).  After [init(); a = malloc(16);
    b = malloc(16); c = malloc(2^64 - 48); free(b); free(a)] all calls have
    returned, the blocks at 4120 and at 4152 = 4120 + 32 are both free,
    both are nodes of the free list and both lie inside the arena, which
    ends at 4200: two adjacent free blocks that no call has merged.  The
    request of [2^64 - 48] bytes gives the block size [2^64 - 32]; the
    arena provider refuses it, and [create_space] moves the epilogue back
    from 4184 to 4152, so that [free(a)] takes the block at 4152 for the
    epilogue and does not look at it. *)
Theorem adjacent_free_blocks_left_unmerged :
  value_of adjacent_free_run (demo_arena 8192) = Some (4128, 4160, 4192) /\
  adj_size (2 ^ 64 - 48) = 2 ^ 64 - 32 /\
  is_allocated 4120 adjacent_free_state = false /\
  get_size 4120 adjacent_free_state = 32 /\
  is_allocated 4152 adjacent_free_state = false /\
  get_size 4152 adjacent_free_state = 32 /\
  free_list 2 adjacent_free_state (mm_free_head adjacent_free_state)
  = Some [4120; 4152] /\
  mm_heap_last adjacent_free_state = 4152 /\
  arena_brk adjacent_free_state = 4200.
Proof. vm_compute. repeat split; reflexivity. Qed.

(** C5 (the code does not do this).  After [init(); a = malloc(48);
    b = malloc(16); free(b)] the free list holds the single block 4184, of
    32 bytes.  For the block size [adj = 2^64 - 32], which is what
    [malloc(2^64 - 48)] asks for, no block of the list is large enough, yet
    [find_fit(adj)] does not return null: the threshold [2 * D_SIZE + adj]
    wraps around to 0, the block 4184 is split, and [find_fit] returns it.
    The "free half" is written at [4184 + adj mod 2^64 = 4152], inside the
    payload of the live allocation [a = 4128] of 48 bytes, whose word at
    4152 changes from 0 to 64. *)
Theorem find_fit_threshold_wraps :
  value_of wrapped_fit_setup (demo_arena 8192) = Some (4128, 4192) /\
  free_list 2 wrapped_fit_state (mm_free_head wrapped_fit_state) = Some [4184] /\
  get_size 4184 wrapped_fit_state = 32 /\
  adj_size (2 ^ 64 - 48) = 2 ^ 64 - 32 /\
  wrap (2 * D_SIZE + (2 ^ 64 - 32)) = 0 /\
  value_of (find_fit 1 (2 ^ 64 - 32)) wrapped_fit_state = Some 4184 /\
  value_of (malloc 1 (2 ^ 64 - 48)) wrapped_fit_state = Some 4192 /\
  load64 (mem wrapped_fit_state) 4152 = 0 /\
  load64 (mem (state_after (find_fit 1 (2 ^ 64 - 32)) wrapped_fit_state)) 4152
  = 64 /\
  free_list 2 (state_after (find_fit 1 (2 ^ 64 - 32)) wrapped_fit_state)
            (mm_free_head (state_after (find_fit 1 (2 ^ 64 - 32)) wrapped_fit_state))
  = Some [4152].
Proof. vm_compute. repeat split; reflexivity. Qed.

(** C6 (the code does not do this).  After [init(); a = malloc(16);
    b = malloc(16); free(a)] the client writes 0xAA at [b + 8]; the block
    of [b = 4160] has 32 bytes, so [realloc(b, s)] has 16 bytes to
    preserve.  For [s = 2^64 - 20] the block size wraps around to 0;
    [realloc] returns [q = 4128], the payload of the block 4120, which is
    still free and on the free list, and after the call the byte at
    [q + 8] is 0, not 0xAA: the [free(b)] inside [realloc] has written the
    links of the free list over the copied bytes. *)
Theorem realloc_wrapped_size_loses_payload :
  value_of realloc_wrap_setup (demo_arena 8192) = Some (4128, 4160) /\
  get_size (4160 - W_SIZE) realloc_wrap_state = 32 /\
  load8 (mem realloc_wrap_state) (4160 + 8) = 170 /\
  adj_size (2 ^ 64 - 20) = 0 /\
  value_of (realloc 1 4160 (2 ^ 64 - 20)) realloc_wrap_state = Some 4128 /\
  load8 (mem (state_after (realloc 1 4160 (2 ^ 64 - 20)) realloc_wrap_state))
        (4128 + 8) = 0 /\
  is_allocated (4128 - W_SIZE)
    (state_after (realloc 1 4160 (2 ^ 64 - 20)) realloc_wrap_state) = false /\
  free_list 2 (state_after (realloc 1 4160 (2 ^ 64 - 20)) realloc_wrap_state)
    (mm_free_head (state_after (realloc 1 4160 (2 ^ 64 - 20)) realloc_wrap_state))
  = Some [4120].
Proof. vm_compute. repeat split; reflexivity. Qed.

(** C7 (the code does not do this).  The first block header, at
    [heap_first + 16 = 4120], lies 8 bytes above a 16-byte boundary.
    After [init(); a = malloc(16); b = malloc(112); free(a)], the call
    [q = malloc(2^64 - 20)], whose block size wraps around to 0, returns
    the payload 4128 of the block 4120 and leaves that block on the free
    list.  The first word of [q] is the [next] field of that node: once the
    client has stored [b + 9 = 4169] there and a header of 64 bytes at
    4169, inside the payload of [b], [malloc(48)] follows the link and
    returns 4177, which is not a multiple of 16. *)
Theorem misaligned_pointer_returned :
  value_of misaligned_run (demo_arena 8192) = Some (4128, 4160, 4128, 4177) /\
  incr_pointer D_SIZE (mm_heap_first (state_after misaligned_run (demo_arena 8192)))
    mod 16 = 8 /\
  adj_size (2 ^ 64 - 20) = 0 /\
  4177 mod 16 = 1.
Proof. vm_compute. repeat split; reflexivity. Qed.

(** C10 (the code does not do this).  After [init(); p = malloc(2^64 - 1);
    free(p); q = malloc(16)], where the first request gets a block of 16
    bytes at 4120 because its size wraps around, [q = 4144] is the pointer
    returned last and its block 4136 starts inside the link fields of the
    16-byte node.  In [free(q)], [block_append] writes the [prev] field of
    that node over the header of 4136, [coalesce_left] reads a left footer
    of 0 and takes 4136 for its own free left neighbour, and the second
    [block_remove(4136)] finds the [next] field of the head 4120 null
    while the block is not the head: the assertion fails. *)
Theorem block_remove_assertion_fails :
  value_of assert_setup (demo_arena 8192) = Some (4128, 4144) /\
  adj_size (2 ^ 64 - 1) = 16 /\
  free_list 2 assert_state (mm_free_head assert_state) = Some [4120] /\
  get_size 4120 assert_state = 16 /\
  free 4144 assert_state = AssertFail.
Proof. vm_compute. repeat split; reflexivity. Qed.

(** ** Instances of the theorems on the example states *)


Lemma split_and_coalesce_scenario_witness :
  fresh (demo_arena 8192) /\
  exists p q s5,
    (mm_init ;;
     p <- malloc 1 48 ;;
     q <- malloc 1 48 ;;
     free p ;;
     free q ;;
     ret (p, q)) (demo_arena 8192) = Ok (p, q) s5 /\
    exists b, free_list 1 s5 (mm_free_head s5) = Some [b] /\
              128 <= get_size b s5.
Proof.
  assert (F : fresh (demo_arena 8192)).
  { unfold fresh. simpl. rewrite TWO64_eq. lia. }
  split; [exact F|].
  apply (split_and_coalesce_scenario (demo_arena 8192) 1 F).
  simpl. lia.
Defined.

Lemma calloc_wraps_and_zero_fills_witness :
  wrap (0 * 5) = 0 /\
  (exists s', calloc 1 0 5 demo_dirty = Ok NULL s') /\
  reachable [] demo_dirty /\ serviceable demo_dirty (wrap (4 * 8)) /\
  load8 (mem demo_dirty) (4128 + 20) = 170 /\
  calloc 1 4 8 demo_dirty = Ok 4128 (state_after (calloc 1 4 8) demo_dirty) /\
  4128 <> NULL /\
  load8 (mem (state_after (calloc 1 4 8) demo_dirty)) (4128 + 20) = 0 /\
  exists fuel0, forall f, (fuel0 <= f)%nat ->
    exists q s', calloc f 4 8 demo_dirty = Ok q s' /\ q <> NULL.
Proof.
  assert (Sv : serviceable demo_dirty (wrap (4 * 8))).
  { apply (reachable_serviceable _ _ _ demo_dirty_reachable).
    - vm_compute. split; [reflexivity|intros C; discriminate C].
    - apply demo_room. }
  assert (E : calloc 1 4 8 demo_dirty
              = Ok 4128 (state_after (calloc 1 4 8) demo_dirty)).
  { refine (run_state_after (calloc 1 4 8) demo_dirty 4128 _).
    vm_compute. reflexivity. }
  assert (N : 4128 <> NULL) by lia.
  split; [reflexivity|].
  split; [apply (proj1 (calloc_wraps_and_zero_fills 1 0 5 demo_dirty)); reflexivity|].
  split; [exact demo_dirty_reachable|]. split; [exact Sv|].
  split; [vm_compute; reflexivity|]. split; [exact E|]. split; [exact N|].
  destruct (calloc_wraps_and_zero_fills 1 4 8 demo_dirty)
    as (_ & _ & _ & _ & Zero & Succ).
  split.
  - apply (Zero 4128 _ E N 20). vm_compute. split; [intros C; discriminate C|reflexivity].
  - destruct (Succ [] demo_dirty_reachable Sv) as (f0 & W).
    exists f0. intros f Le. destruct (W f Le) as (q & s' & Eq & Nq & _).
    exists q, s'. split; [exact Eq|exact Nq].
Defined.

(** * Further properties of the code *)

(** ** Sizes and boundary tags *)

(** X1.  [round_up(size, n)] is the least multiple of [n] that is not below
    [size], as long as [size + n - 1] does not exceed the 64-bit range. *)
Theorem round_up_least_multiple (size n : Z) :
  0 <= size -> 0 < n -> size + n - 1 < TWO64 ->
  round_up size n mod n = 0 /\ size <= round_up size n < size + n.
Proof.
  intros Hs Hn Hb. unfold round_up.
  rewrite (wrap_small (size + n - 1)) by lia.
  assert (R : 0 <= (size + n - 1) / n * n <= size + n - 1).
  { Z.to_euclidean_division_equations. nia. }
  rewrite wrap_small by lia.
  split; [apply Z.mod_mul; lia|].
  Z.to_euclidean_division_equations. nia.
Qed.

(** X2.  The block size that [malloc] computes for a request of [n] bytes,
    [D_SIZE + round_up(n, D_SIZE)], leaves room for the payload and the two
    tags exactly when [n <= 2^64 - 32]; for a larger request the sum wraps
    around and the block size is at most 16, less than the request. *)
Theorem adj_size_covers_request (n : Z) :
  0 < n < TWO64 ->
  (n <= TWO64 - 32 ->
   adj_size n = 16 + 16 * ((n + 15) / 16) /\ n + 16 <= adj_size n < n + 32) /\
  (TWO64 - 32 < n -> adj_size n <= 16 /\ adj_size n < n).
Proof.
  intros Hn. unfold adj_size, round_up. rewrite TWO64_eq in *.
  split; intros Hb.
  - replace (n + 16 - 1) with (n + 15) by lia.
    rewrite (wrap_small (n + 15)) by (rewrite TWO64_eq; lia).
    rewrite (wrap_small ((n + 15) / 16 * 16))
      by (rewrite TWO64_eq; Z.to_euclidean_division_equations; lia).
    rewrite wrap_small
      by (rewrite TWO64_eq; Z.to_euclidean_division_equations; lia).
    Z.to_euclidean_division_equations. lia.
  - replace (n + 16 - 1) with (n + 15) by lia.
    unfold wrap. rewrite TWO64_eq.
    Z.to_euclidean_division_equations. lia.
Qed.

(** X3.  Writing a header with [set_header] and then the footer with
    [set_footer] can be read back: [get_size] and [is_allocated] return the
    size and the flag that were written, [get_footer_from_header] finds the
    footer in the last word of the block, and the footer holds the same
    word as the header. *)
Theorem boundary_tags_round_trip (block size : Z) (a : bool) (s : state) :
  0 < block -> 16 <= size -> size mod 16 = 0 -> block + size <= TWO64 ->
  let s1 := set_header block size a s in
  let s2 := set_footer block s1 in
  get_size block s1 = size /\ is_allocated block s1 = a /\
  get_size block s2 = size /\ is_allocated block s2 = a /\
  get_footer_from_header block s2 = block + size - W_SIZE /\
  load64 (mem s2) (get_footer_from_header block s2) = load64 (mem s2) block.
Proof.
  intros Hb Hs Hm Hr s1 s2.
  assert (T : 0 <= tag size a < TWO64) by (apply tag_range; lia).
  assert (G1 : load64 (mem s1) block = tag size a).
  { unfold s1, set_header. simpl. rewrite load64_store64_same.
    rewrite lor_flag by lia. apply wrap_small. exact T. }
  assert (E2 : s2 = set_mem (store64 (store64 (mem s) block (tag size a))
                                     (block + size - 8) (tag size a)) s).
  { unfold s2, s1. apply write_tag_eq; lia. }
  assert (G2 : load64 (mem s2) block = tag size a).
  { rewrite E2. simpl.
    rewrite load64_store64_other by lia.
    rewrite load64_store64_same. apply wrap_small. exact T. }
  assert (F2 : load64 (mem s2) (block + size - 8) = tag size a).
  { rewrite E2. simpl. rewrite load64_store64_same. apply wrap_small. exact T. }
  assert (GF : get_footer_from_header block s2 = block + size - 8).
  { unfold get_footer_from_header. rewrite G2.
    rewrite get_size_tag by lia.
    rewrite (wrap_small (size - 8)) by lia.
    rewrite incr_pointer_eq by lia. lia. }
  unfold get_size, is_allocated. rewrite G1, G2, GF, F2.
  rewrite get_size_tag by lia. rewrite is_allocated_tag by lia.
  repeat split; reflexivity.
Qed.

(** ** Degenerate arguments and initialisation *)

(** X4.  [realloc(NULL, n)] is [malloc(n)] for every [n], zero included,
    and [realloc(p, 0)] is [free(p)] followed by a null result. *)
Theorem realloc_degenerate_arguments (fuel : nat) (p n : Z) (s : state) :
  realloc fuel NULL n s = malloc fuel n s /\
  realloc fuel p 0 s = (free p ;; ret NULL) s.
Proof.
  split; [|reflexivity].
  unfold realloc. destruct (n =? 0) eqn:En; [|reflexivity].
  apply Z.eqb_eq in En. subst n.
  unfold free, malloc. mrun. change (0 =? 0) with true.
  destruct (mm_heap_first s =? 0); mstep; [|reflexivity].
  destruct (mm_init s); reflexivity.
Qed.

(** X5.  On an empty arena, whatever the three globals and the memory held
    before, [mm_init] succeeds exactly when the arena can supply 40 bytes.
    It then returns 0 with the prologue 8 bytes above the low end of the
    arena, the epilogue 16 bytes below its new top, an empty free list and
    the memory untouched.  Otherwise it returns -1 and leaves the prologue
    and the epilogue as they were. *)
Theorem mm_init_outcome (s0 : state) :
  fresh s0 ->
  (arena_lo s0 + 40 <= arena_max s0 ->
   exists s,
     mm_init s0 = Ok 0 s /\
     mm_heap_first s = arena_lo s0 + 8 /\ mm_heap_last s = arena_lo s0 + 24 /\
     mm_free_head s = NULL /\ arena_brk s = arena_lo s0 + 40 /\
     mem s = mem s0 /\ reachable [] s) /\
  (arena_max s0 < arena_lo s0 + 40 ->
   mm_init s0 = Ok (-1) (set_free_head NULL s0)).
Proof.
  intros F. pose proof F as (L0 & B0 & M0). split; intros Hr.
  - destruct (init_ok s0 F Hr) as (s & E). exists s.
    split; [exact E|].
    pose proof (reach_init s0 s F E) as R.
    destruct (init_inv s0 s F E) as ((H & _) & Lo & Mx & Hl).
    split; [rewrite (ok_first _ _ _ _ H); lia|]. split; [exact Hl|].
    split; [apply (dll_hd _ _ _ _ _ (ok_dll _ _ _ _ H))|].
    split; [rewrite (ok_brk _ _ _ _ H); lia|]. split; [|exact R].
    revert E. unfold mm_init, mem_sbrk. mrun.
    change (to_long (wrap (2 * 16 + 8))) with 40. simpl arena_brk. simpl arena_max.
    destruct ((0 <=? 40) && (arena_brk s0 + 40 <=? arena_max s0)); mstep.
    + destruct (arena_brk s0 =? 0); intros E; inversion E. reflexivity.
    + change (0 =? 0) with true. cbv iota. intros E. inversion E.
  - unfold mm_init, mem_sbrk. mrun.
    change (to_long (wrap (2 * 16 + 8))) with 40. simpl arena_brk. simpl arena_max.
    assert (C : ((0 <=? 40) && (arena_brk s0 + 40 <=? arena_max s0)) = false).
    { apply andb_false_iff. right. apply Z.leb_gt. lia. }
    rewrite C. mstep. reflexivity.
Qed.

(** X6.  The allocator initialises itself on first use: on a fresh arena
    with room for the initial 40 bytes, a [malloc] or [free] issued while
    the prologue is still null behaves as [mm_init] followed by that call. *)
Theorem lazy_initialisation (s0 : state) (fuel : nat) (n p : Z) :
  fresh s0 -> mm_heap_first s0 = NULL -> arena_lo s0 + 40 <= arena_max s0 ->
  malloc fuel n s0 = (mm_init ;; malloc fuel n) s0 /\
  free p s0 = (mm_init ;; free p) s0.
Proof.
  intros F H0 Hr. destruct (init_ok s0 F Hr) as (s & E).
  destruct (init_inv s0 s F E) as ((H & _) & Lo & _).
  pose proof F as (L0 & _).
  assert (E1 : (mm_heap_first s =? 0) = false).
  { apply Z.eqb_neq. rewrite (ok_first _ _ _ _ H). lia. }
  split.
  - unfold malloc at 1. mrun. rewrite H0. change (0 =? 0) with true. mstep.
    rewrite E. mstep. unfold malloc. mrun. rewrite E1. reflexivity.
  - unfold free at 1. mrun. rewrite H0. change (0 =? 0) with true. mstep.
    rewrite E. mstep. unfold free. mrun. rewrite E1. reflexivity.
Qed.

(** ** [free] never moves the bounds of the heap *)

Lemma block_remove_frame (b : Z) (s s' : state) :
  block_remove b s = Ok tt s' -> same_frame s s'.
Proof.
  unfold block_remove, assert. mrun.
  destruct (get_next (mm_free_head s) s =? 0); mstep.
  - destruct (b =? mm_free_head s); intros E; inversion E.
    repeat split.
  - destruct (b =? mm_free_head s); mstep.
    + intros E; inversion E. repeat split.
    + destruct (get_next b s =? 0); mstep; intros E; inversion E; repeat split.
Qed.

Lemma block_append_frame (b : Z) (s : state) : same_frame s (block_append b s).
Proof.
  unfold block_append. simpl.
  destruct (mm_free_head s =? 0); repeat split.
Qed.

Lemma coalesce_left_frame (b : Z) (s : state) (r : Z) (s' : state) :
  coalesce_left b s = Ok r s' -> same_frame s s'.
Proof.
  unfold coalesce_left. mrun.
  destruct (decr_pointer 8 b =? incr_pointer 8 (mm_heap_first s)); mstep;
    [intros E; inversion E; apply same_frame_refl|].
  destruct (is_allocated _ s); mstep;
    [intros E; inversion E; apply same_frame_refl|].
  destruct (block_remove b s) as [[] s1| |] eqn:E1; try discriminate.
  destruct (block_remove _ s1) as [[] s2| |] eqn:E2; try discriminate.
  intros E; inversion E.
  apply block_remove_frame in E1. apply block_remove_frame in E2.
  eapply same_frame_trans; [exact E1|].
  eapply same_frame_trans; [exact E2|].
  eapply same_frame_trans; [|apply block_append_frame].
  repeat split.
Qed.

Lemma coalesce_frame (b : Z) (s s' : state) :
  coalesce b s = Ok tt s' -> same_frame s s'.
Proof.
  unfold coalesce. mrun.
  destruct (coalesce_left b s) as [x s1| |] eqn:E1; try discriminate.
  apply coalesce_left_frame in E1.
  destruct (incr_pointer (get_size x s1) x =? mm_heap_last s1); mstep;
    [intros E; inversion E; subst; exact E1|].
  destruct (is_allocated _ s1); mstep;
    [intros E; inversion E; subst; exact E1|].
  destruct (coalesce_left _ s1) as [y s2| |] eqn:E2; try discriminate.
  intros E; inversion E; subst.
  apply coalesce_left_frame in E2. eapply same_frame_trans; eassumption.
Qed.

(** X7.  Whatever pointer it is given, a [free] that returns on an
    initialised allocator changes neither the prologue nor the epilogue nor
    the extent of the arena: freed memory is never handed back to the
    arena provider. *)
Theorem free_keeps_bounds (p : Z) (s s' : state) :
  mm_heap_first s <> NULL -> free p s = Ok tt s' -> same_frame s s'.
Proof.
  intros Hf. unfold free. mrun.
  assert (E0 : (mm_heap_first s =? 0) = false) by (apply Z.eqb_neq; exact Hf).
  rewrite E0. mstep.
  destruct (p =? 0); mstep; [intros E; inversion E; apply same_frame_refl|].
  intros E. apply coalesce_frame in E.
  eapply same_frame_trans; [|exact E].
  eapply same_frame_trans; [|apply block_append_frame].
  repeat split.
Qed.

(** ** The heap and the free list in reachable states *)

Lemma heap_blocks_mono (f f' : nat) (s : state) (a : Z) (bs : list blk) :
  heap_blocks f s a = Some bs -> (f <= f')%nat -> heap_blocks f' s a = Some bs.
Proof.
  revert f' a bs. induction f as [|f IH]; intros f' a bs E Le.
  - destruct f'; simpl in *; destruct (a =? mm_heap_last s); congruence.
  - destruct f' as [|f']; [lia|]. simpl in *.
    destruct (a =? mm_heap_last s); [exact E|].
    destruct (heap_blocks f s _) as [l|] eqn:El; [|discriminate].
    rewrite (IH f' _ l El ltac:(lia)). exact E.
Qed.

Lemma hok_heap_blocks (s : state) (bs : list blk) (fl out : list Z) :
  heap_ok s bs fl out ->
  heap_blocks (length bs) s (incr_pointer 16 (mm_heap_first s)) = Some bs.
Proof.
  intros H. pose proof (hok_range _ _ _ _ H) as (R0 & R1 & R2).
  rewrite (ok_first _ _ _ _ H). rewrite incr_pointer_eq by lia.
  replace (arena_lo s + 8 + 16) with (arena_lo s + 24) by lia.
  apply tiles_heap_blocks; [apply (ok_tiles _ _ _ _ H)|lia|lia].
Qed.

Lemma hok_free_list (s : state) (bs : list blk) (fl : list Z) :
  heap_ok s bs fl [] -> free_list (length fl) s (mm_free_head s) = Some fl.
Proof.
  intros H. eapply dll_free_list; [apply (ok_dll _ _ _ _ H)|].
  apply (hok_spaced _ _ _ _ H).
Qed.

(** The state determines the block sequence. *)
Lemma hok_blocks_unique (s : state) (bs bs' : list blk) (fl fl' out out' : list Z) :
  heap_ok s bs fl out -> heap_ok s bs' fl' out' -> bs = bs'.
Proof.
  intros H H'.
  pose proof (heap_blocks_mono _ (length bs + length bs') _ _ _
                (hok_heap_blocks _ _ _ _ H) ltac:(lia)) as E.
  pose proof (heap_blocks_mono _ (length bs + length bs') _ _ _
                (hok_heap_blocks _ _ _ _ H') ltac:(lia)) as E'.
  congruence.
Qed.

Lemma blocks_of_reachable (L : list (Z * Z)) (s : state) (f : nat) (bs : list blk) :
  reachable L s ->
  heap_blocks f s (incr_pointer 16 (mm_heap_first s)) = Some bs ->
  exists fl, Inv L s bs fl.
Proof.
  intros R E. destruct (reachable_inv L s R) as (bs0 & fl & I).
  exists fl.
  pose proof (heap_blocks_mono _ (f + length bs0) _ _ _ E ltac:(lia)) as E1.
  pose proof (heap_blocks_mono _ (f + length bs0) _ _ _
                (Inv_heap_blocks _ _ _ _ I) ltac:(lia)) as E2.
  rewrite E1 in E2. inversion E2; subst. exact I.
Qed.

Lemma tiles_total (m : memory) (bs : list blk) (a e : Z) :
  tiles m a bs e -> a + total_size bs = e.
Proof.
  revert a. induction bs as [|b bs IH]; intros a T.
  - simpl in *. lia.
  - destruct T as (_ & _ & _ & _ & _ & T). specialize (IH _ T).
    change (total_size (b :: bs)) with (b_size b + total_size bs). lia.
Qed.

Lemma footer_of_block (s : state) (bs : list blk) (a e : Z) (b : blk) :
  tiles (mem s) a bs e -> 0 < a -> e <= TWO64 -> In b bs ->
  get_footer_from_header (b_addr b) s = b_addr b + b_size b - 8.
Proof.
  intros T A0 E0 Ib.
  pose proof (tiles_in _ _ _ _ _ T Ib) as (B0 & B1 & B2 & B3 & Hd & Ft).
  unfold get_footer_from_header. rewrite Hd.
  rewrite get_size_tag by lia. rewrite (wrap_small (b_size b - 8)) by lia.
  rewrite incr_pointer_eq by lia. lia.
Qed.

(** X8.  In every state reachable under the client contract (from a
    successful [mm_init] on an empty arena, through calls whose pointer
    arguments are null or live and whose sizes, for [calloc] the product
    modulo 2^64, are zero or serviceable, that is from 1 to 2^64 - 64 bytes
    with the arena able to grow whenever no free block fits, and through
    client writes inside live payloads), the blocks found by following the
    sizes in the headers cover the heap exactly, from the first block to the
    epilogue, which lies 16 bytes below the top of the arena; every block
    has a size of at least 32 that is a multiple of 16, and its footer, in
    its last word, equals its header. *)
Theorem heap_is_tiled_by_blocks (L : list (Z * Z)) (s : state) :
  reachable L s ->
  exists f bs,
    let first := incr_pointer D_SIZE (mm_heap_first s) in
    heap_blocks f s first = Some bs /\
    first + total_size bs = mm_heap_last s /\
    mm_heap_last s + D_SIZE = arena_brk s /\
    forall b, In b bs ->
      32 <= b_size b /\ b_size b mod 16 = 0 /\
      first <= b_addr b /\ b_addr b + b_size b <= mm_heap_last s /\
      get_footer_from_header (b_addr b) s = b_addr b + b_size b - W_SIZE /\
      load64 (mem s) (get_footer_from_header (b_addr b) s)
      = load64 (mem s) (b_addr b).
Proof.
  intros R. destruct (reachable_inv L s R) as (bs & fl & (H & _)).
  pose proof (hok_range _ _ _ _ H) as (R0 & R1 & R2).
  pose proof (ok_tiles _ _ _ _ H) as T.
  exists (length bs), bs. cbv zeta.
  split; [eapply hok_heap_blocks; exact H|].
  rewrite (ok_first _ _ _ _ H). rewrite incr_pointer_eq by lia.
  replace (arena_lo s + 8 + 16) with (arena_lo s + 24) by lia.
  split; [apply (tiles_total _ _ _ _ T)|].
  split; [rewrite (ok_brk _ _ _ _ H); reflexivity|].
  intros b Ib.
  pose proof (tiles_in _ _ _ _ _ T Ib) as (B0 & B1 & B2 & B3 & Hd & Ft).
  rewrite (footer_of_block s bs _ _ b T) by (auto; lia).
  rewrite Hd, Ft. repeat split; auto.
Qed.

(** X9.  In every state reachable under the client contract (from a
    successful [mm_init] on an empty arena, through calls whose pointer
    arguments are null or live and whose sizes, for [calloc] the product
    modulo 2^64, are zero or serviceable, that is from 1 to 2^64 - 64 bytes
    with the arena able to grow whenever no free block fits, and through
    client writes inside live payloads), the free list holds exactly the
    unallocated blocks of the heap, each once: the list read along the
    [next] fields is a permutation of the addresses of the free blocks found
    by the implicit traversal, it has no duplicates, and every node of it is
    marked free. *)
Theorem free_list_holds_free_blocks (L : list (Z * Z)) (s : state) :
  reachable L s ->
  exists f1 f2 bs fl,
    heap_blocks f1 s (incr_pointer D_SIZE (mm_heap_first s)) = Some bs /\
    free_list f2 s (mm_free_head s) = Some fl /\
    Permutation fl (free_addrs bs) /\ NoDup fl /\
    forall b, In b fl -> is_allocated b s = false.
Proof.
  intros R. destruct (reachable_heap_ok L s R) as (bs & fl & H & Eb & Ef).
  exists (length bs), (length fl), bs, fl.
  split; [exact Eb|]. split; [exact Ef|].
  pose proof (ok_perm _ _ _ _ H) as P. simpl in P.
  split; [exact P|]. split.
  - apply spaced_NoDup. apply (hok_spaced _ _ _ _ H).
  - intros b Ib. destruct (hok_node _ _ _ _ b H Ib) as (B & IB & EB & AB).
    rewrite <- EB, (is_allocated_blk s bs _ _ B (ok_tiles _ _ _ _ H) IB).
    exact AB.
Qed.

Lemma dll_links (m : memory) (l1 l2 : list Z) (b c p h : Z) :
  dll m p h (l1 ++ b :: c :: l2) NULL ->
  load64 m (b + 8) = c /\ load64 m (c + 16) = b.
Proof.
  revert p h. induction l1 as [|a l1 IH]; intros p h D.
  - simpl in D. destruct D as (_ & _ & _ & Ec & _ & Ep & _). auto.
  - simpl in D. destruct D as (_ & _ & _ & D). eapply IH. exact D.
Qed.

Lemma dll_end (m : memory) (l : list Z) (b p h : Z) :
  dll m p h (l ++ [b]) NULL -> load64 m (b + 8) = NULL.
Proof.
  revert p h. induction l as [|a l IH]; intros p h D.
  - simpl in D. destruct D as (_ & _ & _ & E). exact E.
  - simpl in D. destruct D as (_ & _ & _ & D). eapply IH. exact D.
Qed.

(** X10.  In every state reachable under the client contract (from a
    successful [mm_init] on an empty arena, through calls whose pointer
    arguments are null or live and whose sizes, for [calloc] the product
    modulo 2^64, are zero or serviceable, that is from 1 to 2^64 - 64 bytes
    with the arena able to grow whenever no free block fits, and through
    client writes inside live payloads), the free list is a well-formed
    doubly-linked list: [free_head] is its first node and has a null [prev],
    the [prev] field of every other node points to the node whose [next]
    field points to it, and the last node has a null [next]. *)
Theorem free_list_doubly_linked (L : list (Z * Z)) (s : state) :
  reachable L s ->
  exists fuel fl,
    free_list fuel s (mm_free_head s) = Some fl /\
    mm_free_head s = hd NULL fl /\
    (mm_free_head s <> NULL -> get_prev (mm_free_head s) s = NULL) /\
    (forall l1 b c l2, fl = l1 ++ b :: c :: l2 ->
                       get_next b s = c /\ get_prev c s = b) /\
    (forall l b, fl = l ++ [b] -> get_next b s = NULL).
Proof.
  intros R. destruct (reachable_heap_ok L s R) as (bs & fl & H & _ & Ef).
  exists (length fl), fl. split; [exact Ef|].
  pose proof (ok_dll _ _ _ _ H) as D.
  pose proof (hok_spaced _ _ _ _ H) as S. simpl in S.
  assert (Rg : forall x, In x fl -> 0 <= x /\ x + 32 <= TWO64).
  { intros x Ix. pose proof (spaced_range _ _ S Ix). lia. }
  split; [apply (dll_hd _ _ _ _ _ D)|]. split; [|split].
  - intros Nh. destruct fl as [|a l]; simpl in D; [congruence|].
    destruct D as (-> & _ & Ep & _).
    rewrite get_prev_eq; [exact Ep| |]; apply Rg; left; reflexivity.
  - intros l1 b c l2 ->.
    destruct (dll_links _ _ _ _ _ _ _ D) as (En & Ep).
    rewrite get_next_eq, get_prev_eq; auto;
      apply Rg; apply in_or_app; simpl; auto.
  - intros l b ->. rewrite get_next_eq.
    + eapply dll_end. exact D.
    + apply Rg. apply in_or_app. simpl. auto.
    + apply Rg. apply in_or_app. simpl. auto.
Qed.

(** X11.  On a well-formed heap, [block_append] of a free block that is off
    the list puts it at the front of the free list, ahead of the former
    nodes in their old order; [block_remove] of the same block right after
    returns and restores the list and its head. *)
Theorem append_then_remove_restores_list (s : state) (bs : list blk)
        (fl out : list Z) (b : Z) :
  heap_ok s bs fl out -> In b out ->
  let s1 := block_append b s in
  mm_free_head s1 = b /\
  free_list (S (length fl)) s1 (mm_free_head s1) = Some (b :: fl) /\
  exists s2,
    block_remove b s1 = Ok tt s2 /\
    mm_free_head s2 = mm_free_head s /\
    free_list (length fl) s2 (mm_free_head s2) = Some fl.
Proof.
  intros H Ib s1.
  destruct (block_append_ok s bs fl out b H Ib) as (H1 & _ & _).
  fold s1 in H1.
  pose proof (hok_spaced _ _ _ _ H1) as S1. apply spaced_app_r in S1.
  pose proof (ok_dll _ _ _ _ H1) as D1.
  split; [apply (dll_hd _ _ _ _ _ D1)|]. split.
  - apply (dll_free_list s1 (b :: fl) _ _ D1 S1).
  - destruct (block_remove_ok s1 bs (b :: fl) _ b H1 (or_introl eq_refl))
      as (E2 & H2 & _).
    exists (direct_unlink b s1). split; [exact E2|].
    assert (Nb : ~ In b fl).
    { pose proof (spaced_NoDup _ S1) as N. inversion N. assumption. }
    assert (Er : remove_addr b (b :: fl) = fl).
    { unfold remove_addr. cbn [filter]. rewrite Z.eqb_refl. cbn [negb].
      apply remove_addr_notin. exact Nb. }
    rewrite Er in H2.
    pose proof (ok_dll _ _ _ _ H2) as D2.
    pose proof (hok_spaced _ _ _ _ H2) as S2. apply spaced_app_r in S2.
    split.
    + rewrite (dll_hd _ _ _ _ _ D2).
      symmetry. apply (dll_hd _ _ _ _ _ (ok_dll _ _ _ _ H)).
    + apply (dll_free_list _ fl _ _ D2 S2).
Qed.

(** ** Live allocations *)

Lemma NoDup_map_filter {A B : Type} (f : A -> B) (g : A -> bool) (l : list A) :
  NoDup (map f l) -> NoDup (map f (filter g l)).
Proof.
  induction l as [|a l IH]; simpl; intros N; [constructor|].
  inversion N as [|x l' Nx Nl]; subst.
  destruct (g a); simpl; [|auto].
  constructor; [|auto].
  intros C. apply Nx. apply in_map_iff in C. destruct C as (y & Ey & Iy).
  apply filter_In in Iy. apply in_map_iff. exists y. tauto.
Qed.

Lemma in_map_drop (p q : Z) (L : list (Z * Z)) :
  In q (map fst (drop p L)) -> In q (map fst L).
Proof.
  intros C. apply in_map_iff in C. destruct C as ((x & n) & Ex & Ix).
  apply in_drop in Ix. apply in_map_iff. exists (x, n). tauto.
Qed.

(** The pointer returned by [malloc] for a serviceable request is not live. *)
Lemma malloc_result_fresh (L : list (Z * Z)) (s : state) (bs : list blk)
      (fl : list Z) (n : Z) (fuel : nat) (r : Z) (s' : state) :
  Inv L s bs fl -> serviceable s n -> malloc fuel n s = Ok r s' ->
  r <> NULL /\ ~ In r (map fst L).
Proof.
  intros I Sv E.
  destruct (malloc_ok L s bs fl n (fuel + length fl) I Sv ltac:(lia))
    as (p & s1 & bs' & fl' & E' & Np & _ & _ & _ & _ & Fr & _).
  pose proof (malloc_mono fuel (fuel + length fl) n s _ E
                ltac:(discriminate) ltac:(lia)) as E2.
  rewrite E2 in E'. inversion E'; subst. auto.
Qed.

(** [realloc] and [calloc] return what their inner [malloc] returned. *)
Lemma realloc_result (fuel : nat) (p n r : Z) (s s' : state) :
  realloc fuel p n s = Ok r s' -> (n =? 0) = false ->
  exists s1, malloc fuel n s = Ok r s1.
Proof.
  intros E En. unfold realloc in E. rewrite En in E.
  destruct (p =? 0); [eauto|]. revert E. mrun.
  destruct (malloc fuel n s) as [q s1| |]; try discriminate.
  destruct (q =? 0) eqn:Eq; mstep.
  - intros E; inversion E; subst. apply Z.eqb_eq in Eq. subst. eauto.
  - destruct (free p _) as [[] s2| |]; try discriminate.
    intros E; inversion E; subst. eauto.
Qed.

Lemma calloc_result (fuel : nat) (k n r : Z) (s s' : state) :
  calloc fuel k n s = Ok r s' ->
  exists s1, malloc fuel (wrap (k * n)) s = Ok r s1.
Proof.
  unfold calloc. mrun.
  destruct (malloc fuel (wrap (k * n)) s) as [q s1| |]; try discriminate.
  destruct (q =? 0); mstep; intros E; inversion E; subst; eauto.
Qed.

Lemma reachable_nodup (L : list (Z * Z)) (s : state) :
  reachable L s -> NoDup (map fst L).
Proof.
  induction 1 as [s0 s F E|L s fuel c r s' R IH A E|L s p n i v R IH Ip Hi].
  - constructor.
  - destruct (reachable_inv L s R) as (bs & fl & I).
    destruct c as [n|p|p n|k n]; simpl in *.
    + destruct (n =? 0) eqn:En; [exact IH|].
      destruct A as [->|Sv]; [discriminate|].
      simpl. constructor; [|exact IH].
      eapply malloc_result_fresh; eassumption.
    + apply NoDup_map_filter. exact IH.
    + destruct (n =? 0) eqn:En; [apply NoDup_map_filter; exact IH|].
      destruct A as (_ & [->|Sv]); [discriminate|].
      simpl. constructor; [|apply NoDup_map_filter; exact IH].
      destruct (realloc_result _ _ _ _ _ _ E En) as (s1 & Em).
      intros C. apply in_map_drop in C.
      eapply malloc_result_fresh; eassumption.
    + destruct (wrap (k * n) =? 0) eqn:En; [exact IH|].
      destruct A as [C|Sv]; [rewrite C in En; discriminate|].
      simpl. constructor; [|exact IH].
      destruct (calloc_result _ _ _ _ _ _ E) as (s1 & Em).
      eapply malloc_result_fresh; eassumption.
  - exact IH.
Qed.

(** X12.  In every state reachable under the client contract (from a
    successful [mm_init] on an empty arena, through calls whose pointer
    arguments are null or live and whose sizes, for [calloc] the product
    modulo 2^64, are zero or serviceable, that is from 1 to 2^64 - 64 bytes
    with the arena able to grow whenever no free block fits, and through
    client writes inside live payloads), the block of a live allocation of
    [n] bytes at [p] starts at [p - 8], is marked allocated, has room for
    the [n] bytes and the two tags, and lies between the first block and the
    epilogue, hence inside the arena. *)
Theorem live_blocks_allocated_in_heap (L : list (Z * Z)) (s : state) (p n : Z) :
  reachable L s -> In (p, n) L ->
  0 < n /\
  is_allocated (p - W_SIZE) s = true /\
  n + D_SIZE <= get_size (p - W_SIZE) s /\
  mm_heap_first s + D_SIZE <= p - W_SIZE /\
  p - W_SIZE + get_size (p - W_SIZE) s <= mm_heap_last s /\
  mm_heap_last s + D_SIZE = arena_brk s.
Proof.
  intros R Ip. destruct (reachable_inv L s R) as (bs & fl & (H & _ & LV)).
  destruct (LV p n Ip) as (Hn & b & Ib & Eb & Ab & Sb).
  pose proof (hok_range _ _ _ _ H) as (R0 & R1 & R2).
  pose proof (ok_tiles _ _ _ _ H) as T.
  pose proof (tiles_in _ _ _ _ _ T Ib) as (T1 & T2 & _).
  pose proof (get_size_blk s bs _ _ b T ltac:(lia) ltac:(lia) Ib) as G.
  pose proof (is_allocated_blk s bs _ _ b T Ib) as A.
  rewrite Eb in *. rewrite G, A, (ok_first _ _ _ _ H), (ok_brk _ _ _ _ H).
  repeat split; try lia. exact Ab.
Qed.

(** X13.  In every state reachable under the client contract (from a
    successful [mm_init] on an empty arena, through calls whose pointer
    arguments are null or live and whose sizes, for [calloc] the product
    modulo 2^64, are zero or serviceable, that is from 1 to 2^64 - 64 bytes
    with the arena able to grow whenever no free block fits, and through
    client writes inside live payloads), no pointer is live twice, and the
    payloads of two different live allocations do not overlap. *)
Theorem live_payloads_disjoint (L : list (Z * Z)) (s : state) :
  reachable L s ->
  NoDup (map fst L) /\
  forall p n q m, In (p, n) L -> In (q, m) L -> p <> q ->
                  p + n <= q \/ q + m <= p.
Proof.
  intros R. split; [eapply reachable_nodup; exact R|].
  intros p n q m Ip Iq Npq.
  destruct (reachable_inv L s R) as (bs & fl & (H & _ & LV)).
  destruct (LV p n Ip) as (Hn & b & Ib & Eb & Ab & Sb).
  destruct (LV q m Iq) as (Hm & b' & Ib' & Eb' & Ab' & Sb').
  pose proof (ok_tiles _ _ _ _ H) as T.
  destruct (tiles_far _ _ _ _ b b' T Ib Ib') as [->|[F|F]]; lia.
Qed.

(** ** Calls leave the other live payloads alone *)

Lemma malloc_live_frame (L : list (Z * Z)) (s : state) (bs : list blk)
      (fl : list Z) (n : Z) (fuel : nat) (r : Z) (s' : state) :
  Inv L s bs fl -> serviceable s n -> malloc fuel n s = Ok r s' ->
  others_kept L NULL s s'.
Proof.
  intros I Sv E q m i Iq _ Hi.
  destruct (malloc_ok L s bs fl n (fuel + length fl) I Sv ltac:(lia))
    as (p & s1 & bs' & fl' & E' & _ & _ & K & _).
  pose proof (malloc_mono fuel (fuel + length fl) n s _ E
                ltac:(discriminate) ltac:(lia)) as E2.
  rewrite E2 in E'. inversion E'; subst p s1. clear E'.
  destruct I as (H & _ & LV).
  destruct (LV q m Iq) as (_ & b & Ib & Eb & Ab & Sb).
  apply (K b (q + i) Ib Ab). lia.
Qed.

Lemma free_live_frame (L : list (Z * Z)) (s : state) (bs : list blk)
      (fl : list Z) (p : Z) (s' : state) :
  Inv L s bs fl -> p = NULL \/ In p (map fst L) -> free p s = Ok tt s' ->
  others_kept L p s s'.
Proof.
  intros I A E q m i Iq Nq Hi.
  destruct A as [->|Ip].
  - rewrite free_null in E by (eapply Inv_first; exact I).
    inversion E; subst. reflexivity.
  - apply in_map_iff in Ip. destruct Ip as ((p' & n) & Ep & Ip).
    simpl in Ep. subst p'.
    destruct (free_inv L s bs fl p n I Ip) as (s1 & fl' & E' & _ & K & _).
    rewrite E in E'. inversion E'; subst s1. clear E'.
    destruct I as (H & _ & LV).
    destruct (LV q m Iq) as (_ & b & Ib & Eb & Ab & Sb).
    apply (K b (q + i) Ib Ab); lia.
Qed.

Lemma realloc_live_frame (L : list (Z * Z)) (s : state) (bs : list blk)
      (fl : list Z) (p m n : Z) (fuel : nat) (r : Z) (s' : state) :
  Inv L s bs fl -> In (p, m) L -> serviceable s n ->
  realloc fuel p n s = Ok r s' ->
  others_kept L p s s'.
Proof.
  intros I Ip Sv E.
  pose proof I as (H & N & LV).
  pose proof (hok_range _ _ _ _ H) as (R0 & R1 & R2).
  pose proof (ok_tiles _ _ _ _ H) as T.
  destruct (LV p m Ip) as (Pm & Bp & IBp & EBp & ABp & SBp).
  pose proof (tiles_in _ _ _ _ _ T IBp) as (Bp0 & Bp1 & Bp2 & _).
  assert (En : (n =? 0) = false) by (apply Z.eqb_neq; destruct Sv; lia).
  assert (Ep : (p =? 0) = false) by (apply Z.eqb_neq; lia).
  unfold realloc in E. rewrite En, Ep in E. revert E. mrun.
  destruct (malloc fuel n s) as [q s1| |] eqn:Em; try discriminate.
  destruct (malloc_ok L s bs fl n (fuel + length fl) I Sv ltac:(lia))
    as (q' & s1' & bs1 & fl1 & Em' & Nq & I1 & K1 & Lo1 & Mx1 & Fq & _).
  pose proof (malloc_mono fuel (fuel + length fl) n s _ Em
                ltac:(discriminate) ltac:(lia)) as E2.
  rewrite E2 in Em'. inversion Em'; subst q' s1'. clear Em' E2.
  assert (Eq : (q =? 0) = false) by (apply Z.eqb_neq; exact Nq).
  rewrite Eq. mstep.
  pose proof I1 as (H1 & N1 & LV1).
  pose proof (ok_tiles _ _ _ _ H1) as T1.
  destruct (LV1 q n (or_introl eq_refl)) as (Pn & Bq & IBq & EBq & ABq & SBq).
  pose proof (tiles_in _ _ _ _ _ T1 IBq) as (Bq0 & Bq1 & Bq2 & _).
  set (cnt := if n <? wrap (get_size (decr_pointer 8 p) s1 - 16)
              then n else wrap (get_size (decr_pointer 8 p) s1 - 16)).
  assert (Hc : cnt <= n).
  { unfold cnt. destruct (n <? _) eqn:C; [lia|]. apply Z.ltb_ge in C. lia. }
  set (m2 := memcpy (mem s1) q p cnt).
  assert (I2 : Inv ((q, n) :: L) (set_mem m2 s1) bs1 fl1).
  { eapply payload_write_inv; [exact I1|left; reflexivity|].
    intros x Hx. unfold m2, memcpy.
    destruct ((q <=? x) && (x <? q + cnt)) eqn:C; [|reflexivity].
    apply andb_prop in C. destruct C as (C1 & C2).
    apply Z.leb_le in C1. apply Z.ltb_lt in C2. lia. }
  destruct (free_inv _ _ _ _ p m I2 (or_intror Ip))
    as (s3 & fl3 & E3 & I3 & K3 & A3 & F3).
  fold m2. rewrite E3. intros E. inversion E; subst r s'. clear E.
  intros x k i Ix Nx Hi.
  destruct (LV x k Ix) as (_ & Bx & IBx & EBx & ABx & SBx).
  destruct (LV1 x k (or_intror Ix)) as (_ & Bx1 & IBx1 & EBx1 & ABx1 & SBx1).
  rewrite (K3 Bx1 (x + i) IBx1 ABx1) by lia.
  simpl. unfold m2, memcpy.
  assert (C : ((q <=? x + i) && (x + i <? q + cnt)) = false).
  { destruct (tiles_far _ _ _ _ _ _ T1 IBx1 IBq) as [->|Far].
    - exfalso. apply Fq. apply in_map_iff. exists (x, k). simpl. split; [lia|auto].
    - apply andb_false_iff. rewrite Z.leb_gt, Z.ltb_ge. lia. }
  rewrite C. apply (K1 Bx (x + i) IBx ABx). lia.
Qed.

Lemma calloc_live_frame (L : list (Z * Z)) (s : state) (bs : list blk)
      (fl : list Z) (k n : Z) (fuel : nat) (r : Z) (s' : state) :
  Inv L s bs fl -> serviceable s (wrap (k * n)) ->
  calloc fuel k n s = Ok r s' ->
  others_kept L NULL s s'.
Proof.
  intros I Sv E.
  unfold calloc in E. revert E. mrun.
  destruct (malloc fuel (wrap (k * n)) s) as [q s1| |] eqn:Em; try discriminate.
  destruct (malloc_ok L s bs fl _ (fuel + length fl) I Sv ltac:(lia))
    as (q' & s1' & bs1 & fl1 & Em' & Nq & I1 & K1 & Lo1 & Mx1 & Fq & _).
  pose proof (malloc_mono fuel (fuel + length fl) _ s _ Em
                ltac:(discriminate) ltac:(lia)) as E2.
  rewrite E2 in Em'. inversion Em'; subst q' s1'. clear Em' E2.
  assert (Eq : (q =? 0) = false) by (apply Z.eqb_neq; exact Nq).
  rewrite Eq. mstep. intros E. inversion E; subst r s'. clear E.
  pose proof I as (H & N & LV).
  pose proof I1 as (H1 & N1 & LV1).
  pose proof (ok_tiles _ _ _ _ H1) as T1.
  destruct (LV1 q _ (or_introl eq_refl)) as (Pn & Bq & IBq & EBq & ABq & SBq).
  intros x j i Ix Nx Hi.
  destruct (LV x j Ix) as (_ & Bx & IBx & EBx & ABx & SBx).
  destruct (LV1 x j (or_intror Ix)) as (_ & Bx1 & IBx1 & EBx1 & ABx1 & SBx1).
  simpl. unfold memset.
  assert (C : ((q <=? x + i) && (x + i <? q + wrap (k * n))) = false).
  { destruct (tiles_far _ _ _ _ _ _ T1 IBx1 IBq) as [->|Far].
    - exfalso. apply Fq. apply in_map_iff. exists (x, j). simpl. split; [lia|auto].
    - apply andb_false_iff. rewrite Z.leb_gt, Z.ltb_ge. lia. }
  rewrite C. apply (K1 Bx (x + i) IBx ABx). lia.
Qed.

(** X14.  A call of [malloc], [free], [realloc] or [calloc] that is within
    the client contract (pointer argument null or live, size zero or
    serviceable) and is made in a state reachable under the client contract
    (from a successful [mm_init] on an empty arena, through calls whose
    pointer arguments are null or live and whose sizes, for [calloc] the
    product modulo 2^64, are zero or serviceable, that is from 1 to 2^64 -
    64 bytes with the arena able to grow whenever no free block fits, and
    through client writes inside live payloads) does not change a single
    byte of the payload of a live allocation, other than the one it is asked
    to release. *)
Theorem live_payload_untouched (L : list (Z * Z)) (s : state) (c : call)
        (fuel : nat) (r : Z) (s' : state) (q m : Z) :
  reachable L s -> admissible L s c -> run_call fuel c s = Ok r s' ->
  In (q, m) L -> q <> released c ->
  forall i, 0 <= i < m -> load8 (mem s') (q + i) = load8 (mem s) (q + i).
Proof.
  intros R A E Iq Nq i Hi.
  destruct (reachable_inv L s R) as (bs & fl & I).
  assert (Q0 : q <> 0).
  { destruct I as (H & _ & LV). destruct (LV q m Iq) as (_ & b & Ib & Eb & _).
    pose proof (hok_range _ _ _ _ H).
    pose proof (tiles_in _ _ _ _ _ (ok_tiles _ _ _ _ H) Ib). lia. }
  unfold load8. f_equal.
  assert (Z0 : forall fuel n r s', n = 0 -> malloc fuel n s = Ok r s' -> s' = s).
  { intros f n r0 s0 -> E0. rewrite malloc_zero in E0
      by (eapply Inv_first; exact I). inversion E0; reflexivity. }
  destruct c as [n|p|p n|k n]; simpl in *.
  - destruct A as [->|Sv].
    + rewrite (Z0 _ _ _ _ eq_refl E). reflexivity.
    + eapply (malloc_live_frame L s bs fl n fuel r s' I Sv E); eauto.
  - revert E. mrun. destruct (free p s) as [[] s1| |] eqn:Ef; try discriminate.
    intros E. inversion E; subst r s'. clear E.
    eapply (free_live_frame L s bs fl p s1 I A Ef); eauto.
  - destruct A as (Ap & An).
    destruct (n =? 0) eqn:En.
    + unfold realloc in E. rewrite En in E. revert E. mrun.
      destruct (free p s) as [[] s1| |] eqn:Ef; try discriminate.
      intros E. inversion E; subst r s'. clear E.
      eapply (free_live_frame L s bs fl p s1 I Ap Ef); eauto.
    + destruct An as [->|Sv]; [discriminate|].
      destruct Ap as [->|Ip].
      * unfold realloc in E. rewrite En in E. change (0 =? 0) with true in E.
        eapply (malloc_live_frame L s bs fl n fuel r s' I Sv E); eauto.
      * apply in_map_iff in Ip. destruct Ip as ((p' & m0) & Ep & Ip).
        simpl in Ep. subst p'.
        eapply (realloc_live_frame L s bs fl p m0 n fuel r s' I Ip Sv E); eauto.
  - destruct A as [Z|Sv].
    + unfold calloc in E. revert E. mrun. rewrite Z.
      destruct (malloc fuel 0 s) as [q0 s1| |] eqn:Em; try discriminate.
      pose proof (Z0 _ _ _ _ eq_refl Em) as ->.
      rewrite malloc_zero in Em by (eapply Inv_first; exact I).
      inversion Em; subst q0. change (0 =? 0) with true. mstep.
      intros E. inversion E; subst. reflexivity.
    + eapply (calloc_live_frame L s bs fl k n fuel r s' I Sv E); eauto.
Qed.

(** ** Where [malloc] places a block *)

(** The memory below the old epilogue is the same after [create_space]. *)
Lemma create_space_below (s : state) (bs : list blk) (fl : list Z) (adj r : Z)
      (s' : state) :
  heap_ok s bs fl [] -> sbrk_succeeds s adj ->
  32 <= adj < TWO64 -> adj mod 16 = 0 ->
  create_space adj s = Ok r s' ->
  forall x, x < mm_heap_last s -> mem s' x = mem s x.
Proof.
  intros H (G0 & G1) A0 A16 E x Hx.
  pose proof (hok_range _ _ _ _ H) as (R0 & R1 & R2).
  assert (TL : to_long adj = adj) by (apply to_long_nonneg; auto; lia).
  rewrite TL in *.
  pose proof (ok_brk _ _ _ _ H) as B. pose proof (ok_max _ _ _ _ H) as (M1 & M2).
  unfold create_space, mem_sbrk in E. revert E. mrun. rewrite TL.
  assert (C : ((0 <=? adj) && (arena_brk s + adj <=? arena_max s)) = true).
  { apply andb_true_intro. split; [apply Z.leb_le|apply Z.leb_le]; lia. }
  rewrite C. mstep. simpl mm_heap_last.
  rewrite incr_pointer_eq by lia.
  rewrite write_tag_eq by (simpl; lia).
  intros E. inversion E. simpl.
  rewrite !store64_out by lia. reflexivity.
Qed.

(** X15.  In a state reachable under the client contract (from a successful
    [mm_init] on an empty arena, through calls whose pointer arguments are
    null or live and whose sizes, for [calloc] the product modulo 2^64, are
    zero or serviceable, that is from 1 to 2^64 - 64 bytes with the arena
    able to grow whenever no free block fits, and through client writes
    inside live payloads), and with fuel for the whole free list, [malloc]
    of a serviceable size returns the payload of the first block of the free
    list that is large enough and leaves the bounds of the heap and of the
    arena alone.  When no block of the list is large enough it returns the
    payload of a new allocated block of exactly the computed size, written
    at the old epilogue; the epilogue and the top of the arena move up by
    that size; and the free list is left alone: its head is the same, not a
    byte of memory below the old epilogue changes, so that all headers,
    footers and link fields are as before, and the list read from the new
    state is the old list. *)
Theorem malloc_placement (L : list (Z * Z)) (s : state) (n : Z) :
  reachable L s -> serviceable s n ->
  exists fuel fl p s',
    free_list fuel s (mm_free_head s) = Some fl /\
    malloc fuel n s = Ok p s' /\
    match find (fun a => adj_size n <=? get_size a s) fl with
    | Some a => p = a + W_SIZE /\ same_frame s s'
    | None =>
        p = mm_heap_last s + W_SIZE /\
        mm_heap_last s' = mm_heap_last s + adj_size n /\
        arena_brk s' = arena_brk s + adj_size n /\
        mm_free_head s' = mm_free_head s /\
        (forall x, x < mm_heap_last s -> mem s' x = mem s x) /\
        free_list fuel s' (mm_free_head s') = Some fl /\
        exists f bs,
          heap_blocks f s (incr_pointer D_SIZE (mm_heap_first s)) = Some bs /\
          heap_blocks (S f) s' (incr_pointer D_SIZE (mm_heap_first s'))
          = Some (bs ++ [Blk (mm_heap_last s) (adj_size n) true])
    end.
Proof.
  intros R (Rn & Grow).
  destruct (reachable_inv L s R) as (bs & fl & (H & N & LV)).
  pose proof (adj_size_facts n Rn) as (_ & A0 & A16 & An & A1).
  pose proof (hok_range _ _ _ _ H) as (R0 & R1 & R2).
  exists (length fl), fl.
  assert (E : forall r s', (b <- find_fit (length fl) (adj_size n) ;;
                            b <- (if b =? 0 then create_space (adj_size n) else ret b) ;;
                            ret (incr_pointer 8 b)) s = Ok r s' ->
                           malloc (length fl) n s = Ok r s').
  { intros r s' Hr. unfold malloc. revert Hr. mrun. rewrite (ok_first _ _ _ _ H).
    assert (E0 : (arena_lo s + 8 =? 0) = false) by (apply Z.eqb_neq; lia).
    rewrite E0. mstep.
    assert (E1 : (n =? 0) = false) by (apply Z.eqb_neq; lia).
    rewrite E1. mstep. auto. }
  pose proof (find_fit_spec s bs fl (adj_size n) (length fl) H A0 A16 A1
                ltac:(lia)) as FF.
  destruct (find (fun a => adj_size n <=? get_size a s) fl) as [a|] eqn:Ef.
  - destruct FF as (s' & B & l1 & l2 & -> & EB & AB & GB & Fa & E' & F' & K' & H').
    pose proof (tiles_at _ _ _ _ _ _ (ok_tiles _ _ _ _ H))
      as (T1 & T2 & SB & MB & B0 & B1).
    assert (Ea : (a =? 0) = false) by (apply Z.eqb_neq; lia).
    exists (a + 8), s'. split; [eapply hok_free_list; exact H|].
    split; [|split; [reflexivity|exact F']].
    apply E. mrun. rewrite E'. mstep. rewrite Ea. mstep.
    rewrite incr_pointer_eq by lia. reflexivity.
  - assert (Gr : sbrk_succeeds s (adj_size n)) by (eapply Grow; exact FF).
    destruct (create_space_ok s bs fl (adj_size n) H Gr ltac:(lia) A16)
      as (s' & E' & H' & K' & F1 & F2 & F3).
    exists (mm_heap_last s + 8), s'. split; [eapply hok_free_list; exact H|].
    split.
    + apply E. mrun. rewrite FF. mstep. change (0 =? 0) with true. mstep.
      rewrite E'. mstep. rewrite incr_pointer_eq by lia. reflexivity.
    + split; [reflexivity|]. split; [exact F3|]. split.
      { rewrite (ok_brk _ _ _ _ H'), (ok_brk _ _ _ _ H), F3. lia. }
      split.
      { pose proof (dll_hd _ _ _ _ _ (ok_dll _ _ _ _ H')) as D'.
        pose proof (dll_hd _ _ _ _ _ (ok_dll _ _ _ _ H)) as D. congruence. }
      split.
      { exact (create_space_below s bs fl (adj_size n) _ s' H Gr ltac:(lia) A16 E'). }
      split; [exact (hok_free_list _ _ _ H')|].
      exists (length bs), bs. split; [eapply hok_heap_blocks; exact H|].
      pose proof (hok_heap_blocks _ _ _ _ H') as X.
      rewrite length_app in X. simpl length in X.
      replace (length bs + 1)%nat with (S (length bs)) in X by lia. exact X.
Qed.

(** X16.  [realloc] never resizes in place: in a state reachable under the
    client contract (from a successful [mm_init] on an empty arena, through
    calls whose pointer arguments are null or live and whose sizes, for
    [calloc] the product modulo 2^64, are zero or serviceable, that is from
    1 to 2^64 - 64 bytes with the arena able to grow whenever no free block
    fits, and through client writes inside live payloads), for a live
    pointer [p] and a serviceable size, whether smaller or larger than the
    old one, the pointer that [realloc] returns is non-null and differs from
    [p] and from every other live pointer. *)
Theorem realloc_always_moves (L : list (Z * Z)) (s : state) (p m n : Z)
        (fuel : nat) (q : Z) (s' : state) :
  reachable L s -> In (p, m) L -> serviceable s n ->
  realloc fuel p n s = Ok q s' ->
  q <> NULL /\ q <> p /\ ~ In q (map fst L).
Proof.
  intros R Ip Sv E. destruct (reachable_inv L s R) as (bs & fl & I).
  assert (En : (n =? 0) = false) by (apply Z.eqb_neq; destruct Sv; lia).
  destruct (realloc_result _ _ _ _ _ _ E En) as (s1 & Em).
  destruct (malloc_result_fresh L s bs fl n fuel q s1 I Sv Em) as (Nq & Fq).
  split; [exact Nq|]. split; [|exact Fq].
  intros ->. apply Fq. apply in_map_iff. exists (p, m). auto.
Qed.

Lemma malloc_nonnull (L : list (Z * Z)) (s : state) (bs : list blk) (fl : list Z)
      (n : Z) (fuel : nat) (r : Z) (s' : state) :
  Inv L s bs fl -> 0 < n <= MAX_REQUEST -> malloc fuel n s = Ok r s' ->
  r <> NULL.
Proof.
  intros (H & N & LV) Rn E.
  pose proof (adj_size_facts n Rn) as (_ & A0 & A16 & An & A1).
  pose proof (hok_range _ _ _ _ H) as (R0 & R1 & R2).
  unfold malloc in E. revert E. mrun. rewrite (ok_first _ _ _ _ H).
  assert (E0 : (arena_lo s + 8 =? 0) = false) by (apply Z.eqb_neq; lia).
  rewrite E0. mstep.
  assert (E1 : (n =? 0) = false) by (apply Z.eqb_neq; lia).
  rewrite E1. mstep.
  destruct (find_fit fuel (adj_size n) s) as [b s1| |] eqn:Ef; try discriminate.
  pose proof (find_fit_mono fuel (fuel + length fl) _ _ _ Ef
                ltac:(discriminate) ltac:(lia)) as Ef'.
  pose proof (find_fit_spec s bs fl (adj_size n) (fuel + length fl) H A0 A16 A1
                ltac:(lia)) as FF.
  destruct (find (fun a => adj_size n <=? get_size a s) fl) as [a|].
  - destruct FF as (s2 & B & l1 & l2 & -> & EB & AB & GB & Fa & E' & _).
    rewrite Ef' in E'. inversion E'; subst b s2. clear E'.
    pose proof (tiles_at _ _ _ _ _ _ (ok_tiles _ _ _ _ H))
      as (T1 & T2 & SB & MB & B0 & B1).
    assert (Ea : (a =? 0) = false) by (apply Z.eqb_neq; lia).
    rewrite Ea. mstep. intros E. inversion E.
    rewrite incr_pointer_eq by lia. lia.
  - rewrite Ef' in FF. inversion FF; subst b s1. clear FF.
    change (0 =? 0) with true. mstep.
    destruct (create_space_result (adj_size n) s) as (s3 & Ec). rewrite Ec.
    mstep. intros E. inversion E.
    rewrite incr_pointer_eq by lia. lia.
Qed.

(** X17.  From a reachable state, [malloc] of a non-zero size of at most
    2^64 - 64 bytes never returns null, whether or not the arena provider
    can supply the memory: it has no failure result for such a request. *)
Theorem malloc_never_reports_failure (L : list (Z * Z)) (s : state) (n : Z)
        (fuel : nat) (r : Z) (s' : state) :
  reachable L s -> 0 < n <= MAX_REQUEST -> malloc fuel n s = Ok r s' ->
  r <> NULL.
Proof.
  intros R Rn E. destruct (reachable_inv L s R) as (bs & fl & I).
  exact (malloc_nonnull L s bs fl n fuel r s' I Rn E).
Qed.

(** ** What [free] does to the heap *)

(** X18.  In a state reachable under the client contract (from a successful
    [mm_init] on an empty arena, through calls whose pointer arguments are
    null or live and whose sizes, for [calloc] the product modulo 2^64, are
    zero or serviceable, that is from 1 to 2^64 - 64 bytes with the arena
    able to grow whenever no free block fits, and through client writes
    inside live payloads), [free] of a live pointer [p] returns, and the
    block sequence of the heap afterwards is the one before with the block
    of [p] marked free and every run of neighbouring free blocks merged into
    one block: the freed block absorbs a free left and a free right
    neighbour, and no other block changes.  The state after the call is
    reachable under the contract again, with [p] no longer live. *)
Theorem free_merges_neighbours (L : list (Z * Z)) (s : state) (p n : Z)
        (f : nat) (bs : list blk) :
  reachable L s -> In (p, n) L ->
  heap_blocks f s (incr_pointer D_SIZE (mm_heap_first s)) = Some bs ->
  exists s' f',
    free p s = Ok tt s' /\
    heap_blocks f' s' (incr_pointer D_SIZE (mm_heap_first s'))
    = Some (merge_free (set_flag (p - W_SIZE) false bs)) /\
    reachable (drop p L) s'.
Proof.
  intros R Ip E. destruct (blocks_of_reachable L s f bs R E) as (fl & I).
  destruct (free_inv L s bs fl p n I Ip) as (s' & fl' & E' & I' & _).
  exists s', (length (merge_free (set_flag (p - 8) false bs))).
  split; [exact E'|]. split; [eapply Inv_heap_blocks; exact I'|].
  apply (reach_call L s 0 (Free p) 0 s' R).
  - right. apply in_map_iff. exists (p, n). auto.
  - simpl. mrun. rewrite E'. reflexivity.
Qed.

Lemma coalesce_right_head (s0 : state) (b0 : Z) (s : state) (l1 l2 : list blk)
      (X : blk) (fl : list Z) (s' : state) :
  coalesce_left b0 s0 = Ok (b_addr X) s ->
  heap_ok s (l1 ++ X :: l2) fl [] -> b_alloc X = false ->
  mm_free_head s = b_addr X ->
  coalesce b0 s0 = Ok tt s' -> mm_free_head s' = b_addr X.
Proof.
  intros EL H AX Hd.
  pose proof (hok_range _ _ _ _ H) as (R0 & R1 & R2).
  pose proof (ok_tiles _ _ _ _ H) as T.
  assert (IX : In X (l1 ++ X :: l2)) by (apply in_or_app; right; left; reflexivity).
  pose proof (tiles_in _ _ _ _ _ T IX) as (X0 & X1 & SX & _).
  assert (GX : get_size (b_addr X) s = b_size X)
    by (eapply get_size_blk; [exact T| | |exact IX]; lia).
  unfold coalesce. mrun. rewrite EL. mstep. rewrite GX.
  rewrite incr_pointer_eq by lia.
  apply tiles_app in T. destruct T as (x & T1 & T2).
  simpl in T2. destruct T2 as (EX & _ & _ & _ & _ & T3). subst x.
  destruct l2 as [|R l2'].
  - simpl in T3. rewrite T3, Z.eqb_refl. mstep.
    intros E. inversion E; subst. exact Hd.
  - pose proof T3 as (ER & SR & MR & HR & _ & T4).
    pose proof (tiles_le _ _ _ _ T4) as L4.
    assert (Ne : (b_addr X + b_size X =? mm_heap_last s) = false)
      by (apply Z.eqb_neq; lia).
    rewrite Ne. mstep.
    unfold is_allocated at 1. rewrite HR, is_allocated_tag by auto.
    destruct (b_alloc R) eqn:AR; mstep.
    + intros E. inversion E; subst. exact Hd.
    + destruct (coalesce_left_merge s l1 l2' X R fl H AX AR)
        as (s1 & E' & H' & K' & F').
      rewrite <- ER, E'. mstep. intros E. inversion E; subst s1.
      apply (dll_hd _ _ _ _ _ (ok_dll _ _ _ _ H')).
Qed.

(** After [coalesce] on a free block [B] that heads the free list, the
    head of the list is the block that has absorbed [B]. *)
Lemma coalesce_head (s : state) (l1 l2 : list blk) (B : blk) (fl : list Z)
      (s' : state) :
  heap_ok s (l1 ++ B :: l2) fl [] -> b_alloc B = false ->
  no_adjacent_free l1 = true -> no_adjacent_free l2 = true ->
  mm_free_head s = b_addr B ->
  coalesce (b_addr B) s = Ok tt s' ->
  exists X, In X (merge_free (l1 ++ B :: l2)) /\ b_alloc X = false /\
            mm_free_head s' = b_addr X /\
            b_addr X <= b_addr B /\
            b_addr B + b_size B <= b_addr X + b_size X.
Proof.
  intros H AB N1 N2 Hd Ec.
  pose proof (tiles_at _ _ _ _ _ _ (ok_tiles _ _ _ _ H))
    as (T1 & T2 & SB & MB & B0 & B1).
  rewrite merge_free_app. unfold merge_free at 1. cbn [fold_right].
  fold (merge_free l2). rewrite (merge_free_id l2 N2).
  assert (MS : exists X0 r, merge_step B l2 = X0 :: r /\ b_alloc X0 = false /\
                            b_addr X0 = b_addr B /\ b_size B <= b_size X0).
  { unfold merge_step. destruct l2 as [|R l2'].
    - exists B, []. repeat split; auto. lia.
    - destruct (is_free B && is_free R).
      + eexists _, _. split; [reflexivity|]. simpl. repeat split; auto.
        destruct T2 as (_ & SR & _). lia.
      + exists B, (R :: l2'). repeat split; auto. lia. }
  destruct MS as (X0 & r & EX & AX & EA & ES).
  rewrite EX, (fold_merge_prefix l1 X0 r N1 AX).
  destruct l1 as [|L t] using rev_ind.
  - simpl rev. cbv iota.
    pose proof (coalesce_left_none s [] l2 B fl [] H (or_introl eq_refl)) as E.
    pose proof (coalesce_right_head s (b_addr B) s [] l2 B fl s' E H AB Hd Ec) as Hh.
    exists X0. split; [left; reflexivity|]. repeat split; auto; lia.
  - clear IHt. rewrite rev_unit.
    destruct (b_alloc L) eqn:AL.
    + assert (E : coalesce_left (b_addr B) s = Ok (b_addr B) s).
      { eapply coalesce_left_none; [exact H|]. right. exists t, L. auto. }
      pose proof (coalesce_right_head s (b_addr B) s (t ++ [L]) l2 B fl s'
                    E H AB Hd Ec) as Hh.
      exists X0. split; [apply in_or_app; right; left; reflexivity|].
      repeat split; auto; lia.
    + rewrite rev_involutive. rewrite <- app_assoc in H. simpl app in H.
      destruct (coalesce_left_merge s t l2 L B fl H AL AB) as (s1 & E1 & H1 & K1 & F1).
      set (M := Blk (b_addr L) (b_size L + b_size B) false) in *.
      assert (Hd1 : mm_free_head s1 = b_addr M)
        by (apply (dll_hd _ _ _ _ _ (ok_dll _ _ _ _ H1))).
      pose proof (coalesce_right_head s (b_addr B) s1 t l2 M _ s'
                    E1 H1 eq_refl Hd1 Ec) as Hh.
      exists (Blk (b_addr L) (b_size L + b_size X0) false).
      split; [apply in_or_app; right; left; reflexivity|].
      cbn [b_addr b_size b_alloc]. split; [reflexivity|]. split; [exact Hh|].
      pose proof (tiles_at _ _ _ _ _ _ (ok_tiles _ _ _ _ H)) as (_ & TB & SL & _).
      simpl in TB. destruct TB as (EB & _). lia.
Qed.

Lemma free_head (s : state) (l1 l2 : list blk) (B : blk) (fl : list Z)
      (s' : state) :
  heap_ok s (l1 ++ B :: l2) fl [] -> b_alloc B = true ->
  no_adjacent_free (l1 ++ B :: l2) = true ->
  free (b_addr B + 8) s = Ok tt s' ->
  exists X, In X (merge_free (l1 ++ Blk (b_addr B) (b_size B) false :: l2)) /\
            b_alloc X = false /\ mm_free_head s' = b_addr X /\
            b_addr X <= b_addr B /\
            b_addr B + b_size B <= b_addr X + b_size X.
Proof.
  intros H AB N.
  pose proof (hok_range _ _ _ _ H) as (R0 & R1 & R2).
  pose proof (ok_tiles _ _ _ _ H) as T.
  pose proof (tiles_at _ _ _ _ _ _ T) as (T1 & T2 & SB & MB & B0 & B1).
  assert (GB : get_size (b_addr B) s = b_size B).
  { eapply get_size_blk; [exact T| | |]; try lia.
    apply in_or_app. right. left. reflexivity. }
  destruct (write_block_ok s l1 [B] l2 fl [] [b_addr B] (b_addr B) (b_size B) false)
    as (H2 & K2 & F2 & Fh2); auto.
  { intros a _. rewrite free_addrs_cons_alloc by exact AB. intros []. }
  { pose proof (ok_perm _ _ _ _ H) as P. simpl app in P. simpl app.
    rewrite free_addrs_app in *. rewrite free_addrs_cons_alloc in P by exact AB.
    rewrite free_addrs_cons_free by reflexivity. simpl b_addr.
    apply Permutation_cons_app. exact P. }
  remember (set_footer (b_addr B) (set_header (b_addr B) (b_size B) false s)) as s2
    eqn:Es2.
  destruct (block_append_ok s2 _ fl [b_addr B] (b_addr B) H2 (or_introl eq_refl))
    as (H3 & K3 & F3).
  simpl remove_addr in H3. rewrite Z.eqb_refl in H3. simpl in H3.
  assert (Hd3 : mm_free_head (block_append (b_addr B) s2) = b_addr B)
    by (apply (dll_hd _ _ _ _ _ (ok_dll _ _ _ _ H3))).
  remember (block_append (b_addr B) s2) as s3 eqn:Es3.
  set (Bf := Blk (b_addr B) (b_size B) false) in *.
  unfold free. mrun. rewrite (ok_first _ _ _ _ H).
  assert (E0 : (arena_lo s + 8 =? 0) = false) by (apply Z.eqb_neq; lia).
  rewrite E0. mstep.
  assert (E1 : (b_addr B + 8 =? 0) = false) by (apply Z.eqb_neq; lia).
  rewrite E1. mstep.
  rewrite decr_pointer_eq by lia.
  replace (b_addr B + 8 - 8) with (b_addr B) by lia.
  rewrite GB, <- Es2, <- Es3. intros Ec.
  apply (coalesce_head s3 l1 l2 Bf (b_addr B :: fl) s' H3 eq_refl
           (naf_app_l _ _ N) (naf_cons _ _ (naf_app_r _ _ N)) Hd3 Ec).
Qed.

Lemma free_head_inv (L : list (Z * Z)) (s : state) (bs : list blk)
      (fl : list Z) (p n : Z) :
  Inv L s bs fl -> In (p, n) L ->
  exists s' fl' B X,
    free p s = Ok tt s' /\
    Inv (drop p L) s' (merge_free (set_flag (p - 8) false bs)) fl' /\
    same_frame s s' /\
    In B bs /\ b_addr B = p - 8 /\ n + 16 <= b_size B /\
    In X (merge_free (set_flag (p - 8) false bs)) /\ b_alloc X = false /\
    mm_free_head s' = b_addr X /\ b_addr X <= b_addr B /\
    b_addr B + b_size B <= b_addr X + b_size X.
Proof.
  intros I Ip.
  destruct (free_inv L s bs fl p n I Ip) as (s' & fl' & Ef & I' & _ & _ & F).
  destruct I as (H & N & LV).
  destruct (LV p n Ip) as (Pn & B & IB & EB & AB & SB).
  exists s', fl', B.
  destruct (in_split _ _ IB) as (l1 & l2 & E12).
  pose proof (ok_tiles _ _ _ _ H) as T. rewrite E12 in *.
  assert (Ef' : free (b_addr B + 8) s = Ok tt s')
    by (replace (b_addr B + 8) with p by lia; exact Ef).
  destruct (free_head s l1 l2 B fl s' H AB N Ef') as (X & IX & AX & Hd & X0 & X1).
  exists X. rewrite <- EB in *.
  rewrite (set_flag_at _ _ _ _ _ _ false T) in *.
  split; [exact Ef|]. split; [exact I'|]. split; [exact F|].
  split; [exact IB|]. split; [reflexivity|]. split; [exact SB|].
  split; [exact IX|]. split; [exact AX|]. split; [exact Hd|].
  split; [exact X0|exact X1].
Qed.

(** X19.  In a state reachable under the client contract (from a successful
    [mm_init] on an empty arena, through calls whose pointer arguments are
    null or live and whose sizes, for [calloc] the product modulo 2^64, are
    zero or serviceable, that is from 1 to 2^64 - 64 bytes with the arena
    able to grow whenever no free block fits, and through client writes
    inside live payloads), [free] of a live pointer [p] returns, and
    afterwards the head of the free list is a free block that contains the
    whole former block of [p]: the freed block, merged with its free
    neighbours, is the first candidate of the next search (last in, first
    out). *)
Theorem free_puts_block_first (L : list (Z * Z)) (s : state) (p n : Z) :
  reachable L s -> In (p, n) L ->
  exists s',
    free p s = Ok tt s' /\
    mm_free_head s' <> NULL /\
    is_allocated (mm_free_head s') s' = false /\
    mm_free_head s' <= p - W_SIZE /\
    p - W_SIZE + get_size (p - W_SIZE) s
    <= mm_free_head s' + get_size (mm_free_head s') s'.
Proof.
  intros R Ip. destruct (reachable_inv L s R) as (bs & fl & I).
  destruct (free_head_inv L s bs fl p n I Ip)
    as (s' & fl' & B & X & Ef & (H' & _) & _ & IB & EB & SB & IX & AX & Hd & X0 & X1).
  exists s'. split; [exact Ef|].
  destruct I as (H & _).
  pose proof (ok_tiles _ _ _ _ H) as T.
  pose proof (hok_range _ _ _ _ H) as (R0 & R1 & R2).
  pose proof (ok_tiles _ _ _ _ H') as T'.
  pose proof (hok_range _ _ _ _ H') as (Q0 & Q1 & Q2).
  pose proof (tiles_in _ _ _ _ _ T' IX) as (Y0 & Y1 & _).
  rewrite Hd.
  rewrite (is_allocated_blk s' _ _ _ X T' IX).
  rewrite (get_size_blk s' _ _ _ X T' ltac:(lia) ltac:(lia) IX).
  assert (GB : get_size (p - 8) s = b_size B).
  { rewrite <- EB. eapply get_size_blk; [exact T| | |exact IB]; lia. }
  rewrite GB. repeat split; auto; lia.
Qed.

(** ** [malloc] and [free] composed *)

Lemma malloc_layout (L : list (Z * Z)) (s : state) (bs : list blk) (fl : list Z)
      (n : Z) :
  Inv L s bs fl -> serviceable s n ->
  exists p s' bs' fl',
    malloc (length fl) n s = Ok p s' /\ Inv ((p, n) :: L) s' bs' fl' /\
    match find (fun a => adj_size n <=? get_size a s) fl with
    | Some a =>
        exists B l1 l2,
          bs = l1 ++ B :: l2 /\ b_addr B = a /\ b_alloc B = false /\
          p = a + 8 /\
          bs' = if 32 + adj_size n <=? b_size B
                then l1 ++ Blk a (adj_size n) true
                        :: Blk (a + adj_size n) (b_size B - adj_size n) false :: l2
                else l1 ++ Blk a (b_size B) true :: l2
    | None =>
        p = mm_heap_last s + 8 /\
        bs' = bs ++ [Blk (mm_heap_last s) (adj_size n) true]
    end.
Proof.
  intros I Sv.
  destruct (malloc_ok L s bs fl n (length fl) I Sv ltac:(lia))
    as (p & s' & bs' & fl' & Em & _ & I' & _).
  exists p, s', bs', fl'. split; [exact Em|]. split; [exact I'|].
  destruct I as (H & N & LV). destruct Sv as (Rn & Grow).
  pose proof (adj_size_facts n Rn) as (_ & A0 & A16 & An & A1).
  pose proof (hok_range _ _ _ _ H) as (R0 & R1 & R2).
  assert (E : forall r s', (b <- find_fit (length fl) (adj_size n) ;;
                            b <- (if b =? 0 then create_space (adj_size n) else ret b) ;;
                            ret (incr_pointer 8 b)) s = Ok r s' ->
                           malloc (length fl) n s = Ok r s').
  { intros r s0 Hr. unfold malloc. revert Hr. mrun. rewrite (ok_first _ _ _ _ H).
    assert (E0 : (arena_lo s + 8 =? 0) = false) by (apply Z.eqb_neq; lia).
    rewrite E0. mstep.
    assert (E1 : (n =? 0) = false) by (apply Z.eqb_neq; lia).
    rewrite E1. mstep. auto. }
  pose proof (find_fit_spec s bs fl (adj_size n) (length fl) H A0 A16 A1
                ltac:(lia)) as FF.
  destruct (find (fun a => adj_size n <=? get_size a s) fl) as [a|] eqn:Ef.
  - destruct FF as (s1 & B & l1 & l2 & -> & EB & AB & GB & Fa & E' & F' & K' & H').
    pose proof (tiles_at _ _ _ _ _ _ (ok_tiles _ _ _ _ H))
      as (T1 & T2 & SB & MB & B0 & B1).
    assert (Ea : (a =? 0) = false) by (apply Z.eqb_neq; lia).
    assert (Em' : malloc (length fl) n s = Ok (a + 8) s1).
    { apply E. mrun. rewrite E'. mstep. rewrite Ea. mstep.
      rewrite incr_pointer_eq by lia. reflexivity. }
    rewrite Em in Em'. inversion Em'; subst p s1. clear Em'.
    exists B, l1, l2. repeat split; auto.
    destruct I' as (HI & _).
    destruct (32 + adj_size n <=? b_size B);
      eapply hok_blocks_unique; eassumption.
  - assert (Gr : sbrk_succeeds s (adj_size n)) by (eapply Grow; exact FF).
    destruct (create_space_ok s bs fl (adj_size n) H Gr ltac:(lia) A16)
      as (s1 & E' & H' & K' & F1 & F2 & F3).
    assert (Em' : malloc (length fl) n s = Ok (mm_heap_last s + 8) s1).
    { apply E. mrun. rewrite FF. mstep. change (0 =? 0) with true. mstep.
      rewrite E'. mstep. rewrite incr_pointer_eq by lia. reflexivity. }
    rewrite Em in Em'. inversion Em'; subst p s1. clear Em'.
    split; [reflexivity|]. destruct I' as (HI & _).
    eapply hok_blocks_unique; eassumption.
Qed.

Lemma merge_step_alloc_tail (R : blk) (l2 : list blk) (B : blk) :
  no_adjacent_free (B :: l2) = true -> b_alloc B = false ->
  merge_step R l2 = R :: l2.
Proof.
  intros N AB. destruct l2 as [|x l2]; [reflexivity|].
  rewrite naf_cons2 in N. rewrite AB in N. simpl in N.
  apply andb_prop in N. destruct N as (Ax & _).
  unfold merge_step, is_free. rewrite Ax. rewrite andb_false_r. reflexivity.
Qed.

(** X20.  [p = malloc(n); free(p)] in a state reachable under the client
    contract (from a successful [mm_init] on an empty arena, through calls
    whose pointer arguments are null or live and whose sizes, for [calloc]
    the product modulo 2^64, are zero or serviceable, that is from 1 to 2^64
    - 64 bytes with the arena able to grow whenever no free block fits, and
    through client writes inside live payloads), for a size [n] that is
    serviceable there: both calls return; when the request is served from
    the free list (whole or by splitting) the heap has the same block
    sequence afterwards as before; when the heap had to grow, it has the old
    blocks followed by the new block, free and merged with a free last
    block. *)
Theorem malloc_then_free_restores_layout (L : list (Z * Z)) (s : state) (n : Z) :
  reachable L s -> serviceable s n ->
  exists fuel fl bs p s1 s2 f',
    free_list fuel s (mm_free_head s) = Some fl /\
    heap_blocks fuel s (incr_pointer D_SIZE (mm_heap_first s)) = Some bs /\
    malloc fuel n s = Ok p s1 /\ free p s1 = Ok tt s2 /\
    heap_blocks f' s2 (incr_pointer D_SIZE (mm_heap_first s2)) =
    Some (match find (fun a => adj_size n <=? get_size a s) fl with
          | Some _ => bs
          | None => merge_free (bs ++ [Blk (mm_heap_last s) (adj_size n) false])
          end).
Proof.
  intros R Sv. destruct (reachable_inv L s R) as (bs & fl & I).
  destruct (malloc_layout L s bs fl n I Sv) as (p & s1 & bs1 & fl1 & Em & I1 & Sh).
  destruct (free_inv _ s1 bs1 fl1 p n I1 (or_introl eq_refl))
    as (s2 & fl2 & Ef & I2 & _).
  pose proof I as (H & N & _). pose proof I1 as (H1 & _).
  pose proof (ok_tiles _ _ _ _ H1) as T1.
  exists (length fl + length bs)%nat, fl, bs, p, s1, s2.
  exists (length (merge_free (set_flag (p - 8) false bs1))).
  split; [eapply free_list_mono; [eapply hok_free_list; exact H|lia]|].
  split; [eapply heap_blocks_mono; [eapply hok_heap_blocks; exact H|lia]|].
  split; [eapply malloc_mono; [exact Em|discriminate|lia]|].
  split; [exact Ef|].
  rewrite (Inv_heap_blocks _ _ _ _ I2). f_equal.
  destruct (find (fun a => adj_size n <=? get_size a s) fl) as [a|].
  - destruct Sh as (B & l1 & l2 & -> & EB & AB & -> & ->).
    replace (a + 8 - 8) with a by lia.
    destruct (naf_unglue _ _ _ N) as (N1 & N2).
    assert (EBk : B = Blk a (b_size B) false).
    { destruct B as [x y z]. simpl in *. congruence. }
    destruct (32 + adj_size n <=? b_size B).
    + change a with (b_addr (Blk a (adj_size n) true)) at 1.
      rewrite (set_flag_at _ _ _ _ _ _ false T1). cbn [b_addr b_size].
      rewrite merge_free_app. unfold merge_free at 1. cbn [fold_right].
      fold (merge_free l2). rewrite (merge_free_id l2) by (eapply naf_cons; exact N2).
      rewrite (merge_step_alloc_tail _ l2 B N2 AB).
      assert (M1 : merge_step (Blk a (adj_size n) false)
                     (Blk (a + adj_size n) (b_size B - adj_size n) false :: l2)
                   = B :: l2).
      { rewrite EBk at 2. unfold merge_step. cbn [is_free b_alloc negb andb b_addr b_size].
        f_equal. f_equal. lia. }
      rewrite M1. apply fold_merge_keep. exact N1.
    + change a with (b_addr (Blk a (b_size B) true)) at 1.
      rewrite (set_flag_at _ _ _ _ _ _ false T1). cbn [b_addr b_size].
      rewrite <- EBk. apply merge_free_id. exact N.
  - destruct Sh as (-> & ->).
    replace (mm_heap_last s + 8 - 8) with (mm_heap_last s) by lia.
    change (mm_heap_last s) with (b_addr (Blk (mm_heap_last s) (adj_size n) true)) at 1.
    rewrite (set_flag_at _ _ _ _ _ _ false T1). reflexivity.
Qed.

(** X21.  In a state reachable under the client contract (from a successful
    [mm_init] on an empty arena, through calls whose pointer arguments are
    null or live and whose sizes, for [calloc] the product modulo 2^64, are
    zero or serviceable, that is from 1 to 2^64 - 64 bytes with the arena
    able to grow whenever no free block fits, and through client writes
    inside live payloads), after [free(p)] of a live allocation of [n]
    bytes, a [malloc] of [n'] bytes with [0 < n' <= n] is served from the
    head of the free list, that is from the block that contains the freed
    one: it returns a pointer not above [p], and the bounds of the heap and
    of the arena are the same as before the [free]. *)
Theorem free_then_malloc_reuses_block (L : list (Z * Z)) (s : state)
        (p n n' : Z) :
  reachable L s -> In (p, n) L -> 0 < n' <= n ->
  exists s1 fuel q s2,
    free p s = Ok tt s1 /\ malloc fuel n' s1 = Ok q s2 /\
    q = mm_free_head s1 + W_SIZE /\ q <= p /\
    same_frame s s2.
Proof.
  intros R Ip Hn. destruct (reachable_inv L s R) as (bs & fl & I).
  destruct (free_head_inv L s bs fl p n I Ip)
    as (s1 & fl1 & B & X & Ef & (HK & _) & F & IB & EB & SB & IX & AX & Hd & H0 & H1).
  pose proof (hok_range _ _ _ _ HK) as (Q0 & Q1 & Q2).
  pose proof (ok_tiles _ _ _ _ HK) as T.
  pose proof (dll_hd _ _ _ _ _ (ok_dll _ _ _ _ HK)) as Hh.
  pose proof (tiles_in _ _ _ _ _ T IX) as (X0 & X1 & X2 & X3 & _).
  destruct fl1 as [|h t]; [simpl in Hh; lia|]. simpl in Hh.
  assert (GX : get_size h s1 = b_size X).
  { rewrite <- Hh, Hd. eapply get_size_blk; [exact T| | |exact IX]; lia. }
  assert (Rn : 0 < n' <= MAX_REQUEST).
  { unfold MAX_REQUEST. rewrite TWO64_eq in *.
    clear - Hn SB H0 H1 X1 X3 Q0 Q1 Q2 X0.
    Z.to_euclidean_division_equations. lia. }
  pose proof (adj_size_facts n' Rn) as (EA & A0 & A16 & An & A1).
  assert (Fit : adj_size n' <= b_size X).
  { rewrite EA. clear - Hn SB H0 H1 X3.
    Z.to_euclidean_division_equations. lia. }
  pose proof (find_fit_spec s1 _ (h :: t) (adj_size n') (length (h :: t))
                HK A0 A16 A1 ltac:(lia)) as FF.
  cbn [find] in FF. rewrite GX in FF.
  assert (C : (adj_size n' <=? b_size X) = true) by (apply Z.leb_le; exact Fit).
  rewrite C in FF.
  destruct FF as (s2 & B' & l1 & l2 & _ & _ & _ & _ & _ & E' & F' & _).
  exists s1, (length (h :: t)), (h + 8), s2.
  split; [exact Ef|]. split; [|split; [rewrite Hh; reflexivity|split; [lia|]]].
  - unfold malloc. mrun. rewrite (ok_first _ _ _ _ HK).
    assert (E0 : (arena_lo s1 + 8 =? 0) = false) by (apply Z.eqb_neq; lia).
    rewrite E0. mstep.
    assert (E1 : (n' =? 0) = false) by (apply Z.eqb_neq; lia).
    rewrite E1. mstep. rewrite E'. mstep.
    assert (Eh : (h =? 0) = false) by (apply Z.eqb_neq; lia).
    rewrite Eh. mstep. rewrite incr_pointer_eq by lia. reflexivity.
  - eapply same_frame_trans; [exact F|exact F'].
Qed.

(** ** The self-check on reachable states *)

Lemma sint64_small (z : Z) : - 2 ^ 63 <= z < 2 ^ 63 -> sint64 z = z.
Proof.
  intros Hz. unfold sint64, to_long, wrap. rewrite TWO64_eq.
  destruct (z mod 18446744073709551616 <? 2 ^ 63) eqn:C.
  - apply Z.ltb_lt in C. Z.to_euclidean_division_equations. lia.
  - apply Z.ltb_ge in C. Z.to_euclidean_division_equations. lia.
Qed.

Lemma tiles_length (m : memory) (bs : list blk) (a e : Z) :
  tiles m a bs e -> a + 32 * Z.of_nat (length bs) <= e.
Proof.
  revert a. induction bs as [|b bs IH]; intros a T.
  - simpl in *. lia.
  - destruct T as (_ & Sz & _ & _ & _ & T). specialize (IH _ T).
    cbn [length]. lia.
Qed.

Lemma count_free_cons (b : blk) (bs : list blk) :
  count_free (b :: bs) = Z.b2z (negb (b_alloc b)) + count_free bs.
Proof.
  unfold count_free. cbn [filter]. unfold is_free at 1.
  destruct (b_alloc b); cbn [negb length Z.b2z]; [lia|].
  rewrite Nat2Z.inj_succ. lia.
Qed.

Lemma count_free_range (bs : list blk) :
  0 <= count_free bs <= Z.of_nat (length bs).
Proof.
  unfold count_free. pose proof (filter_length_le is_free bs). lia.
Qed.

Lemma check_blocks_step (s : state) (bs0 : list blk) (fl out : list Z)
      (b : blk) (bs : list blk) (P num : Z) (fuel : nat) :
  heap_ok s bs0 fl out ->
  tiles (mem s) (b_addr b) (b :: bs) (mm_heap_last s) ->
  arena_lo s + 24 <= b_addr b -> (b_addr b - (arena_lo s + 24)) mod 16 = 0 ->
  check_blocks (S fuel) s (b_addr b) P num =
  match check_blocks fuel s (b_addr b + b_size b) (b_addr b)
          (if negb (P =? 0) && negb (b_alloc b) then sint64 (num + 1) else num)
  with
  | Some (ds, n) =>
      Some (when (negb (P =? 0) && negb (b_alloc b) && negb (is_allocated P s))
                 FailureToCoalesce ++ ds, n)
  | None => None
  end.
Proof.
  intros H T Lo Al.
  pose proof (hok_range _ _ _ _ H) as (R0 & R1 & R2).
  pose proof T as (_ & S32 & S16 & Hd & Ft & T').
  pose proof (tiles_le _ _ _ _ T') as Le.
  assert (G : get_size (b_addr b) s = b_size b).
  { apply (get_size_blk s (b :: bs) (b_addr b) (mm_heap_last s) b T); try lia.
    left. reflexivity. }
  assert (A : is_allocated (b_addr b) s = b_alloc b).
  { apply (is_allocated_blk s (b :: bs) (b_addr b) (mm_heap_last s) b T).
    left. reflexivity. }
  cbn [check_blocks].
  assert (E0 : (b_addr b =? mm_heap_last s) = false) by (apply Z.eqb_neq; lia).
  rewrite E0. cbv zeta. rewrite G, A.
  rewrite incr_pointer_eq by lia.
  assert (D1 : (b_size b mod 16 =? 0) = true) by (apply Z.eqb_eq; exact S16).
  assert (D2 : ((b_addr b <? mem_heap_lo s) || (mem_heap_hi s <? b_addr b)) = false).
  { unfold mem_heap_lo, mem_heap_hi. rewrite (ok_brk _ _ _ _ H).
    apply orb_false_iff. rewrite !Z.ltb_ge. lia. }
  assert (D3 : get_footer_from_header (b_addr b) s = b_addr b + b_size b - 8).
  { unfold get_footer_from_header. rewrite Hd.
    rewrite get_size_tag by lia. rewrite (wrap_small (b_size b - 8)) by lia.
    rewrite incr_pointer_eq by lia. lia. }
  assert (D4 : (b_size b <? 2 * 16) = false) by (apply Z.ltb_ge; lia).
  assert (D5 : (pointer_dif (b_addr b) (mm_heap_first s) mod 16 =? 0) = true).
  { unfold pointer_dif. rewrite (ok_first _ _ _ _ H).
    rewrite wrap_small by lia. apply Z.eqb_eq.
    clear - Al. Z.to_euclidean_division_equations. lia. }
  rewrite D1, D2, D3, D4, D5, Hd, Ft, Z.eqb_refl. simpl when.
  destruct (check_blocks fuel s (b_addr b + b_size b) (b_addr b) _)
    as [[ds n]|]; [|reflexivity].
  rewrite !app_nil_l. reflexivity.
Qed.

Lemma check_blocks_from (s : state) (bs0 : list blk) (fl out : list Z) :
  heap_ok s bs0 fl out ->
  forall (bs : list blk) (a P : Z) (pa : bool) (num : Z) (fuel : nat),
    tiles (mem s) a bs (mm_heap_last s) ->
    arena_lo s + 24 <= a -> (a - (arena_lo s + 24)) mod 16 = 0 ->
    P <> 0 -> is_allocated P s = pa ->
    no_adjacent_free (Blk P 0 pa :: bs) = true ->
    0 <= num -> num + Z.of_nat (length bs) < 2 ^ 63 ->
    (length bs <= fuel)%nat ->
    check_blocks fuel s a P num = Some ([], num + count_free bs).
Proof.
  intros H. induction bs as [|b bs IH];
    intros a P pa num fuel T Lo Al NP EP N N0 N1 Le.
  - simpl in T. subst a. unfold count_free. simpl. rewrite Z.add_0_r.
    destruct fuel; simpl; rewrite Z.eqb_refl; reflexivity.
  - destruct fuel as [|fuel]; [simpl in Le; lia|].
    pose proof T as (Ea & S32 & S16 & _ & _ & T').
    subst a. rewrite (check_blocks_step s bs0 fl out b bs P num fuel H T Lo Al).
    assert (E0 : (P =? 0) = false) by (apply Z.eqb_neq; exact NP).
    rewrite E0, EP. cbn [negb andb].
    rewrite naf_cons2 in N. cbn [b_alloc] in N.
    apply andb_prop in N. destruct N as (N2 & N3).
    assert (C : negb (b_alloc b) && negb pa = false)
      by (destruct pa, (b_alloc b); simpl in *; congruence).
    rewrite C. cbn [when app].
    cbn [length] in N1, Le. rewrite Nat2Z.inj_succ in N1.
    assert (A : is_allocated (b_addr b) s = b_alloc b).
    { apply (is_allocated_blk s (b :: bs) (b_addr b) (mm_heap_last s) b T).
      left. reflexivity. }
    assert (N4 : no_adjacent_free (Blk (b_addr b) 0 (b_alloc b) :: bs) = true)
      by (eapply naf_same_flag; [exact N3|reflexivity]).
    assert (Al' : (b_addr b + b_size b - (arena_lo s + 24)) mod 16 = 0)
      by (clear - Al S16; Z.to_euclidean_division_equations; lia).
    pose proof (hok_range _ _ _ _ H) as (R0 & R1 & R2).
    pose proof (count_free_range bs) as CR.
    rewrite count_free_cons.
    destruct (b_alloc b) eqn:Ab; cbn [negb Z.b2z].
    + rewrite (IH _ (b_addr b) true num fuel T'); auto; try lia.
    + rewrite sint64_small by lia.
      rewrite (IH _ (b_addr b) false (num + 1) fuel T'); auto; try lia.
      f_equal. f_equal. lia.
Qed.

Lemma check_list_ok (s : state) :
  forall (l : list Z) (c p num : Z) (fuel : nat),
    dll (mem s) p c l NULL ->
    (forall x, In x l -> 0 <= x /\ x + 32 <= TWO64 /\
                         mem_heap_lo s <= x <= mem_heap_hi s) ->
    - 2 ^ 63 <= num - Z.of_nat (length l) -> num < 2 ^ 63 ->
    (length l <= fuel)%nat ->
    check_list fuel s c p num = Some ([], num - Z.of_nat (length l)).
Proof.
  induction l as [|a l IH]; intros c p num fuel D Rg N0 N1 Le.
  - simpl in D. subst c. simpl. rewrite Z.sub_0_r.
    destruct fuel; reflexivity.
  - destruct fuel as [|fuel]; [simpl in Le; lia|].
    simpl in D. destruct D as (-> & Na & Ep & D).
    destruct (Rg a (or_introl eq_refl)) as (A0 & A1 & A2 & A3).
    cbn [length] in N0, Le. rewrite Nat2Z.inj_succ in N0.
    cbn [check_list].
    assert (E0 : (a =? 0) = false) by (apply Z.eqb_neq; exact Na).
    rewrite E0. cbv zeta.
    rewrite get_prev_eq, get_next_eq by lia. rewrite Ep, Z.eqb_refl.
    assert (D2 : ((a <? mem_heap_lo s) || (mem_heap_hi s <? a)) = false).
    { apply orb_false_iff. rewrite !Z.ltb_ge. lia. }
    rewrite D2. cbn [negb when app].
    rewrite sint64_small by lia.
    rewrite (IH _ a (num - 1) fuel D); try lia.
    + cbn [length]. rewrite Nat2Z.inj_succ. f_equal. f_equal. lia.
    + intros x Ix. apply Rg. right. exact Ix.
Qed.

Lemma count_free_length (bs : list blk) :
  count_free bs = Z.of_nat (length (free_addrs bs)).
Proof. unfold count_free, free_addrs. rewrite length_map. reflexivity. Qed.

(** X22.  On every state reachable under the client contract (from a
    successful [mm_init] on an empty arena, through calls whose pointer
    arguments are null or live and whose sizes, for [calloc] the product
    modulo 2^64, are zero or serviceable, that is from 1 to 2^64 - 64 bytes
    with the arena able to grow whenever no free block fits, and through
    client writes inside live payloads), [mm_checkheap] terminates and
    prints none of its structural diagnostics (prologue, epilogue,
    coalescing, sizes, bounds, footers, alignment, list links).  It prints
    exactly one line, 'free list storing more blocks than are freed', when
    the heap is not empty and its first block is free, since the first block
    is never counted, and nothing at all otherwise. *)
Theorem checkheap_on_reachable_heap (L : list (Z * Z)) (s : state) :
  reachable L s ->
  exists fuel0, forall fuel, (fuel0 <= fuel)%nat ->
    mm_checkheap fuel s =
    Some (let first := incr_pointer D_SIZE (mm_heap_first s) in
          if (first =? mm_heap_last s) || is_allocated first s
          then [] else [ListStoresMore]).
Proof.
  intros R. destruct (reachable_inv L s R) as (bs & fl & (H & N & _)).
  pose proof (hok_range _ _ _ _ H) as (R0 & R1 & R2).
  pose proof (ok_tiles _ _ _ _ H) as T.
  pose proof (ok_dll _ _ _ _ H) as D.
  pose proof (ok_perm _ _ _ _ H) as P. simpl in P.
  pose proof (hok_spaced _ _ _ _ H) as Sp. simpl in Sp.
  pose proof (tiles_length _ _ _ _ T) as TL.
  assert (Len : Z.of_nat (length fl) = count_free bs).
  { rewrite count_free_length. f_equal. apply Permutation_length. exact P. }
  exists (S (length bs + length fl)). intros fuel Le.
  unfold mm_checkheap. cbv zeta.
  unfold mem_heap_lo, mem_heap_hi.
  rewrite (ok_first _ _ _ _ H), (ok_brk _ _ _ _ H).
  rewrite incr_pointer_eq by lia. rewrite decr_pointer_eq by lia.
  rewrite wrap_small by lia.
  assert (E1 : (arena_lo s + 8 =? 0) = false) by (apply Z.eqb_neq; lia).
  assert (E2 : (mm_heap_last s =? 0) = false) by (apply Z.eqb_neq; lia).
  assert (E3 : (mm_heap_last s =? mm_heap_last s + 16 - 1 - (16 - 1)) = true)
    by (apply Z.eqb_eq; lia).
  rewrite E1, E2, E3, Z.eqb_refl. cbn [negb when app].
  replace (arena_lo s + 8 + 16) with (arena_lo s + 24) by lia.
  assert (Rg : forall x, In x fl -> 0 <= x /\ x + 32 <= TWO64 /\
                                   mem_heap_lo s <= x <= mem_heap_hi s).
  { intros x Ix. destruct (hok_node _ _ _ _ x H Ix) as (b & Ib & Eb & _).
    pose proof (tiles_in _ _ _ _ _ T Ib) as (B0 & B1 & B2 & _).
    unfold mem_heap_lo, mem_heap_hi. rewrite (ok_brk _ _ _ _ H). lia. }
  destruct bs as [|b bs].
  - simpl in T. apply Permutation_sym, Permutation_nil in P. subst fl.
    simpl in D. rewrite T, D, Z.eqb_refl.
    destruct fuel; [lia|]. simpl. rewrite Z.eqb_refl. reflexivity.
  - destruct b as [ba bsz bal].
    pose proof T as (Ea & S32 & S16 & _ & _ & T'). cbn [b_addr b_size b_alloc] in *.
    subst ba. set (B := Blk (arena_lo s + 24) bsz bal) in *.
    pose proof (tiles_le _ _ _ _ T') as Le'.
    assert (E4 : (arena_lo s + 24 =? mm_heap_last s) = false)
      by (apply Z.eqb_neq; lia).
    rewrite E4. cbn [orb].
    assert (A : is_allocated (arena_lo s + 24) s = bal).
    { apply (is_allocated_blk s (B :: bs) (arena_lo s + 24) (mm_heap_last s) B T).
      left. reflexivity. }
    rewrite A.
    destruct fuel as [|fuel]; [lia|]. cbn [length] in Le, TL.
    rewrite Nat2Z.inj_succ in TL.
    pose proof (check_blocks_step s (B :: bs) fl [] B bs 0 0 fuel H T
                  ltac:(simpl; lia)) as St.
    cbn [b_addr b_size b_alloc B] in St.
    rewrite St
      by (replace (arena_lo s + 24 - (arena_lo s + 24)) with 0 by lia; reflexivity).
    clear St.
    change (0 =? 0) with true. cbn [negb andb when app].
    rewrite TWO64_eq in *.
    rewrite (check_blocks_from s (B :: bs) fl [] H bs _ (arena_lo s + 24) bal 0 fuel T');
      [| lia
       | clear - S16; Z.to_euclidean_division_equations; lia
       | lia
       | exact A
       | exact N
       | lia | lia | lia].
    rewrite count_free_cons in Len. cbn [b_alloc B] in Len.
    pose proof (count_free_range bs) as CR.
    assert (F : match (if negb (mm_free_head s =? 0)
                       then check_list (S fuel) s (mm_free_head s) 0 (0 + count_free bs)
                       else Some ([], 0 + count_free bs)) with
                | Some (d_list, num2) =>
                    Some (d_list, num2) =
                    Some ([], - Z.b2z (negb bal))
                | None => False
                end).
    { assert (P63 : 2 ^ 63 = 9223372036854775808) by reflexivity.
      assert (B01 : 0 <= Z.b2z (negb bal) <= 1) by (destruct bal; simpl; lia).
      destruct (mm_free_head s =? 0) eqn:Eh; cbn [negb].
      - apply Z.eqb_eq in Eh. destruct fl as [|x fl'].
        + simpl in Len. f_equal. f_equal. lia.
        + simpl in D. destruct D as (Ex & Nx & _). congruence.
      - rewrite (check_list_ok s fl _ 0 _ (S fuel) D Rg); try lia.
        f_equal. f_equal. lia. }
    destruct (if negb (mm_free_head s =? 0) then _ else _) as [[dl n2]|];
      [|contradiction].
    inversion F; subst dl n2.
    destruct bal; reflexivity.
Qed.

(** ** The properties of the specification under the client contract

    The properties that the runs with a wrapped block size violate hold of
    every call that the client contract admits. *)

(** X23.  In every state reachable under the client contract (from a
    successful [mm_init] on an empty arena, through calls whose pointer
    arguments are null or live and whose sizes, for [calloc] the product
    modulo 2^64, are zero or serviceable, that is from 1 to 2^64 - 64 bytes
    with the arena able to grow whenever no free block fits, and through
    client writes inside live payloads), the implicit traversal of the arena
    from the first block to the epilogue terminates and finds no two
    neighbouring blocks that are both free. *)
Theorem no_adjacent_free_blocks (L : list (Z * Z)) (s : state) :
  reachable L s ->
  exists fuel bs,
    heap_blocks fuel s (incr_pointer D_SIZE (mm_heap_first s)) = Some bs /\
    no_adjacent_free bs = true.
Proof.
  intros R. destruct (reachable_inv L s R) as (bs & fl & I).
  exists (length bs), bs. split; [eapply Inv_heap_blocks; exact I | apply I].
Qed.

(** X24.  On a well-formed heap whose free blocks are all on the list, for a
    block size [adj] that is at least 32, a multiple of 16 and below 2^64 -
    32, so that the threshold [32 + adj] does not wrap around, and with fuel
    for the whole list: [find_fit(adj)] walks the free list from [free_head]
    along the [next] fields and stops at the first block whose size [c] is
    at least [adj].  If [c >= 32 + adj] it returns that block after
    splitting it: an allocated block of size [adj] in its place, followed by
    a free block of size [c - adj] that is put at the front of the list in
    place of the block.  Otherwise it returns the block whole, out of the
    list and marked allocated in header and footer.  If no block is large
    enough it returns null and changes nothing. *)
Theorem find_fit_first_fit (s : state) (bs : list blk) (fl : list Z)
        (adj : Z) (fuel : nat) :
  heap_ok s bs fl [] ->
  32 <= adj -> adj mod 16 = 0 -> adj + 32 < TWO64 ->
  (length fl <= fuel)%nat ->
  match find (fun a => adj <=? get_size a s) fl with
  | None => find_fit fuel adj s = Ok NULL s
  | Some a =>
      let c := get_size a s in
      exists s',
        find_fit fuel adj s = Ok a s' /\
        if 32 + adj <=? c
        then heap_ok s'
               (replace_blk a [Blk a adj true; Blk (a + adj) (c - adj) false] bs)
               ((a + adj) :: remove_addr a fl) []
        else heap_ok s' (replace_blk a [Blk a c true] bs) (remove_addr a fl) []
  end.
Proof.
  intros H A0 A16 A1 Len.
  pose proof (find_fit_spec s bs fl adj fuel H A0 A16 A1 Len) as FF.
  destruct (find (fun a => adj <=? get_size a s) fl) as [a|]; [|exact FF].
  destruct FF as (s' & B & l1 & l2 & -> & EB & AB & GB & Fa & E' & F' & K' & H').
  cbv zeta. rewrite GB. exists s'. split; [exact E'|].
  pose proof (ok_tiles _ _ _ _ H) as T. rewrite <- EB in *.
  destruct (32 + adj <=? b_size B).
  - rewrite (replace_blk_at _ _ _ _ _ _ _ T). exact H'.
  - rewrite (replace_blk_at _ _ _ _ _ _ _ T). exact H'.
Qed.

(** X25.  In a state reachable under the client contract (from a successful
    [mm_init] on an empty arena, through calls whose pointer arguments are
    null or live and whose sizes, for [calloc] the product modulo 2^64, are
    zero or serviceable, that is from 1 to 2^64 - 64 bytes with the arena
    able to grow whenever no free block fits, and through client writes
    inside live payloads), for a live pointer [p] and a serviceable size
    [n], [realloc(p, n)] with fuel for the free list returns a non-null [q]
    whose first [min(n, size(block_of(p)) - 16)] bytes are those of [p]'s
    payload before the call; [q] is live afterwards and [p] is not, and no
    allocated block overlaps the old block of [p] any more. *)
Theorem realloc_preserves_payload (L : list (Z * Z)) (s : state) (p m n : Z) :
  reachable L s -> In (p, m) L -> serviceable s n ->
  exists fuel0, forall fuel, (fuel0 <= fuel)%nat ->
    exists q s',
      realloc fuel p n s = Ok q s' /\ q <> NULL /\
      (forall i, 0 <= i < Z.min n (get_size (p - W_SIZE) s - D_SIZE) ->
                 load8 (mem s') (q + i) = load8 (mem s) (p + i)) /\
      reachable ((q, n) :: drop p L) s' /\
      exists f bs',
        heap_blocks f s' (incr_pointer D_SIZE (mm_heap_first s')) = Some bs' /\
        forall F, In F bs' -> b_alloc F = true ->
                  b_addr F + b_size F <= p - W_SIZE \/
                  p - W_SIZE + get_size (p - W_SIZE) s <= b_addr F.
Proof.
  intros R Ip Sv.
  destruct (reachable_inv L s R) as (bs & fl & I).
  assert (En : (n =? 0) = false) by (apply Z.eqb_neq; destruct Sv; lia).
  exists (length fl). intros fuel Le.
  destruct (realloc_ok L s bs fl p m n fuel I Ip Sv Le)
    as (q & s' & bs' & fl' & E' & Nq & Npq & I' & _ & _ & Bytes & Freed).
  exists q, s'. split; [exact E'|]. split; [exact Nq|]. split; [|split].
  - intros i Hi. unfold load8. rewrite (Bytes i Hi). reflexivity.
  - pose proof (reach_call L s fuel (Realloc p n) q s' R) as RC.
    simpl in RC. rewrite En in RC. apply RC; [|exact E'].
    split; [right|right; exact Sv].
    apply in_map_iff. exists (p, m). auto.
  - exists (length bs'), bs'. split; [eapply Inv_heap_blocks; exact I'|exact Freed].
Qed.

(** X26.  Every non-null pointer returned by a call of [malloc], [realloc]
    or [calloc] that is within the client contract (pointer argument null or
    live, size zero or serviceable) and is made in a state reachable under
    the client contract (from a successful [mm_init] on an empty arena,
    through calls whose pointer arguments are null or live and whose sizes,
    for [calloc] the product modulo 2^64, are zero or serviceable, that is
    from 1 to 2^64 - 64 bytes with the arena able to grow whenever no free
    block fits, and through client writes inside live payloads) is a
    multiple of 16, provided the header of the first block (at [heap_first +
    16]) lies 8 bytes above a 16-byte boundary. *)
Theorem payload_pointers_aligned (L : list (Z * Z)) (s : state) (c : call)
        (fuel : nat) (r : Z) (s' : state) :
  reachable L s -> admissible L s c ->
  incr_pointer D_SIZE (mm_heap_first s) mod 16 = 8 ->
  run_call fuel c s = Ok r s' -> r <> NULL -> r mod 16 = 0.
Proof.
  intros R A Al E Nr.
  destruct (reachable_inv L s R) as (bs & fl & I).
  destruct (call_result_live L s bs fl c fuel r s' I A E Nr) as (n & In').
  destruct (call_ok L s bs fl c (fuel + length fl) I A ltac:(lia))
    as (r' & s1 & bs' & fl' & E' & I' & Lo & _).
  pose proof (run_call_mono fuel (fuel + length fl) c s _ E
                ltac:(discriminate) ltac:(lia)) as E2.
  rewrite E2 in E'. inversion E'; subst r' s1. clear E'.
  destruct I' as (H' & _ & LV').
  destruct (LV' r n In') as (_ & b & Ib & Eb & _).
  pose proof (tiles_aligned _ _ _ _ _ (ok_tiles _ _ _ _ H') Ib) as X.
  destruct I as (H & _). pose proof (hok_range _ _ _ _ H) as (R0 & R1 & R2).
  rewrite (ok_first _ _ _ _ H) in Al. rewrite incr_pointer_eq in Al by lia.
  rewrite Eb, Lo in X. clear - X Al.
  Z.to_euclidean_division_equations. lia.
Qed.

(** X27.  On a well-formed heap, when [block_remove] is called on a member
    of the free list and the [next] field of the head is null, the member is
    the head; hence no call within the client contract (pointer argument
    null or live, size zero or serviceable), made in a state reachable under
    the client contract (from a successful [mm_init] on an empty arena,
    through calls whose pointer arguments are null or live and whose sizes,
    for [calloc] the product modulo 2^64, are zero or serviceable, that is
    from 1 to 2^64 - 64 bytes with the arena able to grow whenever no free
    block fits, and through client writes inside live payloads), ever trips
    the assertion of [block_remove], and with enough fuel every such call
    returns. *)
Theorem block_remove_assert_holds :
  (forall s bs fl out b,
      heap_ok s bs fl out -> In b fl ->
      get_next (mm_free_head s) s = NULL -> b = mm_free_head s) /\
  (forall L s c fuel,
      reachable L s -> admissible L s c -> run_call fuel c s <> AssertFail) /\
  (forall L s c,
      reachable L s -> admissible L s c ->
      exists fuel0, forall fuel, (fuel0 <= fuel)%nat ->
        exists r s', run_call fuel c s = Ok r s').
Proof.
  split; [exact single_node|]. split.
  - intros L s c fuel R A E.
    destruct (reachable_inv L s R) as (bs & fl & I).
    destruct (call_ok L s bs fl c (fuel + length fl) I A ltac:(lia))
      as (r' & s1 & bs' & fl' & E' & _).
    pose proof (run_call_mono fuel (fuel + length fl) c s _ E
                  ltac:(discriminate) ltac:(lia)) as E2.
    congruence.
  - intros L s c R A.
    destruct (reachable_inv L s R) as (bs & fl & I).
    exists (length fl). intros fuel Le.
    destruct (call_ok L s bs fl c fuel I A Le) as (r & s' & _ & _ & E & _).
    eauto.
Qed.

(** ** Instances of the further properties on the example states *)

Lemma full_init_reachable : reachable [] full_init.
Proof.
  apply (reach_init (demo_arena 4136)).
  - repeat split; try reflexivity. intros C. discriminate C.
  - reflexivity.
Qed.

Lemma demo_fresh : fresh (demo_arena 8192).
Proof. unfold fresh. simpl. rewrite TWO64_eq. lia. Qed.

(** The traversals do not depend on the fuel they are given. *)
Lemma free_list_det (f1 f2 : nat) (s : state) (c : Z) (l1 l2 : list Z) :
  free_list f1 s c = Some l1 -> free_list f2 s c = Some l2 -> l1 = l2.
Proof.
  intros E1 E2.
  pose proof (free_list_mono f1 (f1 + f2) s c l1 E1 ltac:(lia)) as X1.
  pose proof (free_list_mono f2 (f1 + f2) s c l2 E2 ltac:(lia)) as X2.
  congruence.
Qed.

Lemma heap_blocks_det (f1 f2 : nat) (s : state) (a : Z) (b1 b2 : list blk) :
  heap_blocks f1 s a = Some b1 -> heap_blocks f2 s a = Some b2 -> b1 = b2.
Proof.
  intros E1 E2.
  pose proof (heap_blocks_mono f1 (f1 + f2) s a b1 E1 ltac:(lia)) as X1.
  pose proof (heap_blocks_mono f2 (f1 + f2) s a b2 E2 ltac:(lia)) as X2.
  congruence.
Qed.

(** In a reachable state the invariant holds of the block sequence and of
    the list that the two traversals read. *)
Lemma reachable_layout (L : list (Z * Z)) (s : state) (f1 f2 : nat)
      (bs : list blk) (fl : list Z) :
  reachable L s ->
  heap_blocks f1 s (incr_pointer D_SIZE (mm_heap_first s)) = Some bs ->
  free_list f2 s (mm_free_head s) = Some fl ->
  Inv L s bs fl.
Proof.
  intros R E1 E2. destruct (reachable_inv L s R) as (bs' & fl' & I).
  pose proof (Inv_heap_blocks _ _ _ _ I) as X1.
  pose proof (hok_free_list _ _ _ (proj1 I)) as X2.
  rewrite (heap_blocks_det _ _ _ _ _ _ E1 X1).
  rewrite (free_list_det _ _ _ _ _ _ E2 X2). exact I.
Qed.

Lemma ok_state_eq {A : Type} (a a' : A) (s s' : state) :
  Ok a s = Ok a' s' -> s = s'.
Proof. intros E. inversion E. reflexivity. Qed.

Lemma demo_layouts :
  heap_blocks 3 demo_hole (incr_pointer D_SIZE (mm_heap_first demo_hole))
  = Some [Blk 4120 32 false; Blk 4152 32 true; Blk 4184 32 true] /\
  free_list 1 demo_hole (mm_free_head demo_hole) = Some [4120] /\
  heap_blocks 3 demo_holes (incr_pointer D_SIZE (mm_heap_first demo_holes))
  = Some [Blk 4120 32 false; Blk 4152 32 true; Blk 4184 32 false] /\
  free_list 2 demo_holes (mm_free_head demo_holes) = Some [4184; 4120] /\
  heap_blocks 1 demo_merged (incr_pointer D_SIZE (mm_heap_first demo_merged))
  = Some [Blk 4120 96 false] /\
  free_list 1 demo_merged (mm_free_head demo_merged) = Some [4120].
Proof. vm_compute. repeat split; reflexivity. Qed.

Lemma demo_facts :
  find (fun a => adj_size 48 <=? get_size a demo_hole) [4120] = None /\
  find (fun a => adj_size 16 <=? get_size a demo_hole) [4120] = Some 4120 /\
  mm_heap_last demo_hole = 4216 /\ adj_size 48 = 64 /\
  find (fun a => adj_size 48 <=? get_size a demo_holes) [4184; 4120] = None /\
  mm_heap_last demo_holes = 4216 /\
  merge_free (set_flag (4160 - W_SIZE) false
                [Blk 4120 32 false; Blk 4152 32 true; Blk 4184 32 false])
  = [Blk 4120 96 false] /\
  merge_free ([Blk 4120 32 false; Blk 4152 32 true; Blk 4184 32 false]
                ++ [Blk 4216 64 false])
  = [Blk 4120 32 false; Blk 4152 32 true; Blk 4184 96 false] /\
  get_size (4160 - W_SIZE) demo_holes = 32 /\
  (let first := incr_pointer D_SIZE (mm_heap_first demo_holes) in
   if (first =? mm_heap_last demo_holes) || is_allocated first demo_holes
   then [] else [ListStoresMore]) = [ListStoresMore] /\
  (let first := incr_pointer D_SIZE (mm_heap_first demo_three) in
   if (first =? mm_heap_last demo_three) || is_allocated first demo_three
   then [] else [ListStoresMore]) = [].
Proof. vm_compute. repeat split; reflexivity. Qed.

Lemma demo_fit_facts :
  find (fun a => 32 <=? get_size a demo_merged) [4120] = Some 4120 /\
  get_size 4120 demo_merged = 96 /\
  replace_blk 4120 [Blk 4120 32 true; Blk (4120 + 32) (96 - 32) false]
              [Blk 4120 96 false]
  = [Blk 4120 32 true; Blk 4152 64 false] /\
  (4120 + 32) :: remove_addr 4120 [4120] = [4152] /\
  find (fun a => 32 <=? get_size a demo_holes) [4184; 4120] = Some 4184 /\
  get_size 4184 demo_holes = 32 /\
  replace_blk 4184 [Blk 4184 32 true]
              [Blk 4120 32 false; Blk 4152 32 true; Blk 4184 32 false]
  = [Blk 4120 32 false; Blk 4152 32 true; Blk 4184 32 true] /\
  remove_addr 4184 [4184; 4120] = [4120] /\
  find (fun a => 64 <=? get_size a demo_holes) [4184; 4120] = None.
Proof. vm_compute. repeat split; reflexivity. Qed.

Lemma round_up_least_multiple_witness :
  0 <= 17 /\ 0 < 16 /\ 17 + 16 - 1 < TWO64 /\
  round_up 17 16 mod 16 = 0 /\ 17 <= round_up 17 16 < 17 + 16.
Proof.
  assert (H : 17 + 16 - 1 < TWO64) by (rewrite TWO64_eq; lia).
  split; [lia|]. split; [lia|]. split; [exact H|].
  apply (round_up_least_multiple 17 16); [lia|lia|exact H].
Defined.

Lemma adj_size_covers_request_witness :
  0 < 48 < TWO64 /\ 48 <= TWO64 - 32 /\
  adj_size 48 = 16 + 16 * ((48 + 15) / 16) /\ 48 + 16 <= adj_size 48 < 48 + 32.
Proof.
  assert (H : 0 < 48 < TWO64) by (rewrite TWO64_eq; lia).
  assert (H' : 48 <= TWO64 - 32) by (rewrite TWO64_eq; lia).
  split; [exact H|]. split; [exact H'|].
  exact (proj1 (adj_size_covers_request 48 H) H').
Defined.

Lemma boundary_tags_round_trip_witness :
  0 < 4120 /\ 16 <= 32 /\ 32 mod 16 = 0 /\ 4120 + 32 <= TWO64 /\
  get_size 4120 (set_header 4120 32 true demo_init) = 32 /\
  is_allocated 4120 (set_header 4120 32 true demo_init) = true.
Proof.
  assert (H : 4120 + 32 <= TWO64) by (rewrite TWO64_eq; lia).
  split; [lia|]. split; [lia|]. split; [reflexivity|]. split; [exact H|].
  pose proof (boundary_tags_round_trip 4120 32 true demo_init
                ltac:(lia) ltac:(lia) eq_refl H) as W.
  cbv zeta in W. destruct W as (G & A & _). split; [exact G|exact A].
Defined.

Lemma mm_init_outcome_witness :
  fresh (demo_arena 8192) /\
  arena_lo (demo_arena 8192) + 40 <= arena_max (demo_arena 8192) /\
  exists s, mm_init (demo_arena 8192) = Ok 0 s /\
            mm_heap_first s = arena_lo (demo_arena 8192) + 8.
Proof.
  assert (R : arena_lo (demo_arena 8192) + 40 <= arena_max (demo_arena 8192))
    by (simpl; lia).
  split; [exact demo_fresh|]. split; [exact R|].
  destruct (proj1 (mm_init_outcome (demo_arena 8192) demo_fresh) R)
    as (s & E & F & _).
  exists s. split; [exact E|exact F].
Defined.

Lemma lazy_initialisation_witness :
  fresh (demo_arena 8192) /\ mm_heap_first (demo_arena 8192) = NULL /\
  arena_lo (demo_arena 8192) + 40 <= arena_max (demo_arena 8192) /\
  malloc 1 16 (demo_arena 8192) = (mm_init ;; malloc 1 16) (demo_arena 8192).
Proof.
  assert (R : arena_lo (demo_arena 8192) + 40 <= arena_max (demo_arena 8192))
    by (simpl; lia).
  split; [exact demo_fresh|]. split; [reflexivity|]. split; [exact R|].
  exact (proj1 (lazy_initialisation (demo_arena 8192) 1 16 0
                  demo_fresh eq_refl R)).
Defined.

Lemma free_keeps_bounds_witness :
  mm_heap_first demo_alloc <> NULL /\
  free 4128 demo_alloc = Ok tt demo_freed /\
  same_frame demo_alloc demo_freed.
Proof.
  assert (H : mm_heap_first demo_alloc <> NULL)
    by (vm_compute; intros C; discriminate C).
  assert (E : free 4128 demo_alloc = Ok tt demo_freed) by reflexivity.
  split; [exact H|]. split; [exact E|].
  exact (free_keeps_bounds 4128 demo_alloc demo_freed H E).
Defined.

Lemma heap_is_tiled_by_blocks_witness :
  reachable [(4160, 16)] demo_holes /\
  heap_blocks 3 demo_holes (incr_pointer D_SIZE (mm_heap_first demo_holes))
  = Some [Blk 4120 32 false; Blk 4152 32 true; Blk 4184 32 false] /\
  exists f bs,
    let first := incr_pointer D_SIZE (mm_heap_first demo_holes) in
    heap_blocks f demo_holes first = Some bs /\
    first + total_size bs = mm_heap_last demo_holes /\
    mm_heap_last demo_holes + D_SIZE = arena_brk demo_holes /\
    forall b, In b bs ->
      32 <= b_size b /\ b_size b mod 16 = 0 /\
      first <= b_addr b /\ b_addr b + b_size b <= mm_heap_last demo_holes /\
      get_footer_from_header (b_addr b) demo_holes = b_addr b + b_size b - W_SIZE /\
      load64 (mem demo_holes) (get_footer_from_header (b_addr b) demo_holes)
      = load64 (mem demo_holes) (b_addr b).
Proof.
  split; [exact demo_holes_reachable|].
  split; [exact (proj1 (proj2 (proj2 demo_layouts)))|].
  exact (heap_is_tiled_by_blocks [(4160, 16)] demo_holes demo_holes_reachable).
Defined.

Lemma free_list_holds_free_blocks_witness :
  reachable [(4160, 16)] demo_holes /\
  heap_blocks 3 demo_holes (incr_pointer D_SIZE (mm_heap_first demo_holes))
  = Some [Blk 4120 32 false; Blk 4152 32 true; Blk 4184 32 false] /\
  free_list 2 demo_holes (mm_free_head demo_holes) = Some [4184; 4120] /\
  exists f1 f2 bs fl,
    heap_blocks f1 demo_holes (incr_pointer D_SIZE (mm_heap_first demo_holes))
    = Some bs /\
    free_list f2 demo_holes (mm_free_head demo_holes) = Some fl /\
    Permutation fl (free_addrs bs) /\ NoDup fl /\
    forall b, In b fl -> is_allocated b demo_holes = false.
Proof.
  destruct demo_layouts as (_ & _ & E1 & E2 & _).
  split; [exact demo_holes_reachable|]. split; [exact E1|]. split; [exact E2|].
  exact (free_list_holds_free_blocks [(4160, 16)] demo_holes demo_holes_reachable).
Defined.

Lemma free_list_doubly_linked_witness :
  reachable [(4160, 16)] demo_holes /\
  free_list 2 demo_holes (mm_free_head demo_holes) = Some [4184; 4120] /\
  mm_free_head demo_holes = 4184 /\
  get_prev 4184 demo_holes = NULL /\
  get_next 4184 demo_holes = 4120 /\ get_prev 4120 demo_holes = 4184 /\
  get_next 4120 demo_holes = NULL.
Proof.
  destruct demo_layouts as (_ & _ & _ & E2 & _).
  split; [exact demo_holes_reachable|]. split; [exact E2|].
  destruct (free_list_doubly_linked [(4160, 16)] demo_holes demo_holes_reachable)
    as (fuel & fl & E & Hd & Pr & Links & End).
  pose proof (free_list_det _ _ _ _ _ _ E E2) as X. subst fl.
  change (hd NULL [4184; 4120]) with 4184 in Hd.
  assert (N : 4184 <> NULL) by (intros C; discriminate C).
  split; [exact Hd|]. rewrite Hd in Pr.
  split; [exact (Pr N)|].
  destruct (Links [] 4184 4120 [] eq_refl) as (X1 & X2).
  split; [exact X1|]. split; [exact X2|].
  exact (End [4184] 4120 eq_refl).
Defined.

Lemma live_blocks_allocated_in_heap_witness :
  reachable [(4192, 16); (4160, 16)] demo_hole /\
  In (4160, 16) [(4192, 16); (4160, 16)] /\
  0 < 16 /\
  is_allocated (4160 - W_SIZE) demo_hole = true /\
  16 + D_SIZE <= get_size (4160 - W_SIZE) demo_hole /\
  mm_heap_first demo_hole + D_SIZE <= 4160 - W_SIZE /\
  4160 - W_SIZE + get_size (4160 - W_SIZE) demo_hole <= mm_heap_last demo_hole /\
  mm_heap_last demo_hole + D_SIZE = arena_brk demo_hole.
Proof.
  assert (I : In (4160, 16) [(4192, 16); (4160, 16)]) by (right; left; reflexivity).
  split; [exact demo_hole_reachable|]. split; [exact I|].
  exact (live_blocks_allocated_in_heap _ demo_hole 4160 16 demo_hole_reachable I).
Defined.

Lemma live_payloads_disjoint_witness :
  reachable [(4192, 16); (4160, 16); (4128, 16)] demo_three /\
  NoDup (map fst [(4192, 16); (4160, 16); (4128, 16)]) /\
  In (4128, 16) [(4192, 16); (4160, 16); (4128, 16)] /\
  In (4160, 16) [(4192, 16); (4160, 16); (4128, 16)] /\ 4128 <> 4160 /\
  (4128 + 16 <= 4160 \/ 4160 + 16 <= 4128).
Proof.
  assert (I1 : In (4128, 16) [(4192, 16); (4160, 16); (4128, 16)])
    by (right; right; left; reflexivity).
  assert (I2 : In (4160, 16) [(4192, 16); (4160, 16); (4128, 16)])
    by (right; left; reflexivity).
  assert (N : 4128 <> 4160) by lia.
  destruct (live_payloads_disjoint _ demo_three demo_three_reachable) as (ND & D).
  split; [exact demo_three_reachable|]. split; [exact ND|].
  split; [exact I1|]. split; [exact I2|]. split; [exact N|].
  exact (D 4128 16 4160 16 I1 I2 N).
Defined.

Lemma live_payload_untouched_witness :
  reachable [(4192, 16); (4160, 16)] demo_hole /\
  admissible [(4192, 16); (4160, 16)] demo_hole (Free 4192) /\
  run_call 1 (Free 4192) demo_hole = Ok 0 demo_holes /\
  In (4160, 16) [(4192, 16); (4160, 16)] /\ 4160 <> released (Free 4192) /\
  forall i, 0 <= i < 16 ->
    load8 (mem demo_holes) (4160 + i) = load8 (mem demo_hole) (4160 + i).
Proof.
  assert (A : admissible [(4192, 16); (4160, 16)] demo_hole (Free 4192))
    by (right; left; reflexivity).
  assert (E : run_call 1 (Free 4192) demo_hole = Ok 0 demo_holes).
  { refine (run_state_after (run_call 1 (Free 4192)) demo_hole 0 _).
    vm_compute. reflexivity. }
  assert (I : In (4160, 16) [(4192, 16); (4160, 16)]) by (right; left; reflexivity).
  assert (N : 4160 <> released (Free 4192)) by (simpl; lia).
  split; [exact demo_hole_reachable|]. split; [exact A|]. split; [exact E|].
  split; [exact I|]. split; [exact N|].
  exact (live_payload_untouched _ demo_hole (Free 4192) 1 0 demo_holes
           4160 16 demo_hole_reachable A E I N).
Defined.

Lemma malloc_placement_witness :
  reachable [(4192, 16); (4160, 16)] demo_hole /\
  serviceable demo_hole 48 /\ serviceable demo_hole 16 /\
  free_list 1 demo_hole (mm_free_head demo_hole) = Some [4120] /\
  (exists fuel s',
      malloc fuel 48 demo_hole = Ok (4216 + W_SIZE) s' /\
      mm_heap_last s' = 4216 + 64 /\
      (forall x, x < 4216 -> mem s' x = mem demo_hole x) /\
      free_list fuel s' (mm_free_head s') = Some [4120]) /\
  (exists fuel s',
      malloc fuel 16 demo_hole = Ok (4120 + W_SIZE) s' /\
      same_frame demo_hole s').
Proof.
  destruct demo_layouts as (_ & E2 & _).
  destruct demo_facts as (F1 & F2 & HL & A48 & _).
  destruct demo_room as (_ & _ & Room & _).
  assert (S48 : serviceable demo_hole 48)
    by (apply (reachable_serviceable _ _ 48 demo_hole_reachable); [lia|exact Room]).
  assert (S16 : serviceable demo_hole 16)
    by (apply (reachable_serviceable _ _ 16 demo_hole_reachable); [lia|exact Room]).
  split; [exact demo_hole_reachable|]. split; [exact S48|]. split; [exact S16|].
  split; [exact E2|]. split.
  - destruct (malloc_placement _ demo_hole 48 demo_hole_reachable S48)
      as (fuel & fl & p & s' & E & Em & W).
    pose proof (free_list_det _ _ _ _ _ _ E E2) as X. subst fl.
    rewrite F1 in W. destruct W as (-> & L' & _ & _ & Below & Fl' & _).
    rewrite HL in Em, L', Below. rewrite A48 in L'.
    exists fuel, s'. split; [exact Em|]. split; [exact L'|].
    split; [exact Below|exact Fl'].
  - destruct (malloc_placement _ demo_hole 16 demo_hole_reachable S16)
      as (fuel & fl & p & s' & E & Em & W).
    pose proof (free_list_det _ _ _ _ _ _ E E2) as X. subst fl.
    rewrite F2 in W. destruct W as (-> & Fr).
    exists fuel, s'. split; [exact Em|exact Fr].
Defined.

Lemma malloc_never_reports_failure_witness :
  reachable [] full_init /\ 0 < 1 <= MAX_REQUEST /\
  malloc 1 1 full_init = Ok 4128 (state_after (malloc 1 1) full_init) /\
  4128 <> NULL.
Proof.
  assert (Rn : 0 < 1 <= MAX_REQUEST)
    by (unfold MAX_REQUEST; rewrite TWO64_eq; lia).
  assert (E : malloc 1 1 full_init = Ok 4128 (state_after (malloc 1 1) full_init))
    by reflexivity.
  split; [exact full_init_reachable|]. split; [exact Rn|]. split; [exact E|].
  exact (malloc_never_reports_failure [] full_init 1 1 4128 _
           full_init_reachable Rn E).
Defined.

Lemma free_merges_neighbours_witness :
  reachable [(4160, 16)] demo_holes /\ In (4160, 16) [(4160, 16)] /\
  heap_blocks 3 demo_holes (incr_pointer D_SIZE (mm_heap_first demo_holes))
  = Some [Blk 4120 32 false; Blk 4152 32 true; Blk 4184 32 false] /\
  exists s' f',
    free 4160 demo_holes = Ok tt s' /\
    heap_blocks f' s' (incr_pointer D_SIZE (mm_heap_first s'))
    = Some [Blk 4120 96 false] /\
    reachable [] s'.
Proof.
  destruct demo_layouts as (_ & _ & E1 & _).
  destruct demo_facts as (_ & _ & _ & _ & _ & _ & M & _).
  split; [exact demo_holes_reachable|]. split; [left; reflexivity|].
  split; [exact E1|].
  destruct (free_merges_neighbours [(4160, 16)] demo_holes 4160 16 3 _
              demo_holes_reachable (or_introl eq_refl) E1)
    as (s' & f' & Ef & Eb & R).
  rewrite M in Eb.
  exists s', f'. split; [exact Ef|]. split; [exact Eb|exact R].
Defined.

Lemma free_puts_block_first_witness :
  reachable [(4160, 16)] demo_holes /\ In (4160, 16) [(4160, 16)] /\
  free 4160 demo_holes = Ok tt (state_after (free 4160) demo_holes) /\
  mm_free_head (state_after (free 4160) demo_holes) = 4120 /\
  get_size 4120 (state_after (free 4160) demo_holes) = 96 /\
  exists s',
    free 4160 demo_holes = Ok tt s' /\
    mm_free_head s' <> NULL /\
    is_allocated (mm_free_head s') s' = false /\
    mm_free_head s' <= 4160 - W_SIZE /\
    4160 - W_SIZE + get_size (4160 - W_SIZE) demo_holes
    <= mm_free_head s' + get_size (mm_free_head s') s'.
Proof.
  split; [exact demo_holes_reachable|]. split; [left; reflexivity|].
  split.
  { refine (run_state_after (free 4160) demo_holes tt _). vm_compute. reflexivity. }
  split; [vm_compute; reflexivity|]. split; [vm_compute; reflexivity|].
  exact (free_puts_block_first [(4160, 16)] demo_holes 4160 16
           demo_holes_reachable (or_introl eq_refl)).
Defined.

Lemma malloc_then_free_restores_layout_witness :
  reachable [(4160, 16)] demo_holes /\ serviceable demo_holes 48 /\
  reachable [(4192, 16); (4160, 16)] demo_hole /\ serviceable demo_hole 16 /\
  (exists fuel p s1 s2 f',
      malloc fuel 48 demo_holes = Ok p s1 /\ free p s1 = Ok tt s2 /\
      heap_blocks fuel demo_holes (incr_pointer D_SIZE (mm_heap_first demo_holes))
      = Some [Blk 4120 32 false; Blk 4152 32 true; Blk 4184 32 false] /\
      heap_blocks f' s2 (incr_pointer D_SIZE (mm_heap_first s2))
      = Some [Blk 4120 32 false; Blk 4152 32 true; Blk 4184 96 false]) /\
  (exists fuel p s1 s2 f',
      malloc fuel 16 demo_hole = Ok p s1 /\ free p s1 = Ok tt s2 /\
      heap_blocks fuel demo_hole (incr_pointer D_SIZE (mm_heap_first demo_hole))
      = Some [Blk 4120 32 false; Blk 4152 32 true; Blk 4184 32 true] /\
      heap_blocks f' s2 (incr_pointer D_SIZE (mm_heap_first s2))
      = Some [Blk 4120 32 false; Blk 4152 32 true; Blk 4184 32 true]).
Proof.
  destruct demo_layouts as (B1 & L1 & B2 & L2 & _).
  destruct demo_facts as (_ & F16 & _ & A48 & F48 & HL & _ & M & _).
  destruct demo_room as (_ & _ & Room1 & Room2 & _).
  assert (S48 : serviceable demo_holes 48)
    by (apply (reachable_serviceable _ _ 48 demo_holes_reachable); [lia|exact Room2]).
  assert (S16 : serviceable demo_hole 16)
    by (apply (reachable_serviceable _ _ 16 demo_hole_reachable); [lia|exact Room1]).
  split; [exact demo_holes_reachable|]. split; [exact S48|].
  split; [exact demo_hole_reachable|]. split; [exact S16|]. split.
  - destruct (malloc_then_free_restores_layout _ demo_holes 48
                demo_holes_reachable S48)
      as (fuel & fl & bs & p & s1 & s2 & f' & E1 & E2 & E3 & E4 & E5).
    pose proof (free_list_det _ _ _ _ _ _ E1 L2) as X. subst fl.
    pose proof (heap_blocks_det _ _ _ _ _ _ E2 B2) as X. subst bs.
    rewrite F48, HL, A48, M in E5.
    exists fuel, p, s1, s2, f'.
    split; [exact E3|]. split; [exact E4|]. split; [exact E2|exact E5].
  - destruct (malloc_then_free_restores_layout _ demo_hole 16
                demo_hole_reachable S16)
      as (fuel & fl & bs & p & s1 & s2 & f' & E1 & E2 & E3 & E4 & E5).
    pose proof (free_list_det _ _ _ _ _ _ E1 L1) as X. subst fl.
    pose proof (heap_blocks_det _ _ _ _ _ _ E2 B1) as X. subst bs.
    rewrite F16 in E5.
    exists fuel, p, s1, s2, f'.
    split; [exact E3|]. split; [exact E4|]. split; [exact E2|exact E5].
Defined.

Lemma free_then_malloc_reuses_block_witness :
  reachable [(4160, 16)] demo_holes /\ In (4160, 16) [(4160, 16)] /\
  0 < 16 <= 16 /\
  free 4160 demo_holes = Ok tt (state_after (free 4160) demo_holes) /\
  mm_free_head (state_after (free 4160) demo_holes) = 4120 /\
  exists fuel q s2,
    malloc fuel 16 (state_after (free 4160) demo_holes) = Ok q s2 /\
    q = 4120 + W_SIZE /\ q <= 4160 /\ same_frame demo_holes s2.
Proof.
  assert (Ef : free 4160 demo_holes = Ok tt (state_after (free 4160) demo_holes)).
  { refine (run_state_after (free 4160) demo_holes tt _). vm_compute. reflexivity. }
  assert (Hd : mm_free_head (state_after (free 4160) demo_holes) = 4120)
    by (vm_compute; reflexivity).
  assert (Rn : 0 < 16 <= 16) by lia.
  split; [exact demo_holes_reachable|]. split; [left; reflexivity|].
  split; [exact Rn|]. split; [exact Ef|]. split; [exact Hd|].
  destruct (free_then_malloc_reuses_block [(4160, 16)] demo_holes 4160 16 16
              demo_holes_reachable (or_introl eq_refl) Rn)
    as (s1 & fuel & q & s2 & E1 & E2 & E3 & E4 & Fr).
  rewrite Ef in E1. apply ok_state_eq in E1. subst s1.
  rewrite Hd in E3.
  exists fuel, q, s2. split; [exact E2|]. split; [exact E3|].
  split; [exact E4|exact Fr].
Defined.

Lemma checkheap_on_reachable_heap_witness :
  reachable [(4160, 16)] demo_holes /\
  is_allocated (incr_pointer D_SIZE (mm_heap_first demo_holes)) demo_holes = false /\
  (exists fuel0, forall fuel, (fuel0 <= fuel)%nat ->
     mm_checkheap fuel demo_holes = Some [ListStoresMore]) /\
  reachable [(4192, 16); (4160, 16); (4128, 16)] demo_three /\
  is_allocated (incr_pointer D_SIZE (mm_heap_first demo_three)) demo_three = true /\
  (exists fuel0, forall fuel, (fuel0 <= fuel)%nat ->
     mm_checkheap fuel demo_three = Some []).
Proof.
  destruct demo_facts as (_ & _ & _ & _ & _ & _ & _ & _ & _ & C1 & C2).
  split; [exact demo_holes_reachable|]. split; [vm_compute; reflexivity|]. split.
  { destruct (checkheap_on_reachable_heap _ demo_holes demo_holes_reachable)
      as (fuel0 & W).
    exists fuel0. intros fuel Le. rewrite (W fuel Le), C1. reflexivity. }
  split; [exact demo_three_reachable|]. split; [vm_compute; reflexivity|].
  destruct (checkheap_on_reachable_heap _ demo_three demo_three_reachable)
    as (fuel0 & W).
  exists fuel0. intros fuel Le. rewrite (W fuel Le), C2. reflexivity.
Defined.

Lemma append_then_remove_restores_list_witness :
  heap_ok (direct_unlink 4120 demo_freed) [Blk 4120 32 false] [] [4120] /\
  In 4120 [4120] /\
  mm_free_head (block_append 4120 (direct_unlink 4120 demo_freed)) = 4120.
Proof.
  assert (H : heap_ok (direct_unlink 4120 demo_freed) [Blk 4120 32 false] [] [4120])
    by (exact (proj1 (proj2 (block_remove_ok demo_freed _ [4120] [] 4120
                               demo_freed_ok (or_introl eq_refl))))).
  split; [exact H|]. split; [left; reflexivity|].
  pose proof (append_then_remove_restores_list _ _ _ _ 4120 H
                (or_introl eq_refl)) as W.
  cbv zeta in W. exact (proj1 W).
Defined.

Lemma realloc_always_moves_witness :
  reachable [(4192, 16); (4160, 16)] demo_hole /\
  In (4160, 16) [(4192, 16); (4160, 16)] /\
  serviceable demo_hole 8 /\
  exists fuel q s',
    realloc fuel 4160 8 demo_hole = Ok q s' /\ q <> NULL /\ q <> 4160 /\
    ~ In q (map fst [(4192, 16); (4160, 16)]).
Proof.
  destruct demo_room as (_ & _ & Room & _).
  assert (Sv : serviceable demo_hole 8)
    by (apply (reachable_serviceable _ _ 8 demo_hole_reachable); [lia|exact Room]).
  assert (I : In (4160, 16) [(4192, 16); (4160, 16)]) by (right; left; reflexivity).
  split; [exact demo_hole_reachable|]. split; [exact I|]. split; [exact Sv|].
  destruct (reachable_inv _ _ demo_hole_reachable) as (bs & fl & Iv).
  destruct (realloc_ok _ _ bs fl 4160 16 8 (length fl) Iv I Sv (le_n _))
    as (q & s' & _ & _ & E & _).
  exists (length fl), q, s'. split; [exact E|].
  exact (realloc_always_moves _ demo_hole 4160 16 8 _ q s'
           demo_hole_reachable I Sv E).
Defined.

Lemma no_adjacent_free_blocks_witness :
  reachable [(4160, 16)] demo_holes /\
  heap_blocks 3 demo_holes (incr_pointer D_SIZE (mm_heap_first demo_holes))
  = Some [Blk 4120 32 false; Blk 4152 32 true; Blk 4184 32 false] /\
  no_adjacent_free [Blk 4120 32 false; Blk 4152 32 true; Blk 4184 32 false]
  = true.
Proof.
  destruct demo_layouts as (_ & _ & E1 & _).
  split; [exact demo_holes_reachable|]. split; [exact E1|].
  destruct (no_adjacent_free_blocks _ demo_holes demo_holes_reachable)
    as (fuel & bs & E & N).
  rewrite (heap_blocks_det _ _ _ _ _ _ E E1) in N. exact N.
Defined.

Lemma find_fit_first_fit_witness :
  heap_ok demo_merged [Blk 4120 96 false] [4120] [] /\
  heap_ok demo_holes [Blk 4120 32 false; Blk 4152 32 true; Blk 4184 32 false]
          [4184; 4120] [] /\
  (exists s', find_fit 1 32 demo_merged = Ok 4120 s' /\
              heap_ok s' [Blk 4120 32 true; Blk 4152 64 false] [4152] []) /\
  (exists s', find_fit 2 32 demo_holes = Ok 4184 s' /\
              heap_ok s' [Blk 4120 32 false; Blk 4152 32 true; Blk 4184 32 true]
                      [4120] []) /\
  find_fit 2 64 demo_holes = Ok NULL demo_holes.
Proof.
  destruct demo_layouts as (_ & _ & B2 & L2 & B3 & L3).
  destruct demo_fit_facts as (F1 & G1 & R1 & A1 & F2 & G2 & R2 & A2 & F3).
  pose proof (proj1 (reachable_layout _ _ _ _ _ _ demo_merged_reachable B3 L3)) as H3.
  pose proof (proj1 (reachable_layout _ _ _ _ _ _ demo_holes_reachable B2 L2)) as H2.
  assert (T : 32 + 32 < TWO64 /\ 64 + 32 < TWO64) by (rewrite TWO64_eq; lia).
  split; [exact H3|]. split; [exact H2|]. split; [|split].
  - pose proof (find_fit_first_fit demo_merged _ _ 32 1 H3 ltac:(lia) eq_refl
                  (proj1 T) (le_n _)) as W.
    rewrite F1 in W. cbv zeta in W. rewrite G1 in W.
    destruct W as (s' & E & H'). change (32 + 32 <=? 96) with true in H'.
    cbv iota in H'. rewrite R1, A1 in H'. exists s'. split; [exact E|exact H'].
  - pose proof (find_fit_first_fit demo_holes _ _ 32 2 H2 ltac:(lia) eq_refl
                  (proj1 T) (le_n _)) as W.
    rewrite F2 in W. cbv zeta in W. rewrite G2 in W.
    destruct W as (s' & E & H'). change (32 + 32 <=? 32) with false in H'.
    cbv iota in H'. rewrite R2, A2 in H'. exists s'. split; [exact E|exact H'].
  - pose proof (find_fit_first_fit demo_holes _ _ 64 2 H2 ltac:(lia) eq_refl
                  (proj2 T) (le_n _)) as W.
    rewrite F3 in W. exact W.
Defined.

Lemma realloc_preserves_payload_witness :
  reachable [(4128, 32)] demo_written /\ In (4128, 32) [(4128, 32)] /\
  serviceable demo_written 64 /\
  load8 (mem demo_written) (4128 + 20) = 170 /\
  exists fuel0, forall fuel, (fuel0 <= fuel)%nat ->
    exists q s',
      realloc fuel 4128 64 demo_written = Ok q s' /\ q <> NULL /\
      load8 (mem s') (q + 20) = 170 /\
      reachable ((q, 64) :: drop 4128 [(4128, 32)]) s'.
Proof.
  destruct demo_room as (_ & _ & _ & _ & _ & _ & Room & _).
  assert (Sv : serviceable demo_written 64)
    by (apply (reachable_serviceable _ _ 64 demo_written_reachable); [lia|exact Room]).
  assert (B : load8 (mem demo_written) (4128 + 20) = 170) by (vm_compute; reflexivity).
  assert (I20 : 0 <= 20 < Z.min 64 (get_size (4128 - W_SIZE) demo_written - D_SIZE))
    by (vm_compute; split; [intros C; discriminate C|reflexivity]).
  split; [exact demo_written_reachable|]. split; [left; reflexivity|].
  split; [exact Sv|]. split; [exact B|].
  destruct (realloc_preserves_payload [(4128, 32)] demo_written 4128 32 64
              demo_written_reachable (or_introl eq_refl) Sv) as (f0 & W).
  exists f0. intros fuel Le.
  destruct (W fuel Le) as (q & s' & E & N & Bytes & R & _).
  exists q, s'. split; [exact E|]. split; [exact N|].
  split; [rewrite (Bytes 20 I20); exact B|exact R].
Defined.

Lemma payload_pointers_aligned_witness :
  reachable [(4160, 16)] demo_holes /\
  admissible [(4160, 16)] demo_holes (Realloc 4160 40) /\
  incr_pointer D_SIZE (mm_heap_first demo_holes) mod 16 = 8 /\
  run_call 2 (Realloc 4160 40) demo_holes
  = Ok 4224 (state_after (run_call 2 (Realloc 4160 40)) demo_holes) /\
  4224 <> NULL /\ 4224 mod 16 = 0.
Proof.
  destruct demo_room as (_ & _ & _ & Room & _).
  assert (A : admissible [(4160, 16)] demo_holes (Realloc 4160 40)).
  { split; [right; left; reflexivity|right].
    apply (reachable_serviceable _ _ 40 demo_holes_reachable); [lia|exact Room]. }
  assert (Al : incr_pointer D_SIZE (mm_heap_first demo_holes) mod 16 = 8)
    by (vm_compute; reflexivity).
  assert (E : run_call 2 (Realloc 4160 40) demo_holes
              = Ok 4224 (state_after (run_call 2 (Realloc 4160 40)) demo_holes)).
  { refine (run_state_after (run_call 2 (Realloc 4160 40)) demo_holes 4224 _).
    vm_compute. reflexivity. }
  assert (N : 4224 <> NULL) by (intros C; discriminate C).
  split; [exact demo_holes_reachable|]. split; [exact A|]. split; [exact Al|].
  split; [exact E|]. split; [exact N|].
  exact (payload_pointers_aligned _ demo_holes (Realloc 4160 40) 2 4224 _
           demo_holes_reachable A Al E N).
Defined.

Lemma block_remove_assert_holds_witness :
  heap_ok demo_freed [Blk 4120 32 false] [4120] [] /\ In 4120 [4120] /\
  get_next (mm_free_head demo_freed) demo_freed = NULL /\
  4120 = mm_free_head demo_freed /\
  reachable [] demo_freed /\ admissible [] demo_freed (Malloc 16) /\
  run_call 1 (Malloc 16) demo_freed <> AssertFail /\
  reachable [(4160, 16)] demo_holes /\
  admissible [(4160, 16)] demo_holes (Free 4160) /\
  run_call 1 (Free 4160) demo_holes <> AssertFail /\
  exists fuel0, forall fuel, (fuel0 <= fuel)%nat ->
    exists r s', run_call fuel (Free 4160) demo_holes = Ok r s'.
Proof.
  destruct demo_room as (_ & _ & _ & _ & _ & Room & _).
  destruct block_remove_assert_holds as (W1 & W2 & W3).
  assert (G : get_next (mm_free_head demo_freed) demo_freed = NULL)
    by (vm_compute; reflexivity).
  assert (A1 : admissible [] demo_freed (Malloc 16)).
  { right. apply (reachable_serviceable _ _ 16 demo_freed_reachable); [lia|exact Room]. }
  assert (A2 : admissible [(4160, 16)] demo_holes (Free 4160))
    by (right; left; reflexivity).
  split; [exact demo_freed_ok|]. split; [left; reflexivity|]. split; [exact G|].
  split; [exact (W1 _ _ _ _ 4120 demo_freed_ok (or_introl eq_refl) G)|].
  split; [exact demo_freed_reachable|]. split; [exact A1|].
  split; [exact (W2 _ _ _ 1%nat demo_freed_reachable A1)|].
  split; [exact demo_holes_reachable|]. split; [exact A2|].
  split; [exact (W2 _ _ _ 1%nat demo_holes_reachable A2)|].
  exact (W3 _ _ _ demo_holes_reachable A2).
Defined.
